(** * q1.py: a discrete-time binary threshold network

    A shallow embedding of the simulation kernel of [q1.py] (the baseline
    stepper [steps], the adjacency builder [build_out_edges], the fast stepper
    [step_fast], the two drivers [simulate_N] and [simulate_fast]), of its
    line-oriented case reader [_read_stdin_case], of the entry points
    [solve_stdin], [solve_stdin_fast] and [verify_stdin], and of [main] with
    its demo network, followed by the properties of the specification that
    were checked against them and by further properties of the program: its
    error behaviour, the closed form of its runs, and what the reader and the
    entry points do on well-formed input.  [bench_demo], which draws a random
    graph and prints wall-clock times, is a parameter of [main].

    Python values are modelled as follows.
    - [int] is [Z]; [float] is a type [W] with the three operations the
      program uses on it ([0.0], [+], [>=]), instantiated with the kernel's
      binary64 floats ([float_weight]), which is what CPython computes with.
    - a neuron [{"id": .., "state": .., "threshold": ..}] is a record.
    - the mutable list [neurons], standard input, standard output, and the
      sequence of list subscripts evaluated so far make up the [world] that a
      computation [Py A] transforms; a computation either returns a value or
      raises an exception, and the world it leaves behind is kept in both
      cases.
    - a list subscript [l[i]] follows Python: an index in [-len(l), -1]
      counts from the end, anything outside [-len(l), len(l)-1] raises
      [IndexError]. *)

From Stdlib Require Import ZArith List Bool Lia String Ascii Floats Uint63.
From stdpp Require Import base tactics list.
Import ListNotations.

Local Open Scope Z_scope.

(** ** Weights: the arithmetic the program performs on [float] *)

Class Weight (W : Type) := {
  w_zero : W;                 (* the literal 0.0, also float() *)
  w_add : W -> W -> W;        (* x + y, as in  received[v] += w  *)
  w_ge : W -> W -> bool       (* x >= y *)
}.

(** Python's [float]: IEEE 754 binary64, round to nearest even. *)
#[export] Instance float_weight : Weight float := {|
  w_zero := 0%float;
  w_add := PrimFloat.add;
  w_ge x y := PrimFloat.leb y x
|}.

(** Exact integer weights, an arithmetic without rounding. *)
#[export] Instance Z_weight : Weight Z := {|
  w_zero := 0;
  w_add := Z.add;
  w_ge x y := y <=? x
|}.

(** ** Exceptions and results *)

Inductive exn := IndexError | ValueError | ZeroDivisionError.

Inductive result (A : Type) :=
| Ok (x : A)
| Raise (e : exn).
Arguments Ok {A} x.
Arguments Raise {A} e.

Definition is_ok {A} (r : result A) : bool :=
  match r with Ok _ => true | Raise _ => false end.

(** ** Python list subscripts *)

Definition len {A} (l : list A) : Z := Z.of_nat (length l).

(** The position a subscript [i] denotes in a list of length [n]. *)
Definition position (n : nat) (i : Z) : option nat :=
  if (0 <=? i) && (i <? Z.of_nat n) then Some (Z.to_nat i)
  else if (- Z.of_nat n <=? i) && (i <? 0) then Some (Z.to_nat (Z.of_nat n + i))
  else None.

(** [range(M)] and [range(1, N + 1)]; both are empty for a negative bound. *)
Definition range (M : Z) : list Z := map Z.of_nat (seq 0 (Z.to_nat M)).
Definition range1 (N : Z) : list Z := map Z.of_nat (seq 1 (Z.to_nat N)).

(** ** Text: [str.strip()] and [str.split()]

    A line is a [string]: a sequence of characters with code points 0 to
    255, the characters of [ascii] read as the first 256 code points of
    Unicode (a decoded character, not a byte of the encoded input).  Of
    these, [str.isspace()], and with it [strip()] and [split()], takes for
    whitespace TAB, LF, VT, FF, CR (9 to 13), FS, GS, RS, US and the space
    (28 to 32), NEL (U+0085, 133) and the no-break space (U+00A0, 160).
    Python's further whitespace characters lie beyond code point 255, which
    the lines of this model cannot hold. *)

Definition is_space (c : ascii) : bool :=
  let n := nat_of_ascii c in
  ((9 <=? n)%nat && (n <=? 13)%nat) || ((28 <=? n)%nat && (n <=? 32)%nat)
  || (n =? 133)%nat || (n =? 160)%nat.

Fixpoint lstrip (s : string) : string :=
  match s with
  | EmptyString => EmptyString
  | String c s' => if is_space c then lstrip s' else s
  end.

Definition reverse (s : string) : string :=
  string_of_list_ascii (rev (list_ascii_of_string s)).

Definition strip (s : string) : string :=
  reverse (lstrip (reverse (lstrip s))).

(** [split_from cur s]: the whitespace-separated tokens of [s], the first
    one prefixed by the pending characters [cur]. *)
Fixpoint split_from (cur : string) (s : string) : list string :=
  match s with
  | EmptyString => match cur with EmptyString => [] | _ => [cur] end
  | String c s' =>
      if is_space c then
        match cur with
        | EmptyString => split_from EmptyString s'
        | _ => cur :: split_from EmptyString s'
        end
      else split_from (cur ++ String c EmptyString)%string s'
  end.

Definition split (s : string) : list string := split_from EmptyString s.

Section Model.

Context {W : Type} `{Weight W}.

(** ** Data model *)

Record neuron := Neuron { id : Z; state : Z; threshold : W }.

(** An edge [(a, b, w)]: 1-based source, 1-based destination, weight. *)
Definition edge : Type := Z * Z * W.

(** What the program prints, one constructor per [print] call.  The lines
    are kept as data: [Received] holds the signals themselves, not their
    display rounded to three decimals, and [Times] no measured time. *)
Inductive output :=
| Received (received : list W)        (* print("RECEIVED:", ...) in steps *)
| Step (t : Z) (states : list Z)      (* print(f"STEP {t:>4}: {...}") *)
| Final (states : list Z)             (* print( *final_states) *)
| Base (states : list Z)              (* print("BASE :", ...) *)
| Fast (states : list Z)              (* print("FAST :", ...) *)
| Match (same : bool)                 (* print("MATCH:", ...) *)
| Times.                              (* print(f"time  baseline=...") *)

(** One evaluated list subscript: the length of the list and the index. *)
Definition subscript : Type := nat * Z.

Record world := World {
  heap : list neuron;          (* the list object bound to [neurons] *)
  stdin : list string;         (* the unread lines of sys.stdin *)
  stdout : list output;        (* what has been printed, oldest first *)
  trail : list subscript       (* the list subscripts evaluated, oldest first *)
}.

Definition boot (neurons : list neuron) : world :=
  {| heap := neurons; stdin := []; stdout := []; trail := [] |}.

(** ** The computation monad: state and exceptions *)

Definition Py (A : Type) : Type := world -> world * result A.

Definition ret {A} (x : A) : Py A := fun w => (w, Ok x).

Definition raise {A} (e : exn) : Py A := fun w => (w, Raise e).

Definition bind {A B} (m : Py A) (k : A -> Py B) : Py B :=
  fun w => match m w with
           | (w', Ok x) => k x w'
           | (w', Raise e) => (w', Raise e)
           end.

Notation "'let*' x ':=' m 'in' k" := (bind m (fun x => k))
  (at level 10, x pattern, m at level 100, k at level 200).
Notation "m ';;;' k" := (bind m (fun _ => k))
  (at level 100, k at level 200, right associativity).

(** [for x in xs: s = body(x, s)] *)
Fixpoint for_each {A S} (xs : list A) (s : S) (body : A -> S -> Py S) : Py S :=
  match xs with
  | [] => ret s
  | x :: xs' => let* s' := body x s in for_each xs' s' body
  end.

Definition log (e : subscript) (w : world) : world :=
  {| heap := heap w; stdin := stdin w; stdout := stdout w;
     trail := trail w ++ [e] |}.

Definition with_heap (h : list neuron) (w : world) : world :=
  {| heap := h; stdin := stdin w; stdout := stdout w; trail := trail w |}.

(** [l[i]] *)
Definition getitem {A} (l : list A) (i : Z) : Py A :=
  fun w =>
    (log (length l, i) w,
     match position (length l) i with
     | Some k => match l !! k with Some x => Ok x | None => Raise IndexError end
     | None => Raise IndexError
     end).

(** [l[i] = x] *)
Definition setitem {A} (l : list A) (i : Z) (x : A) : Py (list A) :=
  fun w =>
    (log (length l, i) w,
     match position (length l) i with
     | Some k => Ok (<[k := x]> l)
     | None => Raise IndexError
     end).

(** [l[i] += x] on a list of floats: a read, an addition, a write. *)
Definition iadd (l : list W) (i : Z) (x : W) : Py (list W) :=
  let* y := getitem l i in setitem l i (w_add y x).

(** [neurons], [len(neurons)], [neurons[i]] *)
Definition neurons : Py (list neuron) := fun w => (w, Ok (heap w)).

Definition len_neurons : Py Z := fun w => (w, Ok (len (heap w))).

Definition neuron_at (i : Z) : Py neuron :=
  let* ns := neurons in getitem ns i.

Definition set_state (n : neuron) (s : Z) : neuron :=
  {| id := id n; state := s; threshold := threshold n |}.

(** [neurons[i]["state"] = s] *)
Definition store_state (i : Z) (s : Z) : Py unit :=
  let* n := neuron_at i in
  fun w =>
    match position (length (heap w)) i with
    | Some k => (with_heap (<[k := set_state n s]> (heap w)) w, Ok tt)
    | None => (w, Raise IndexError)
    end.

(** [[n["state"] for n in neurons]] *)
Definition states : Py (list Z) :=
  let* ns := neurons in ret (map state ns).

Definition print (o : output) : Py unit :=
  fun w => ({| heap := heap w; stdin := stdin w;
               stdout := stdout w ++ [o]; trail := trail w |}, Ok tt).

(** ** [steps]: one baseline tick *)

(** Phase 2 of [steps]: every edge whose source is active delivers its weight. *)
Definition send (connections : list edge) (received : list W) : Py (list W) :=
  for_each connections received (fun '(a, b, w) received =>
    let* na := neuron_at (a - 1) in
    if state na =? 1 then iadd received (b - 1) w else ret received).

(** Phase 3 of [steps] and [step_fast]: the threshold comparison. *)
Definition decide_states (M : Z) (received : list W) : Py (list Z) :=
  for_each (range M) (replicate (Z.to_nat M) 0) (fun i new_states =>
    let* r := getitem received i in
    let* ni := neuron_at i in
    if w_ge r (threshold ni) then setitem new_states i 1
    else setitem new_states i 0).

(** Phase 4 of [steps] and [step_fast]: the commit. *)
Definition commit (M : Z) (new_states : list Z) : Py unit :=
  for_each (range M) tt (fun i _ =>
    let* s := getitem new_states i in store_state i s).

Definition steps (connections : list edge) (debug : bool) : Py (list Z) :=
  let* M := len_neurons in
  let received := replicate (Z.to_nat M) w_zero in
  let* received := send connections received in
  (if debug then print (Received received) else ret tt);;;
  let* new_states := decide_states M received in
  commit M new_states;;;
  states.

(** One diagnostic snapshot: [if debug_every is not None and t % debug_every == 0]. *)
Definition snapshot (debug_every : option Z) (t : Z) : Py unit :=
  match debug_every with
  | None => ret tt
  | Some k =>
      if k =? 0 then raise ZeroDivisionError
      else if t mod k =? 0 then let* s := states in print (Step t s)
      else ret tt
  end.

Definition simulate_N (connections : list edge) (N : Z) (debug_every : option Z)
  : Py (list Z) :=
  for_each (range1 N) tt (fun t _ =>
    steps connections false;;;
    snapshot debug_every t);;;
  states.

(** ** [build_out_edges]: the aggregated adjacency *)

(** A [defaultdict(float)] keyed by destination index.  Python dictionaries
    keep their keys in insertion order, which is the order [items()] lists
    them in and hence the order in which [step_fast] adds the weights up. *)
Abbreviation dict := (list (Z * W)) (only parsing).

(** [d[v] += w]: a missing key is first created with [float()], that is 0.0. *)
Fixpoint dict_iadd (d : dict) (v : Z) (w : W) : dict :=
  match d with
  | [] => [(v, w_add w_zero w)]
  | (k, x) :: d' =>
      if k =? v then (k, w_add x w) :: d' else (k, x) :: dict_iadd d' v w
  end.

(** [list(d.items())] *)
Definition items (d : dict) : list (Z * W) := d.

(** The list [l] after the object [l[i]] refers to has become [x]. *)
Definition mutated {A} (l : list A) (i : Z) (x : A) : list A :=
  match position (length l) i with
  | Some k => <[k := x]> l
  | None => l
  end.

Definition build_out_edges (M : Z) (connections : list edge)
  : Py (list (list (Z * W))) :=
  let out_edges : list dict := replicate (Z.to_nat M) [] in
  let* out_edges :=
    for_each connections out_edges (fun '(a, b, w) out_edges =>
      let u := a - 1 in
      let v := b - 1 in
      let* d := getitem out_edges u in
      ret (mutated out_edges u (dict_iadd d v w))) in
  ret (map items out_edges).

(** ** [step_fast]: one fast tick *)

(** [enumerate(l)] *)
Definition enumerate {A} (l : list A) : list (Z * A) :=
  imap (fun k x => (Z.of_nat k, x)) l.

(** Phase 1 of [step_fast]: only the active sources deliver. *)
Definition send_fast (out_edges : list (list (Z * W))) (received : list W)
  : Py (list W) :=
  let* ns := neurons in
  for_each (enumerate ns) received (fun '(u, nu) received =>
    if state nu =? 1 then
      let* row := getitem out_edges u in
      for_each row received (fun '(v, w) received => iadd received v w)
    else ret received).

Definition step_fast (out_edges : list (list (Z * W))) : Py (list Z) :=
  let* M := len_neurons in
  let received := replicate (Z.to_nat M) w_zero in
  let* received := send_fast out_edges received in
  let* new_states := decide_states M received in
  commit M new_states;;;
  states.

Definition simulate_fast (connections : list edge) (N : Z)
  (debug_every : option Z) : Py (list Z) :=
  let* M := len_neurons in
  let* out_edges := build_out_edges M connections in
  for_each (range1 N) tt (fun t _ =>
    step_fast out_edges;;;
    snapshot debug_every t);;;
  states.

(** ** Reading one case from standard input *)

(** [sys.stdin.readline()]: the next line, or the empty string at end of file. *)
Definition readline : Py string :=
  fun w =>
    match stdin w with
    | [] => (w, Ok EmptyString)
    | l :: rest =>
        ({| heap := heap w; stdin := rest; stdout := stdout w;
            trail := trail w |}, Ok l)
    end.

Section Reader.

(** The built-in conversions [int(s)] and [float(s)]; [None] stands for the
    [ValueError] they raise on a string they do not accept. *)
Variable int_ : string -> option Z.
Variable float_ : string -> option W.

Definition to_int (s : string) : Py Z :=
  match int_ s with Some z => ret z | None => raise ValueError end.

Definition to_float (s : string) : Py W :=
  match float_ s with Some x => ret x | None => raise ValueError end.

(** [list(map(f, tokens))] *)
Definition list_map {A} (f : string -> Py A) (tokens : list string)
  : Py (list A) :=
  for_each tokens [] (fun tok acc => let* x := f tok in ret (acc ++ [x])).

(** The loop [for line in sys.stdin: ...] of [_read_stdin_case], run on the
    unread lines: the lines it leaves unread and the edges collected, or the
    exception of the first bad record. *)
Fixpoint read_edges (lines : list string) (connections : list edge)
  : list string * result (list edge) :=
  match lines with
  | [] => ([], Ok connections)
  | line :: rest =>
      let line := strip line in
      if String.eqb line EmptyString then read_edges rest connections
      else if String.eqb line "E" then (rest, Ok connections)
      else
        match split line with
        | [a; b; w] =>
            match int_ a with
            | None => (rest, Raise ValueError)
            | Some a =>
                match int_ b with
                | None => (rest, Raise ValueError)
                | Some b =>
                    match float_ w with
                    | None => (rest, Raise ValueError)
                    | Some w => read_edges rest (connections ++ [(a, b, w)])
                    end
                end
            end
        | _ => (rest, Raise ValueError)
        end
  end.

Definition _read_stdin_case : Py (list neuron * list edge * Z) :=
  let* line := readline in
  let* M := to_int (strip line) in
  let* line := readline in
  let* s := list_map to_int (split line) in
  let* line := readline in
  let* X := list_map to_float (split line) in
  let* line := readline in
  let* N := to_int (strip line) in
  let* connections :=
    (fun w =>
       let '(rest, r) := read_edges (stdin w) [] in
       ({| heap := heap w; stdin := rest; stdout := stdout w;
           trail := trail w |}, r)) in
  let* neurons :=
    for_each (range M) [] (fun i acc =>
      let* si := getitem s i in
      let* Xi := getitem X i in
      ret (acc ++ [{| id := i + 1; state := si; threshold := Xi |}])) in
  ret (neurons, connections, N).

(** A call that binds the callee's parameter [neurons] to the list [ns]. *)
Definition call {A} (ns : list neuron) (m : Py A) : Py A :=
  fun w => m (with_heap ns w).

Definition solve_stdin : Py unit :=
  let* (ns, connections, N) := _read_stdin_case in
  let* final_states := call ns (simulate_N connections N None) in
  print (Final final_states).

Definition solve_stdin_fast : Py unit :=
  let* (ns, connections, N) := _read_stdin_case in
  let* final_states := call ns (simulate_fast connections N None) in
  print (Final final_states).

(** [verify_stdin]; the two [copy.deepcopy] calls give each simulator a list
    of its own, and the elapsed times it prints are not modelled. *)
Definition verify_stdin : Py unit :=
  let* (ns, connections, N) := _read_stdin_case in
  let neurons_base := ns in
  let neurons_fast := ns in
  let* base_out := call neurons_base (simulate_N connections N None) in
  let* fast_out := call neurons_fast (simulate_fast connections N None) in
  print (Base base_out);;;
  print (Fast fast_out);;;
  print (Match (bool_decide (base_out = fast_out)));;;
  print Times.

End Reader.

End Model.

Notation "'let*' x ':=' m 'in' k" := (bind m (fun x => k))
  (at level 10, x pattern, m at level 100, k at level 200).
Notation "m ';;;' k" := (bind m (fun _ => k))
  (at level 100, k at level 200, right associativity).

Arguments neuron W : clear implicits.
Arguments edge W : clear implicits.
Arguments world W : clear implicits.
Arguments output W : clear implicits.
Abbreviation dict W := (list (Z * W)) (only parsing).

(** ** Stand-ins for [int()] and [float()] on plain decimal literals

    Used to run the reader on concrete input.  [int_plain] accepts an
    optional sign followed by at most 4300 decimal digits (the length up to
    which CPython converts any digit string), surrounded by optional
    whitespace.  [float_plain] accepts the same with an optional fractional
    part, and gives the binary64 value when the digits make a number below
    2^53 and there are at most 18 decimals: then the numerator and the power
    of ten are below 2^63, where [float_of_Z] is exact on them, both are
    binary64 numbers, and their correctly rounded quotient is the nearest
    binary64 number to the literal.  Every string they accept is converted
    as Python converts it; Python accepts further spellings (underscores,
    exponents, [inf], [nan], longer literals). *)

Definition digit (c : ascii) : option Z :=
  let n := nat_of_ascii c in
  if (48 <=? n)%nat && (n <=? 57)%nat then Some (Z.of_nat (n - 48)) else None.

Fixpoint digits (s : string) (acc : Z) : option Z :=
  match s with
  | EmptyString => Some acc
  | String c s' =>
      match digit c with
      | Some d => digits s' (10 * acc + d)
      | None => None
      end
  end.

(** The sign of a literal and the rest of it. *)
Definition sign_of (s : string) : bool * string :=
  match s with
  | String "-" s' => (true, s')
  | String "+" s' => (false, s')
  | _ => (false, s)
  end.

Definition int_plain (s : string) : option Z :=
  let '(neg, body) := sign_of (strip s) in
  match body with
  | EmptyString => None
  | _ =>
      if (String.length body <=? 4300)%nat then
        option_map (fun z => if neg then - z else z) (digits body 0)
      else None
  end.

(** The text before the first ['.'] and the text after it, if there is one. *)
Fixpoint cut_at_dot (s : string) : string * option string :=
  match s with
  | EmptyString => (EmptyString, None)
  | String "." s' => (EmptyString, Some s')
  | String c s' => let '(i, f) := cut_at_dot s' in (String c i, f)
  end.

(** The binary64 number nearest to an integer in [0, 2^63); the conversion
    goes through a 63-bit integer and is only used in that range. *)
Definition float_of_Z (z : Z) : float := PrimFloat.of_uint63 (Uint63.of_Z z).

(** The binary64 number that represents an integer, with its sign. *)
Definition float_of_int (z : Z) : float :=
  if z <? 0 then PrimFloat.opp (float_of_Z (- z)) else float_of_Z z.

Definition float_plain (s : string) : option float :=
  let '(neg, body) := sign_of (strip s) in
  let '(int_part, frac) := cut_at_dot body in
  let frac_part := match frac with Some f => f | None => EmptyString end in
  match int_part, frac_part with
  | EmptyString, EmptyString => None
  | _, _ =>
      match digits (int_part ++ frac_part)%string 0 with
      | Some m =>
          let k := String.length frac_part in
          if (m <? 2 ^ 53) && (k <=? 18)%nat then
            let x := PrimFloat.div (float_of_Z m) (float_of_Z (10 ^ Z.of_nat k)) in
            Some (if neg then PrimFloat.opp x else x)
          else None
      | None => None
      end
  end.

(** * Vocabulary of the specification *)

Section Vocabulary.

Context {W : Type} `{Weight W}.

(** The world [w] after the neuron list has become [h], [o] has been printed
    and the subscripts [t] have been evaluated. *)
Definition evolves (w : world W) (h : list (neuron W)) (o : list (output W))
  (t : list subscript) : world W :=
  {| heap := h; stdin := stdin w; stdout := stdout w ++ o;
     trail := trail w ++ t |}.

(** A subscript of a list of length [M] by an index in [0, M-1]. *)
Definition within (M : nat) (e : subscript) : Prop :=
  e.1 = M /\ 0 <= e.2 < Z.of_nat M.

(** Every edge has both its endpoints in [1, M]. *)
Definition valid_edges (M : Z) (connections : list (edge W)) : Prop :=
  Forall (fun '(a, b, _) => 1 <= a <= M /\ 1 <= b <= M) connections.

(** There is a neuron [a] (1-based) in [ns] and its state is 1. *)
Definition active (ns : list (neuron W)) (a : Z) : bool :=
  (1 <=? a) &&
  match ns !! Z.to_nat (a - 1) with
  | Some n => state n =? 1
  | None => false
  end.

(** The sum of a list of weights, added up from 0.0 in list order. *)
Definition total (ws : list W) : W := fold_left w_add ws w_zero.

(** The received signal of neuron [i] (0-based): the weights of the edges
    into it whose source is active, summed in input order. *)
Definition received_signal (ns : list (neuron W)) (connections : list (edge W))
  (i : Z) : W :=
  total (map snd (List.filter (fun '(a, b, _) => active ns a && (b - 1 =? i))
                    connections)).

(** The threshold rule. *)
Definition fires (x : W) (n : neuron W) : Z :=
  if w_ge x (threshold n) then 1 else 0.

(** The weights of the edges from [u] to [v] (0-based), in input order. *)
Definition weights_between (connections : list (edge W)) (u v : Z) : list W :=
  map snd (List.filter (fun '(a, b, _) => (a - 1 =? u) && (b - 1 =? v))
             connections).

(** Only the [state] field differs between two neuron lists. *)
Definition same_frame (ns ns' : list (neuron W)) : Prop :=
  map id ns' = map id ns /\ map threshold ns' = map threshold ns.

(** ** Closed forms of the loops *)

(** [received[i] += x] when [i] is in range. *)
Definition bump (r : list W) (i : Z) (x : W) : list W :=
  match r !! Z.to_nat i with
  | Some y => <[Z.to_nat i := w_add y x]> r
  | None => r
  end.

(** What phase 2 of [steps] leaves in [received]. *)
Definition deliver (ns : list (neuron W)) (connections : list (edge W))
  (received : list W) : list W :=
  fold_left (fun r '(a, b, w) => if active ns a then bump r (b - 1) w else r)
    connections received.

(** What phase 3 computes and what phase 4 leaves in the neuron list. *)
Definition next_states (ns : list (neuron W)) (received : list W) : list Z :=
  zip_with fires received ns.

Definition committed (ns : list (neuron W)) (new_states : list Z)
  : list (neuron W) :=
  zip_with set_state ns new_states.

(** What one iteration of the loop of [build_out_edges] does to the dictionaries. *)
Definition aggregate_step (oe : list (dict W)) (e : edge W) : list (dict W) :=
  let '(a, b, x) := e in
  match position (length oe) (a - 1) with
  | Some k =>
      match oe !! k with
      | Some d => <[k := dict_iadd d (b - 1) x]> oe
      | None => oe
      end
  | None => oe
  end.

Definition aggregate (connections : list (edge W)) (oe : list (dict W))
  : list (dict W) :=
  fold_left aggregate_step connections oe.

(** The adjacency [build_out_edges] returns when no subscript fails. *)
Definition adjacency (M : Z) (connections : list (edge W)) : list (list (Z * W)) :=
  aggregate connections (replicate (Z.to_nat M) []).

(** What the inner loop of [step_fast] adds to [received] for one row. *)
Definition pour (row : list (Z * W)) (received : list W) : list W :=
  fold_left (fun r '(v, x) => bump r v x) row received.

(** What phase 1 of [step_fast] leaves in [received]. *)
Definition deliver_fast (ns : list (neuron W)) (oe : list (list (Z * W)))
  (received : list W) : list W :=
  fold_left (fun r '(u, nu) =>
               if state nu =? 1 then
                 match oe !! Z.to_nat u with
                 | Some row => pour row r
                 | None => r
                 end
               else r)
    (enumerate ns) received.

(** Every source index of the edges is a valid subscript of a list of length [M]. *)
Definition sources_indexable (M : Z) (connections : list (edge W)) : Prop :=
  Forall (fun '(a, _, _) => - M <= a - 1 < M) connections.

(** An adjacency whose rows only name destinations in [0, M-1]. *)
Definition rows_within (M : nat) (oe : list (list (Z * W))) : Prop :=
  Forall (Forall (fun '(v, _) => 0 <= v < Z.of_nat M)) oe.

(** The accumulation of [step_fast] over a list of numbered neurons. *)
Definition poured (oe : list (list (Z * W))) (es : list (Z * neuron W)) r
  : list W :=
  fold_left (fun r '(u, nu) =>
               if state nu =? 1 then
                 match oe !! Z.to_nat u with
                 | Some row => pour row r
                 | None => r
                 end
               else r) es r.

(** Both steppers are an accumulation phase followed by the same tail. *)
Definition tick_of (phase : list W -> Py (list W)) (debug : bool) : Py (list Z) :=
  let* M := len_neurons in
  let* received := phase (replicate (Z.to_nat M) w_zero) in
  (if debug then print (Received received) else ret tt);;;
  let* new_states := decide_states M received in
  commit M new_states;;;
  states.

(** [d.get(v)] *)
Fixpoint dict_get (d : dict W) (v : Z) : option W :=
  match d with
  | [] => None
  | (k, x) :: d' => if k =? v then Some x else dict_get d' v
  end.

(** The edges that leave [u] (0-based), in input order. *)
Definition edges_from (connections : list (edge W)) (u : Z) : list (edge W) :=
  List.filter (fun '(a, _, _) => a - 1 =? u) connections.

(** The dictionary of a source after the edges [es] that leave it. *)
Definition row_after (es : list (edge W)) (d : dict W) : dict W :=
  fold_left (fun d '(_, b, x) => dict_iadd d (b - 1) x) es d.

(** The next states the specification prescribes: neuron [i] fires when its
    received signal reaches its threshold. *)
Definition threshold_rule (ns : list (neuron W)) (connections : list (edge W))
  : list Z :=
  imap (fun i n => fires (received_signal ns connections (Z.of_nat i)) n) ns.

(** The state [neurons[a-1]["state"]] of the source of an edge, when that
    subscript is valid. *)
Definition source_state (ns : list (neuron W)) (a : Z) : option Z :=
  match position (length ns) (a - 1) with
  | Some k => state <$> ns !! k
  | None => None
  end.

(** The edge list without the edges whose source has state 0. *)
Definition drop_inactive (ns : list (neuron W)) (connections : list (edge W))
  : list (edge W) :=
  List.filter (fun '(a, _, _) => negb (bool_decide (source_state ns a = Some 0)))
    connections.

(** The adjacency without the out-edges of the sources that have state 0. *)
Definition silence (ns : list (neuron W)) (oe : list (list (Z * W)))
  : list (list (Z * W)) :=
  imap (fun u row =>
          match ns !! u with
          | Some n => if state n =? 0 then [] else row
          | None => row
          end) oe.

(** What a tick leaves for the rest of the program to see. *)
Definition observable (w : world W)
  : list (neuron W) * list string * list (output W) :=
  (heap w, stdin w, stdout w).




(** The result and the final neuron list depend on the initial neuron list only. *)
Definition heap_only {A} (m : Py A) : Prop :=
  forall w1 w2 : world W, heap w1 = heap w2 ->
    heap (m w1).1 = heap (m w2).1 /\ (m w1).2 = (m w2).2.

(** The computation only evaluates subscripts. *)
Definition reads {A} (m : Py A) : Prop :=
  forall w : world W, exists t, (m w).1 = evolves w (heap w) [] t.

(** The computation leaves ids and thresholds alone. *)
Definition framed {A} (m : Py A) : Prop :=
  forall w : world W, same_frame (heap w) (heap (m w).1).

(** The two accumulation phases leave the same signals in [received] on
    every list of [M] neurons. *)
Definition phases_agree (M : nat) (connections : list (edge W)) : Prop :=
  forall ns : list (neuron W),
    length ns = M ->
    deliver_fast ns (adjacency (Z.of_nat M) connections) (replicate M w_zero)
    = deliver ns connections (replicate M w_zero).

(** The computation leaves the neurons and the output alone. *)
Definition hushed {A} (m : Py A) : Prop :=
  forall w : world W, heap (m w).1 = heap w /\ stdout (m w).1 = stdout w.


(** ** Malformed input *)

Section ReaderVocabulary.

Variable int_ : string -> option Z.
Variable float_ : string -> option W.

(** Line [k] (0-based) of the input; past the end of the input [readline]
    returns the empty string. *)
Definition line_at (k : nat) (lines : list string) : string :=
  nth k lines EmptyString.

(** The lines the edge loop reads: those before the first line that is
    exactly ['E'] once stripped, or all of them when there is none. *)
Fixpoint before_terminator (lines : list string) : list string :=
  match lines with
  | [] => []
  | l :: rest =>
      if String.eqb (strip l) "E" then [] else l :: before_terminator rest
  end.

(** An edge record the loop cannot convert: a line that is neither blank
    nor the terminator and does not consist of an integer, an integer and a
    real. *)
Definition bad_record (l : string) : Prop :=
  strip l <> EmptyString /\ strip l <> "E"%string /\
  match split (strip l) with
  | [a; b; x] => int_ a = None \/ int_ b = None \/ float_ x = None
  | _ => True
  end.

(** The malformed inputs on which [_read_stdin_case] raises. *)
Inductive malformed (lines : list string) : Prop :=
| bad_M :
    int_ (strip (line_at 0 lines)) = None -> malformed lines
| bad_state tok :
    tok ∈ split (line_at 1 lines) -> int_ tok = None -> malformed lines
| bad_threshold tok :
    tok ∈ split (line_at 2 lines) -> float_ tok = None -> malformed lines
| bad_N :
    int_ (strip (line_at 3 lines)) = None -> malformed lines
| bad_edge l :
    l ∈ before_terminator (drop 4 lines) -> bad_record l -> malformed lines
| few_states M :
    int_ (strip (line_at 0 lines)) = Some M ->
    len (split (line_at 1 lines)) < M -> malformed lines
| few_thresholds M :
    int_ (strip (line_at 0 lines)) = Some M ->
    len (split (line_at 2 lines)) < M -> malformed lines.

End ReaderVocabulary.

End Vocabulary.

(** ** Weights that are summed exactly *)

(** The sum of the absolute values of a list of integers. *)
Definition mass (zs : list Z) : Z := fold_right (fun z s => Z.abs z + s) 0 zs.

(** The neurons with their thresholds blanked: the accumulation phases only
    read the states. *)
Definition plain {W} (ns : list (neuron W)) : list (neuron Z) :=
  map (fun n => {| id := id n; state := state n; threshold := 0 |}) ns.

(** The mass of an adjacency. *)
Definition adjacency_mass (oe : list (list (Z * Z))) : Z :=
  fold_right (fun row s => mass (map snd row) + s) 0 oe.

Section Representation.

Context {W : Type} `{Weight W}.

(** The fast accumulation walks the neurons and the rows side by side. *)
Definition poured_zip (ns : list (neuron W))
  (oe : list (list (Z * W))) (r : list W) : list W :=
  fold_left (fun r '(nu, row) => if state nu =? 1 then pour row r else r)
    (zip ns oe) r.

(** The edge list, and the row, whose weights represent the given integers
    through [inj]. *)
Definition embed (inj : Z -> W) (zc : list (edge Z)) : list (edge W) :=
  map (fun '(a, b, z) => (a, b, inj z)) zc.

Definition embed_row (inj : Z -> W) (row : list (Z * Z)) : list (Z * W) :=
  map (fun '(v, z) => (v, inj z)) row.

End Representation.

(** ** Concrete cases *)

(** Three neurons, the first two active, and three edges into the third
    whose weights 1, 2^53 and -2^53 are binary64 numbers. *)
Definition rounding_neurons : list (neuron float) :=
  [Neuron 1 1 0.5%float; Neuron 2 1 0.5%float; Neuron 3 0 0.5%float].
Definition rounding_edges : list (edge float) :=
  [(1, 3, 1%float); (2, 3, 9007199254740992%float);
   (1, 3, (-9007199254740992)%float)].

(** The same network with small integer weights. *)
Definition exact_neurons : list (neuron Z) :=
  [Neuron 1 1 1; Neuron 2 1 1; Neuron 3 0 1].
Definition exact_edges : list (edge Z) := [(1, 3, 1); (2, 3, 5); (1, 3, -5)].

(** Scenario 2 of the specification: two neurons and one edge whose weight
    equals the threshold of its destination. *)
Definition pair_neurons : list (neuron float) :=
  [Neuron 1 1 0.5%float; Neuron 2 0 0.5%float].
Definition pair_edges : list (edge float) := [(1, 2, 0.5%float)].

(** One active neuron. *)
Definition lone_neuron : list (neuron float) := [Neuron 1 1 0.5%float].


(** A world whose standard input holds the given lines. *)
Definition input (lines : list string) : world float :=
  {| heap := []; stdin := lines; stdout := []; trail := [] |}.

(** Scenario 2 as a case description; the same without the terminator, with
    surplus states and thresholds, and with an edge record of two tokens. *)
Definition case_scenario_2 : list string :=
  ["2"; "1 0"; "0.5 0.5"; "1"; "1 2 0.5"; "E"]%string.
Definition case_without_terminator : list string :=
  ["2"; "1 0"; "0.5 0.5"; "1"; "1 2 0.5"]%string.
Definition case_with_surplus : list string :=
  ["2"; "1 0 1 1"; "0.5 0.5 7"; "1"; "1 2 0.5"; "E"]%string.
Definition case_with_short_record : list string :=
  ["2"; "1 0"; "0.5 0.5"; "1"; "1 2"; "E"]%string.

(** Scenario 2 with a line that holds a no-break space (U+00A0) only, and
    with no-break spaces between the tokens of its edge record. *)
Definition no_break_space : string := String (ascii_of_nat 160) EmptyString.
Definition case_with_no_break_spaces : list string :=
  ["2"; "1 0"; "0.5 0.5"; "1"; no_break_space;
   "1" ++ no_break_space ++ "2" ++ no_break_space ++ "0.5"; "E"]%string.

(** * Further vocabulary

    Definitions used by the further properties at the end of the file: closed
    forms of the runs, the subscripts that raise, and the rest of the
    program ([main] and its demo). *)

Section RunVocabulary.

Context {W : Type} `{Weight W}.

(** The computation neither reads standard input nor prints. *)
Definition silent {A} (m : Py A) : Prop :=
  forall w : world W, stdin (m w).1 = stdin w /\ stdout (m w).1 = stdout w.

(** The computation does not read standard input. *)
Definition deaf {A} (m : Py A) : Prop :=
  forall w : world W, stdin (m w).1 = stdin w.

End RunVocabulary.

Section ClosedRuns.

Context {W : Type} `{Weight W}.

(** [f] applied [n] times. *)
Fixpoint repeated {A} (f : A -> A) (n : nat) (x : A) : A :=
  match n with
  | O => x
  | S n' => repeated f n' (f x)
  end.

(** The neurons after one tick, and after [n] ticks, of the threshold rule. *)
Definition tick (connections : list (edge W)) (ns : list (neuron W))
  : list (neuron W) :=
  committed ns (threshold_rule ns connections).

Definition after_ticks (n : nat) (ns : list (neuron W))
  (connections : list (edge W)) : list (neuron W) :=
  repeated (tick connections) n ns.

(** The neurons after one fast tick over the adjacency [oe]. *)
Definition fast_tick (oe : list (list (Z * W))) (ns : list (neuron W))
  : list (neuron W) :=
  committed ns
    (next_states ns (deliver_fast ns oe (replicate (length ns) w_zero))).

(** The STEP lines of a run whose ticks are numbered [ts], the first of them
    [j + 1]: one line for each tick number that [debug_every] divides. *)
Definition step_lines (d : option Z) (f : list (neuron W) -> list (neuron W))
  (j : Z) (ts : list Z) (ns : list (neuron W)) : list (output W) :=
  match d with
  | None => []
  | Some k =>
      map (fun t => Step t (map state (repeated f (Z.to_nat (t - j)) ns)))
        (List.filter (fun t => t mod k =? 0) ts)
  end.

(** The STEP lines [simulate_N] prints in [N] ticks. *)
Definition snapshot_lines (d : option Z) (N : Z) (ns : list (neuron W))
  (connections : list (edge W)) : list (output W) :=
  step_lines d (tick connections) 0 (range1 N) ns.

End ClosedRuns.

(** Whether [i] is a valid subscript of a list of [M] elements. *)
Definition indexable (M : nat) (i : Z) : bool :=
  (- Z.of_nat M <=? i) && (i <? Z.of_nat M).

(** [l[i]] as a value: [None] stands for the IndexError. *)
Definition item {A} (l : list A) (i : Z) : option A :=
  match position (length l) i with
  | Some k => l !! k
  | None => None
  end.

Section ErrorVocabulary.

Context {W : Type} `{Weight W}.

(** [r[i] += x] as a value. *)
Definition item_add (r : list W) (i : Z) (x : W) : option (list W) :=
  match position (length r) i with
  | Some k =>
      match r !! k with
      | Some y => Some (<[k := w_add y x]> r)
      | None => None
      end
  | None => None
  end.

(** Phase 2 of [steps] as a value: the signals it leaves in [received], or
    [None] when a subscript fails. *)
Fixpoint accumulate (ns : list (neuron W)) (connections : list (edge W))
  (received : list W) : option (list W) :=
  match connections with
  | [] => Some received
  | (a, b, x) :: rest =>
      match item ns (a - 1) with
      | Some na =>
          if state na =? 1 then
            match item_add received (b - 1) x with
            | Some received' => accumulate ns rest received'
            | None => None
            end
          else accumulate ns rest received
      | None => None
      end
  end.

(** [steps] gets past the edge: its source subscript is valid and, when the
    source is active, so is its destination subscript. *)
Definition deliverable (ns : list (neuron W)) (e : edge W) : bool :=
  let '(a, b, _) := e in
  match source_state ns a with
  | Some s => if s =? 1 then indexable (length ns) (b - 1) else true
  | None => false
  end.

(** The id that a source or destination id in [1 - M, 0] stands for. *)
Definition alias (M : Z) (a : Z) : Z :=
  if (1 - M <=? a) && (a <=? 0) then a + M else a.

Definition unwrapped (M : Z) (connections : list (edge W)) : list (edge W) :=
  map (fun '(a, b, x) => (alias M a, alias M b, x)) connections.

(** No neuron is active and none fires without input. *)
Definition quiescent (ns : list (neuron W)) : Prop :=
  Forall (fun n => state n <> 1 /\ w_ge w_zero (threshold n) = false) ns.

(** The neurons with every state set to 0. *)
Definition at_rest (ns : list (neuron W)) : list (neuron W) :=
  map (fun n => set_state n 0) ns.

End ErrorVocabulary.

Section FastErrorVocabulary.

Context {W : Type} `{Weight W}.

(** The inner loop of [step_fast] over one row, as a value. *)
Fixpoint pour_checked (row : list (Z * W)) (received : list W)
  : option (list W) :=
  match row with
  | [] => Some received
  | (v, x) :: row' =>
      match item_add received v x with
      | Some received' => pour_checked row' received'
      | None => None
      end
  end.

(** Phase 1 of [step_fast] over numbered neurons, as a value. *)
Fixpoint accumulate_fast (oe : list (list (Z * W))) (es : list (Z * neuron W))
  (received : list W) : option (list W) :=
  match es with
  | [] => Some received
  | (u, nu) :: es' =>
      if state nu =? 1 then
        match item oe u with
        | Some row =>
            match pour_checked row received with
            | Some received' => accumulate_fast oe es' received'
            | None => None
            end
        | None => None
        end
      else accumulate_fast oe es' received
  end.

(** [step_fast] gets past neuron [u]: when it is active it has a row, and
    every destination in the row is a valid subscript. *)
Definition row_deliverable (M : nat) (oe : list (list (Z * W)))
  (e : Z * neuron W) : bool :=
  let '(u, nu) := e in
  if state nu =? 1 then
    match item oe u with
    | Some row => forallb (fun '(v, _) => indexable M v) row
    | None => false
    end
  else true.

End FastErrorVocabulary.

(** The distinct elements of a list in the order of their first occurrence:
    the key order of a dictionary filled in list order. *)
Definition first_seen (vs : list Z) (seen : list Z) : list Z :=
  fold_left (fun seen v => if bool_decide (v ∈ seen) then seen else seen ++ [v])
    vs seen.

Section CaseVocabulary.

Context {W : Type} `{Weight W}.
Variable int_ : string -> option Z.
Variable float_ : string -> option W.

(** The lines are edge records that spell the edges, in order; blank lines
    may stand between them. *)
Inductive records : list string -> list (edge W) -> Prop :=
| records_nil : records [] []
| records_blank l ls es :
    strip l = EmptyString -> records ls es -> records (l :: ls) es
| records_edge l ls ta tb tx a b x es :
    strip l <> EmptyString -> strip l <> "E"%string ->
    split (strip l) = [ta; tb; tx] ->
    int_ ta = Some a -> int_ tb = Some b -> float_ tx = Some x ->
    records ls es -> records (l :: ls) ((a, b, x) :: es).

(** The neurons of a case: ids 1 to M with the first M states and
    thresholds. *)
Definition case_neurons (M : Z) (s : list Z) (X : list W) : list (neuron W) :=
  imap (fun i '(si, xi) => {| id := Z.of_nat i + 1; state := si; threshold := xi |})
    (zip (take (Z.to_nat M) s) (take (Z.to_nat M) X)).

(** The input spells the case (M, s, X, N, conns) and [rest] follows it: a
    line for M, one for the states, one for the thresholds, one for N, the
    edge records, and then either the terminator or the end of the input. *)
Definition spells (lines : list string) (M : Z) (s : list Z) (X : list W)
  (N : Z) (conns : list (edge W)) (rest : list string) : Prop :=
  exists lM ls lX lN recs tail,
    lines = lM :: ls :: lX :: lN :: recs ++ tail
    /\ int_ (strip lM) = Some M
    /\ Forall2 (fun tok v => int_ tok = Some v) (split ls) s
    /\ Forall2 (fun tok v => float_ tok = Some v) (split lX) X
    /\ int_ (strip lN) = Some N
    /\ records recs conns
    /\ ((tail = [] /\ rest = [])
        \/ exists e, tail = e :: rest /\ strip e = "E"%string)
    /\ M <= len s /\ M <= len X.

(** The world after the reader has consumed the input down to [rest]. *)
Definition consumed (w : world W) (rest : list string) (t : list subscript)
  : world W :=
  {| heap := heap w; stdin := rest; stdout := stdout w; trail := trail w ++ t |}.

End CaseVocabulary.

Section EntryVocabulary.

Context {W : Type} `{Weight W}.

(** The computation consumes a prefix of standard input. *)
Definition drops {A} (m : Py A) : Prop :=
  forall w : world W, exists k : nat, stdin (m w).1 = drop k (stdin w).

End EntryVocabulary.

(** ** The demo network and [main] *)

Set Warnings "-inexact-float".

(** The module-level lists [neurons] and [connections]; the decimal
    literals denote the nearest binary64 numbers, as in Python. *)
Definition demo_neurons : list (neuron float) :=
  [Neuron 1 1 0.5%float; Neuron 2 1 0.1%float; Neuron 3 1 0.6%float;
   Neuron 4 1 0.5%float; Neuron 5 0 0.4%float; Neuron 6 1 0.8%float;
   Neuron 7 1 0.2%float; Neuron 8 1 0.2%float; Neuron 9 0 0.4%float].

Definition demo_connections : list (edge float) :=
  [(4, 3, 0.8%float); (9, 6, 0.6%float); (8, 3, 0.4%float);
   (7, 9, 0.6%float); (4, 3, 1.0%float); (2, 6, 0.8%float);
   (1, 4, 0.8%float); (2, 1, 0.5%float); (4, 4, 0.1%float);
   (5, 5, 0.8%float); (3, 7, 0.5%float); (9, 8, 0.3%float);
   (8, 2, 0.6%float)].

Set Warnings "+inexact-float".

(** The lines [main] prints itself. *)
Inductive banner :=
| Before (states : list Z)            (* print("BEFORE:", ...) *)
| After (states : list Z)             (* print("AFTER :", ...) *)
| UnknownOption (arg : string)        (* print("Unknown option:", ...) *)
| Usage.                              (* print("Usage: ...") *)

Section Main.

Variable int_ : string -> option Z.
Variable float_ : string -> option float.

(** [bench_demo] draws a random graph and measures wall-clock time; it is a
    parameter of [main]. *)
Variable bench_demo : Py (W:=float) unit.

(** A function [main] calls: it prints no line of [main]'s own. *)
Definition run (m : Py (W:=float) unit) (w : world float)
  : world float * list banner * result unit :=
  let '(w', r) := m w in (w', [], r).

(** The demo, the [else] branch of [main]: its two lines surround a run on
    the module-level lists with [debug_every=None], which prints nothing. *)
Definition demo (w : world float) : world float * list banner * result unit :=
  let before := map state demo_neurons in
  match call demo_neurons (simulate_N demo_connections 100 None) w with
  | (w', Ok final_states) => (w', [Before before; After final_states], Ok tt)
  | (w', Raise e) => (w', [Before before], Raise e)
  end.

(** [main], given [sys.argv]: the world it leaves, the lines it prints
    itself, and its result. *)
Definition main (argv : list string) (w : world float)
  : world float * list banner * result unit :=
  match argv with
  | _ :: option :: _ =>
      if String.eqb option "--stdin" then run (solve_stdin int_ float_) w
      else if String.eqb option "--stdin-fast" then
        run (solve_stdin_fast int_ float_) w
      else if String.eqb option "--verify-stdin" then
        run (verify_stdin int_ float_) w
      else if String.eqb option "--bench-demo" then run bench_demo w
      else (w, [UnknownOption option; Usage], Ok tt)
  | _ => demo w
  end.

End Main.

(** A case of three neurons and three edges with integer weights, followed
    by a line of a further case. *)
Definition case_of_small_weights : list string :=
  ["3"; "1 1 0"; "0.5 0.5 0.5"; "3"; "1 3 1"; EmptyString; "2 3 5"; "1 3 -5";
   "E"; "4"]%string.

(** Two inactive neurons and an edge to a neuron that does not exist. *)
Definition idle_neurons : list (neuron float) :=
  [Neuron 1 0 0.5%float; Neuron 2 7 0.5%float].
Definition idle_edges : list (edge float) := [(1, 9, 1%float)].

(** A neuron whose threshold is not a number. *)
Definition nan_neurons : list (neuron float) :=
  [Neuron 1 1 0.5%float; Neuron 2 0 nan].
Definition nan_edges : list (edge float) := [(1, 2, 1%float)].

(** One source with edges to three destinations, one of them twice, and a
    second source. *)
Definition fan_edges : list (edge float) :=
  [(1, 3, 1%float); (1, 2, 2%float); (1, 3, 4%float); (2, 1, 1%float);
   (1, 1, 1%float)].

(** * Facts about the model *)

Section Basics.

Context {W : Type} `{Weight W}.
Implicit Types (w : world W) (ns : list (neuron W)) (t : list subscript).
Local Abbreviation heap_only := (heap_only (W:=W)).
Local Abbreviation reads := (reads (W:=W)).
Local Abbreviation framed := (framed (W:=W)).

Lemma evolves_id w : evolves w (heap w) [] [] = w.
Proof. destruct w; unfold evolves; simpl; by rewrite !app_nil_r. Qed.

Lemma evolves_evolves w h1 o1 t1 h2 o2 t2 :
  evolves (evolves w h1 o1 t1) h2 o2 t2 = evolves w h2 (o1 ++ o2) (t1 ++ t2).
Proof. unfold evolves; simpl; by rewrite !app_assoc. Qed.

Lemma log_evolves e w : log e w = evolves w (heap w) [] [e].
Proof. unfold log, evolves; simpl; by rewrite app_nil_r. Qed.

Lemma bind_ok {A B} (m : Py A) (k : A -> Py B) w w' x :
  m w = (w', Ok x) -> bind m k w = k x w'.
Proof. unfold bind; by intros ->. Qed.

Lemma bind_raise {A B} (m : Py A) (k : A -> Py B) w w' e :
  m w = (w', Raise e) -> bind m k w = (w', Raise e).
Proof. unfold bind; by intros ->. Qed.

Lemma position_in_range n i :
  0 <= i < Z.of_nat n -> position n i = Some (Z.to_nat i).
Proof.
  intros Hi; unfold position.
  destruct (0 <=? i) eqn:E1; [|lia].
  destruct (i <? Z.of_nat n) eqn:E2; [done|lia].
Qed.

Lemma position_lt n i k : position n i = Some k -> (k < n)%nat.
Proof.
  unfold position; intros Hp.
  destruct ((0 <=? i) && (i <? Z.of_nat n)) eqn:E1.
  - apply andb_true_iff in E1 as [? ?]; simplify_eq; lia.
  - destruct ((- Z.of_nat n <=? i) && (i <? 0)) eqn:E2; [|done].
    apply andb_true_iff in E2 as [? ?]; simplify_eq; lia.
Qed.

Lemma getitem_run {A} (l : list A) i x w :
  0 <= i -> l !! Z.to_nat i = Some x ->
  getitem l i w = (evolves w (heap w) [] [(length l, i)], Ok x).
Proof.
  intros Hi Hx; unfold getitem.
  rewrite log_evolves, position_in_range, Hx; [done|].
  apply lookup_lt_Some in Hx; lia.
Qed.

Lemma setitem_run {A} (l : list A) i x w :
  0 <= i < len l ->
  setitem l i x w =
    (evolves w (heap w) [] [(length l, i)], Ok (<[Z.to_nat i := x]> l)).
Proof.
  intros Hi; unfold setitem.
  by rewrite log_evolves, position_in_range.
Qed.

Lemma neuron_at_run i n w :
  0 <= i -> heap w !! Z.to_nat i = Some n ->
  neuron_at i w = (evolves w (heap w) [] [(length (heap w), i)], Ok n).
Proof.
  intros Hi Hn; unfold neuron_at, neurons, bind.
  by rewrite (getitem_run _ _ n).
Qed.

Lemma within_intro (M : nat) i : 0 <= i < Z.of_nat M -> within M (M, i).
Proof. by split. Qed.

Lemma active_in_range ns a na :
  1 <= a -> ns !! Z.to_nat (a - 1) = Some na -> active ns a = (state na =? 1).
Proof.
  intros Ha Hna; unfold active; rewrite Hna.
  destruct (1 <=? a) eqn:E; [done|lia].
Qed.

Lemma next_states_lookup ns (received : list W) j r n :
  received !! j = Some r -> ns !! j = Some n ->
  next_states ns received !! j = Some (fires r n).
Proof.
  intros Hr Hn; unfold next_states.
  by rewrite lookup_zip_with, Hr; simpl; rewrite Hn.
Qed.

Lemma next_states_length ns (received : list W) :
  length received = length ns -> length (next_states ns received) = length ns.
Proof. intros E; unfold next_states; rewrite length_zip_with; lia. Qed.

Lemma decide_loop ns (received : list W) :
  length received = length ns ->
  forall n k acc w,
    heap w = ns -> (k + n = length ns)%nat -> length acc = length ns ->
    exists t res,
      for_each (map Z.of_nat (seq k n)) acc (fun i new_states =>
        let* r := getitem received i in
        let* ni := neuron_at i in
        if w_ge r (threshold ni) then setitem new_states i 1
        else setitem new_states i 0) w
      = (evolves w ns [] t, Ok res)
      /\ Forall (within (length ns)) t
      /\ length res = length ns
      /\ (forall j, (j < k)%nat -> res !! j = acc !! j)
      /\ (forall j, (k <= j)%nat -> res !! j = next_states ns received !! j).
Proof.
  intros Hlen; induction n as [|n IH]; intros k acc w Hw Hk Hacc; simpl.
  - exists [], acc; unfold ret; subst ns; rewrite evolves_id.
    split; [done|]. split; [constructor|]. split; [done|]. split; [done|].
    intros j Hj; rewrite !lookup_ge_None_2; [done| |lia].
    rewrite next_states_length by done; lia.
  - destruct (lookup_lt_is_Some_2 received k) as [r Hr]; [lia|].
    destruct (lookup_lt_is_Some_2 ns k) as [nk Hnk]; [lia|].
    set (d := fires r nk).
    assert (Hbody :
      (let* r := getitem received (Z.of_nat k) in
       let* ni := neuron_at (Z.of_nat k) in
       if w_ge r (threshold ni) then setitem acc (Z.of_nat k) 1
       else setitem acc (Z.of_nat k) 0) w
      = (evolves w ns [] [(length ns, Z.of_nat k); (length ns, Z.of_nat k);
                          (length ns, Z.of_nat k)],
         Ok (<[k := d]> acc))).
    { erewrite bind_ok; [|apply getitem_run; [lia|by rewrite Nat2Z.id]].
      erewrite bind_ok;
        [|apply neuron_at_run; [lia|simpl; by rewrite Nat2Z.id, Hw]].
      simpl. rewrite Hw.
      assert (Hset : forall v, setitem acc (Z.of_nat k) v
                (evolves (evolves w ns [] [(length received, Z.of_nat k)]) ns []
                   [(length ns, Z.of_nat k)])
              = (evolves w ns [] [(length ns, Z.of_nat k);
                                  (length ns, Z.of_nat k);
                                  (length ns, Z.of_nat k)],
                 Ok (<[k := v]> acc))).
      { intros v; rewrite setitem_run by (unfold len; lia).
        simpl; rewrite !evolves_evolves, Nat2Z.id, Hlen, Hacc; done. }
      unfold d, fires; destruct (w_ge r (threshold nk)); apply Hset. }
    destruct (IH (S k) (<[k := d]> acc)
                (evolves w ns [] [(length ns, Z.of_nat k);
                                  (length ns, Z.of_nat k);
                                  (length ns, Z.of_nat k)]))
      as (t & res & Hrun & Ht & Hres & Hlow & Hhigh);
      [done|lia|by rewrite length_insert|].
    eexists _, res; split.
    { erewrite bind_ok by exact Hbody.
      rewrite Hrun, evolves_evolves; reflexivity. }
    split; [|split; [done|split]].
    + repeat (constructor; [apply within_intro; lia|]); done.
    + intros j Hj; rewrite Hlow by lia.
      apply list_lookup_insert_ne; lia.
    + intros j Hj; destruct (decide (j = k)) as [->|Hne].
      * rewrite Hlow by lia.
        rewrite list_lookup_insert_eq by lia.
        by rewrite (next_states_lookup _ _ _ r nk).
      * apply Hhigh; lia.
Qed.

Lemma decide_states_run w (received : list W) :
  length received = length (heap w) ->
  exists t,
    decide_states (len (heap w)) received w
    = (evolves w (heap w) [] t, Ok (next_states (heap w) received))
    /\ Forall (within (length (heap w))) t.
Proof.
  intros Hlen; unfold decide_states, range, len; rewrite Nat2Z.id.
  destruct (decide_loop (heap w) received Hlen (length (heap w)) 0%nat
              (replicate (length (heap w)) 0) w)
    as (t & res & Hrun & Ht & Hres & _ & Hhigh);
    [done|lia|by rewrite length_replicate|].
  exists t; split; [|done].
  rewrite Hrun; do 2 f_equal.
  apply list_eq; intros j; apply Hhigh; lia.
Qed.

Lemma store_state_run i s n w :
  0 <= i -> heap w !! Z.to_nat i = Some n ->
  store_state i s w
  = (evolves w (<[Z.to_nat i := set_state n s]> (heap w)) []
       [(length (heap w), i)], Ok tt).
Proof.
  intros Hi Hn; unfold store_state.
  erewrite bind_ok by (by apply neuron_at_run).
  simpl; rewrite position_in_range; [|apply lookup_lt_Some in Hn; lia].
  done.
Qed.

Lemma committed_lookup ns (new : list Z) j n s :
  ns !! j = Some n -> new !! j = Some s ->
  committed ns new !! j = Some (set_state n s).
Proof.
  intros Hn Hs; unfold committed.
  by rewrite lookup_zip_with, Hn; simpl; rewrite Hs.
Qed.

Lemma committed_length ns (new : list Z) :
  length new = length ns -> length (committed ns new) = length ns.
Proof. intros E; unfold committed; rewrite length_zip_with; lia. Qed.

Lemma commit_loop (new : list Z) :
  forall n k w,
    length new = length (heap w) -> (k + n = length (heap w))%nat ->
    exists t h,
      for_each (map Z.of_nat (seq k n)) tt (fun i _ =>
        let* s := getitem new i in store_state i s) w
      = (evolves w h [] t, Ok tt)
      /\ Forall (within (length (heap w))) t
      /\ length h = length (heap w)
      /\ (forall j, (j < k)%nat -> h !! j = heap w !! j)
      /\ (forall j, (k <= j)%nat -> h !! j = committed (heap w) new !! j).
Proof.
  induction n as [|n IH]; intros k w Hnew Hk; simpl.
  - exists [], (heap w); unfold ret; rewrite evolves_id.
    split; [done|]. split; [constructor|]. split; [done|]. split; [done|].
    intros j Hj; rewrite !lookup_ge_None_2; [done| |lia].
    rewrite committed_length by done; lia.
  - destruct (lookup_lt_is_Some_2 new k) as [s Hs]; [lia|].
    destruct (lookup_lt_is_Some_2 (heap w) k) as [nk Hnk]; [lia|].
    set (h1 := <[k := set_state nk s]> (heap w)).
    set (w1 := evolves w h1 []
                 [(length (heap w), Z.of_nat k); (length (heap w), Z.of_nat k)]).
    assert (Hbody :
      (let* s := getitem new (Z.of_nat k) in store_state (Z.of_nat k) s) w
      = (w1, Ok tt)).
    { erewrite bind_ok; [|apply getitem_run; [lia|by rewrite Nat2Z.id]].
      erewrite store_state_run; [|lia|simpl; by rewrite Nat2Z.id].
      simpl; rewrite evolves_evolves, Nat2Z.id, Hnew; done. }
    destruct (IH (S k) w1) as (t & h & Hrun & Ht & Hh & Hlow & Hhigh).
    { simpl; unfold h1; rewrite length_insert; done. }
    { simpl; unfold h1; rewrite length_insert; lia. }
    simpl in Ht, Hh, Hlow, Hhigh; unfold h1 in Ht, Hh, Hlow, Hhigh.
    rewrite length_insert in Ht, Hh.
    eexists _, h; split.
    { erewrite bind_ok by exact Hbody.
      rewrite Hrun; unfold w1; rewrite evolves_evolves; reflexivity. }
    split; [|split; [done|split]].
    + repeat (constructor; [apply within_intro; lia|]); done.
    + intros j Hj; rewrite Hlow by lia.
      apply list_lookup_insert_ne; lia.
    + intros j Hj; destruct (decide (j = k)) as [->|Hne].
      * rewrite Hlow by lia.
        rewrite list_lookup_insert_eq by lia.
        by rewrite (committed_lookup _ _ _ nk s).
      * rewrite Hhigh by lia.
        unfold committed; rewrite !lookup_zip_with.
        rewrite list_lookup_insert_ne by lia; done.
Qed.

Lemma commit_run w (new : list Z) :
  length new = length (heap w) ->
  exists t,
    commit (len (heap w)) new w
    = (evolves w (committed (heap w) new) [] t, Ok tt)
    /\ Forall (within (length (heap w))) t.
Proof.
  intros Hlen; unfold commit, range, len; rewrite Nat2Z.id.
  destruct (commit_loop new (length (heap w)) 0%nat w Hlen)
    as (t & h & Hrun & Ht & Hh & _ & Hhigh); [lia|].
  exists t; split; [|done].
  rewrite Hrun; do 2 f_equal.
  apply list_eq; intros j; apply Hhigh; lia.
Qed.

(** The tail of a tick: phases 3 and 4 and the returned list. *)
Lemma finish_run w (received : list W) :
  length received = length (heap w) ->
  exists t,
    (let* new_states := decide_states (len (heap w)) received in
     commit (len (heap w)) new_states;;;
     states) w
    = (evolves w (committed (heap w) (next_states (heap w) received)) [] t,
       Ok (next_states (heap w) received))
    /\ Forall (within (length (heap w))) t.
Proof.
  intros Hlen.
  destruct (decide_states_run w received Hlen) as (t3 & Hrun3 & Ht3).
  set (new := next_states (heap w) received) in *.
  assert (Hnew : length new = length (heap w))
    by (by apply next_states_length).
  destruct (commit_run (evolves w (heap w) [] t3) new) as (t4 & Hrun4 & Ht4);
    [done|].
  simpl in Hrun4, Ht4.
  exists (t3 ++ t4); split; [|by apply Forall_app].
  erewrite bind_ok by exact Hrun3.
  erewrite bind_ok by exact Hrun4.
  unfold states, neurons, bind, ret; simpl.
  rewrite evolves_evolves; simpl. do 2 f_equal.
  unfold committed, new, next_states.
  apply list_eq; intros j.
  rewrite list_lookup_fmap, !lookup_zip_with.
  destruct (heap w !! j) as [n|] eqn:En; simpl.
  - destruct (received !! j) as [r|] eqn:Er; simpl.
    + done.
    + apply lookup_ge_None in Er. apply lookup_lt_Some in En. lia.
  - by destruct (received !! j).
Qed.
End Basics.

Section Compositional.

Context {W : Type} `{Weight W}.
Implicit Types (w : world W) (ns : list (neuron W)) (t : list subscript).
Local Abbreviation heap_only := (heap_only (W:=W)).
Local Abbreviation reads := (reads (W:=W)).
Local Abbreviation framed := (framed (W:=W)).

Lemma heap_only_ret {A} (x : A) : heap_only (ret x).
Proof. by intros w1 w2 E. Qed.

Lemma heap_only_raise {A} e : heap_only (@raise W A e).
Proof. by intros w1 w2 E. Qed.

Lemma heap_only_bind {A B} (m : Py A) (k : A -> Py B) :
  heap_only m -> (forall x, heap_only (k x)) -> heap_only (bind m k).
Proof.
  intros Hm Hk w1 w2 E; unfold bind.
  destruct (Hm w1 w2 E) as [E1 E2].
  destruct (m w1) as [w1' r1], (m w2) as [w2' r2]; simpl in *; subst r2.
  destruct r1; [by apply Hk|done].
Qed.

Lemma heap_only_for_each {A S} (xs : list A) (body : A -> S -> Py S) :
  (forall x s, heap_only (body x s)) -> forall s, heap_only (for_each xs s body).
Proof.
  intros Hb; induction xs as [|x xs IH]; intros s; simpl.
  - apply heap_only_ret.
  - apply heap_only_bind; [apply Hb|apply IH].
Qed.

Lemma heap_only_getitem {A} (l : list A) i : heap_only (@getitem W A l i).
Proof. intros w1 w2 E; unfold getitem; simpl; done. Qed.

Lemma heap_only_setitem {A} (l : list A) i x : heap_only (@setitem W A l i x).
Proof. intros w1 w2 E; unfold setitem; simpl; done. Qed.

Lemma heap_only_neurons : heap_only (@neurons W).
Proof. intros w1 w2 E; unfold neurons; simpl; by rewrite E. Qed.

Lemma heap_only_len_neurons : heap_only (@len_neurons W).
Proof. intros w1 w2 E; unfold len_neurons; simpl; by rewrite E. Qed.

Lemma heap_only_print o : heap_only (@print W o).
Proof. intros w1 w2 E; unfold print; simpl; done. Qed.

Lemma heap_only_store_state i s : heap_only (@store_state W i s).
Proof.
  apply heap_only_bind.
  - apply heap_only_bind; [apply heap_only_neurons|intros; apply heap_only_getitem].
  - intros n w1 w2 E; rewrite E.
    destruct (position _ _); simpl; by rewrite ?E.
Qed.

Lemma reads_ret {A} (x : A) : reads (ret x).
Proof. intros w; exists []; simpl; by rewrite evolves_id. Qed.

Lemma reads_raise {A} e : reads (@raise W A e).
Proof. intros w; exists []; simpl; by rewrite evolves_id. Qed.

Lemma reads_bind {A B} (m : Py A) (k : A -> Py B) :
  reads m -> (forall x, reads (k x)) -> reads (bind m k).
Proof.
  intros Hm Hk w; unfold bind.
  destruct (Hm w) as [t1 E1].
  destruct (m w) as [w1 r1]; simpl in *; subst w1.
  destruct r1 as [x|e]; [|by exists t1].
  destruct (Hk x (evolves w (heap w) [] t1)) as [t2 E2].
  exists (t1 ++ t2); rewrite E2; simpl; by rewrite evolves_evolves.
Qed.

Lemma reads_for_each {A S} (xs : list A) (body : A -> S -> Py S) :
  (forall x s, reads (body x s)) -> forall s, reads (for_each xs s body).
Proof.
  intros Hb; induction xs as [|x xs IH]; intros s; simpl.
  - apply reads_ret.
  - apply reads_bind; [apply Hb|apply IH].
Qed.

Lemma reads_getitem {A} (l : list A) i : reads (@getitem W A l i).
Proof. intros w; eexists; simpl; apply log_evolves. Qed.

Lemma reads_setitem {A} (l : list A) i x : reads (@setitem W A l i x).
Proof. intros w; eexists; simpl; apply log_evolves. Qed.

Lemma reads_neurons : reads (@neurons W).
Proof. intros w; exists []; simpl; by rewrite evolves_id. Qed.

Lemma reads_len_neurons : reads (@len_neurons W).
Proof. intros w; exists []; simpl; by rewrite evolves_id. Qed.

Lemma same_frame_refl ns : same_frame ns ns.
Proof. by split. Qed.

Lemma same_frame_trans ns1 ns2 ns3 :
  same_frame ns1 ns2 -> same_frame ns2 ns3 -> same_frame ns1 ns3.
Proof. intros [E1 E2] [E3 E4]; split; congruence. Qed.

Lemma framed_of_reads {A} (m : Py A) : reads m -> framed m.
Proof. intros Hm w; destruct (Hm w) as [t ->]; apply same_frame_refl. Qed.

Lemma framed_bind {A B} (m : Py A) (k : A -> Py B) :
  framed m -> (forall x, framed (k x)) -> framed (bind m k).
Proof.
  intros Hm Hk w; unfold bind.
  pose proof (Hm w) as H1.
  destruct (m w) as [w1 r1]; simpl in *.
  destruct r1 as [x|e]; [|done].
  eapply same_frame_trans; [exact H1|apply Hk].
Qed.

Lemma framed_for_each {A S} (xs : list A) (body : A -> S -> Py S) :
  (forall x s, framed (body x s)) -> forall s, framed (for_each xs s body).
Proof.
  intros Hb; induction xs as [|x xs IH]; intros s; simpl.
  - apply framed_of_reads, reads_ret.
  - apply framed_bind; [apply Hb|apply IH].
Qed.

Lemma framed_print o : framed (@print W o).
Proof. intros w; apply same_frame_refl. Qed.

Lemma same_frame_insert ns k n s :
  ns !! k = Some n -> same_frame ns (<[k := set_state n s]> ns).
Proof.
  intros Hn; split; rewrite list_fmap_insert; simpl;
    apply list_insert_id; by rewrite list_lookup_fmap, Hn.
Qed.

Lemma framed_store_state i s : framed (@store_state W i s).
Proof.
  intros w; unfold store_state, neuron_at, neurons, bind, getitem; simpl.
  destruct (position (length (heap w)) i) as [k|] eqn:Ek; simpl;
    [|apply same_frame_refl].
  destruct (heap w !! k) as [n|] eqn:En; simpl; [|apply same_frame_refl].
  by apply same_frame_insert.
Qed.
End Compositional.

Create HintDb py discriminated.

#[export] Hint Resolve heap_only_ret heap_only_raise heap_only_getitem
  heap_only_setitem heap_only_neurons heap_only_len_neurons heap_only_print
  heap_only_store_state
  reads_ret reads_raise reads_getitem reads_setitem reads_neurons
  reads_len_neurons
  framed_print framed_store_state framed_of_reads : py.

(** Decomposes a goal about a composite computation along its structure. *)
Ltac structural :=
  repeat first
    [ progress intros
    | solve [eauto with py]
    | match goal with |- context [match ?p with (_, _) => _ end] =>
        is_var p; destruct p end
    | apply heap_only_bind
    | apply reads_bind
    | apply framed_bind
    | apply heap_only_for_each
    | apply reads_for_each
    | apply framed_for_each
    | match goal with |- context [if ?c then _ else _] => destruct c end
    | match goal with |- context [match ?o with Some _ => _ | None => _ end] =>
        destruct o end
    | progress simpl ].


Section Ticks.

Context {W : Type} `{Weight W}.
Implicit Types (w : world W) (ns : list (neuron W)) (t : list subscript).
Local Abbreviation heap_only := (heap_only (W:=W)).
Local Abbreviation reads := (reads (W:=W)).
Local Abbreviation framed := (framed (W:=W)).

Lemma heap_only_send (conns : list (edge W)) r : heap_only (send conns r).
Proof.
  unfold send, neuron_at, iadd.
  structural.
Qed.

Lemma reads_send (conns : list (edge W)) r : reads (send conns r).
Proof. unfold send, neuron_at, iadd; structural. Qed.

Lemma reads_decide_states M (r : list W) : reads (decide_states M r).
Proof. unfold decide_states, neuron_at; structural. Qed.

Lemma heap_only_decide_states M (r : list W) : heap_only (decide_states M r).
Proof. unfold decide_states, neuron_at; structural. Qed.

Lemma heap_only_commit M new : heap_only (@commit W M new).
Proof. unfold commit; structural. Qed.

Lemma framed_commit M new : framed (@commit W M new).
Proof. unfold commit; structural. Qed.

Lemma heap_only_states : heap_only (@states W).
Proof. unfold states; structural. Qed.

Lemma reads_states : reads (@states W).
Proof. unfold states; structural. Qed.

Lemma bump_length (r : list W) i x : length (bump r i x) = length r.
Proof. unfold bump; destruct (r !! _); [apply length_insert|done]. Qed.

Lemma deliver_length ns (conns : list (edge W)) r :
  length (deliver ns conns r) = length r.
Proof.
  revert r; induction conns as [|[[a b] x] conns IH]; intros r; simpl; [done|].
  unfold deliver in *; simpl; rewrite IH.
  destruct (active ns a); [apply bump_length|done].
Qed.

Lemma iadd_run (r : list W) i x w :
  0 <= i < len r ->
  iadd r i x w
  = (evolves w (heap w) [] [(length r, i); (length r, i)], Ok (bump r i x)).
Proof.
  intros Hi; unfold iadd, bump.
  destruct (lookup_lt_is_Some_2 r (Z.to_nat i)) as [y Hy];
    [unfold len in Hi; lia|].
  erewrite bind_ok by (apply getitem_run; [lia|exact Hy]).
  rewrite setitem_run by done.
  simpl; by rewrite evolves_evolves, Hy.
Qed.

(** Over in-range edges phase 2 of [steps] cannot fail. *)
Lemma send_valid (conns : list (edge W)) :
  forall received w,
    length received = length (heap w) ->
    valid_edges (len (heap w)) conns ->
    exists t,
      send conns received w
      = (evolves w (heap w) [] t, Ok (deliver (heap w) conns received))
      /\ Forall (within (length (heap w))) t.
Proof.
  induction conns as [|[[a b] x] conns IH]; intros received w Hlen Hv.
  - exists []; unfold send, ret; simpl; by rewrite evolves_id.
  - apply Forall_cons in Hv as [[Ha Hb] Hv]; unfold len in Ha, Hb.
    destruct (lookup_lt_is_Some_2 (heap w) (Z.to_nat (a - 1))) as [na Hna];
      [lia|].
    set (w1 := evolves w (heap w) [] [(length (heap w), a - 1)]).
    assert (Hsrc : neuron_at (a - 1) w = (w1, Ok na))
      by (apply neuron_at_run; [lia|done]).
    unfold send in *; simpl.
    unfold bind at 1; rewrite (bind_ok _ _ _ _ _ Hsrc).
    unfold deliver; simpl; rewrite (active_in_range (heap w) a na) by (lia || done).
    destruct (state na =? 1).
    + rewrite iadd_run by (unfold len; lia).
      set (w2 := evolves w1 _ _ _).
      destruct (IH (bump received (b - 1) x) w2) as (t & Hrun & Ht).
      { by rewrite bump_length. }
      { done. }
      simpl in Hrun, Ht. rewrite Hrun.
      eexists; split.
      { unfold w2, w1; simpl; rewrite !evolves_evolves; reflexivity. }
      rewrite Hlen.
      repeat (apply Forall_cons; split; [apply within_intro; lia|]); done.
    + unfold ret at 1; simpl. destruct (IH received w1) as (t & Hrun & Ht); [done..|].
      simpl in Hrun, Ht. rewrite Hrun.
      eexists; split.
      { unfold w1; rewrite !evolves_evolves; reflexivity. }
      apply Forall_cons; split; [apply within_intro; lia|done].
Qed.

(** Whatever the edges, phase 2 keeps the length of the accumulator. *)
Lemma send_length (conns : list (edge W)) :
  forall received w w' r,
    send conns received w = (w', Ok r) -> length r = length received.
Proof.
  induction conns as [|[[a b] x] conns IH]; intros received w w' r.
  - unfold send; simpl; unfold ret; congruence.
  - unfold send; simpl; unfold bind at 1.
    destruct (bind _ _ w) as [w1 [r1|e]] eqn:E1; [|done].
    intros Hrun; apply IH in Hrun; rewrite Hrun.
    unfold bind in E1.
    destruct (neuron_at (a - 1) w) as [w0 [na|e]]; [|done].
    destruct (state na =? 1); [|unfold ret in E1; congruence].
    unfold iadd, bind, getitem, setitem in E1; simpl in E1.
    destruct (position (length received) (b - 1)) as [k|]; [|done].
    destruct (received !! k); [|done].
    simplify_eq; by rewrite length_insert.
Qed.

Lemma steps_is_tick (conns : list (edge W)) debug :
  steps conns debug = tick_of (send conns) debug.
Proof. reflexivity. Qed.

Lemma step_fast_is_tick (oe : list (list (Z * W))) :
  step_fast oe = tick_of (send_fast oe) false.
Proof. reflexivity. Qed.

(** One tick, whatever the accumulation phase does: it fails in that phase
    and leaves the neurons as they were, or it commits the outcome of the
    threshold rule. *)
Lemma tick_of_run (phase : list W -> Py (list W)) debug w :
  (forall r, reads (phase r)) ->
  (forall r w w' r', phase r w = (w', Ok r') -> length r' = length r) ->
  match phase (replicate (length (heap w)) w_zero) w with
  | (w1, Ok received) =>
      length received = length (heap w) /\
      exists t,
        tick_of phase debug w
        = (evolves w1
             (committed (heap w) (next_states (heap w) received))
             (if debug then [Received received] else []) t,
           Ok (next_states (heap w) received))
        /\ Forall (within (length (heap w))) t
  | (w1, Raise e) => tick_of phase debug w = (w1, Raise e)
  end.
Proof.
  intros Hreads Hkeeps.
  destruct (phase _ w) as [w1 [received|e]] eqn:Ephase.
  - pose proof (Hkeeps _ _ _ _ Ephase) as Hlen.
    rewrite length_replicate in Hlen; split; [done|].
    destruct (Hreads (replicate (length (heap w)) w_zero) w) as [t2 Hw1].
    rewrite Ephase in Hw1; simpl in Hw1.
    set (o := if debug then [Received received] else []).
    set (w2 := evolves w1 (heap w) o []).
    destruct (finish_run w2 received) as (t & Hrun & Ht); [done|].
    exists t; split; [|done].
    unfold tick_of, len_neurons; unfold bind at 1; unfold len.
    rewrite Nat2Z.id.
    erewrite bind_ok by exact Ephase.
    assert (Hprint : (if debug then print (Received received) else ret tt) w1
                     = (w2, Ok tt)).
    { unfold w2, o; subst w1; destruct debug; unfold print, ret, evolves;
        simpl; rewrite ?app_nil_r; done. }
    erewrite bind_ok by exact Hprint.
    assert (Hheap : heap w2 = heap w) by done.
    unfold len in Hrun; rewrite Hheap in Hrun.
    rewrite Hrun. unfold w2; subst w1; rewrite !evolves_evolves; simpl.
    by rewrite !app_nil_r.
  - unfold tick_of, len_neurons; unfold bind at 1; unfold len.
    rewrite Nat2Z.id.
    by erewrite bind_raise by exact Ephase.
Qed.

Lemma aggregate_step_length (oe : list (dict W)) e :
  length (aggregate_step oe e) = length oe.
Proof.
  destruct e as [[a b] x]; unfold aggregate_step.
  destruct (position _ _); [|done].
  destruct (oe !! _); [apply length_insert|done].
Qed.

Lemma aggregate_length (conns : list (edge W)) oe :
  length (aggregate conns oe) = length oe.
Proof.
  revert oe; induction conns as [|e conns IH]; intros oe; [done|].
  unfold aggregate in *; simpl; by rewrite IH, aggregate_step_length.
Qed.

Lemma position_wraps n i :
  - Z.of_nat n <= i < Z.of_nat n -> exists k, position n i = Some k.
Proof.
  intros Hi; unfold position.
  destruct ((0 <=? i) && (i <? Z.of_nat n)) eqn:E1; [by eexists|].
  destruct ((- Z.of_nat n <=? i) && (i <? 0)) eqn:E2; [by eexists|].
  apply andb_false_iff in E1, E2; lia.
Qed.

(** The loop of [build_out_edges] succeeds as soon as every source index is a
    valid subscript; it evaluates one subscript per edge. *)
Lemma build_loop_run (conns : list (edge W)) :
  forall (oe : list (dict W)) w,
    sources_indexable (len oe) conns ->
    for_each conns oe (fun '(a, b, x) out_edges =>
      let u := a - 1 in
      let v := b - 1 in
      let* d := getitem out_edges u in
      ret (mutated out_edges u (dict_iadd d v x))) w
    = (evolves w (heap w) []
         (map (fun '(a, _, _) => (length oe, a - 1)) conns),
       Ok (aggregate conns oe)).
Proof.
  induction conns as [|[[a b] x] conns IH]; intros oe w Hsrc.
  - simpl; unfold ret; by rewrite evolves_id.
  - apply Forall_cons in Hsrc as [Ha Hsrc].
    destruct (position_wraps (length oe) (a - 1)) as [k Hk]; [done|].
    destruct (lookup_lt_is_Some_2 oe k) as [d Hd];
      [by eapply position_lt|].
    simpl. unfold bind at 1.
    assert (Hget : getitem oe (a - 1) w
                   = (evolves w (heap w) [] [(length oe, a - 1)], Ok d)).
    { unfold getitem; by rewrite log_evolves, Hk, Hd. }
    rewrite (bind_ok _ _ _ _ _ Hget); unfold ret at 1.
    assert (Hstep : mutated oe (a - 1) (dict_iadd d (b - 1) x)
                    = aggregate_step oe (a, b, x)).
    { unfold mutated, aggregate_step; by rewrite Hk, Hd. }
    rewrite Hstep, IH.
    + rewrite evolves_evolves, aggregate_step_length; done.
    + unfold len; by rewrite aggregate_step_length.
Qed.

Lemma build_out_edges_run M (conns : list (edge W)) w :
  sources_indexable M conns ->
  build_out_edges M conns w
  = (evolves w (heap w) [] (map (fun '(a, _, _) => (Z.to_nat M, a - 1)) conns),
     Ok (adjacency M conns)).
Proof.
  intros Hsrc; unfold build_out_edges.
  erewrite bind_ok.
  2:{ apply build_loop_run. unfold len; rewrite length_replicate.
      eapply Forall_impl; [exact Hsrc|]. intros [[a b] x]; lia. }
  unfold ret, adjacency, items; rewrite length_replicate.
  by rewrite list_fmap_id.
Qed.

Lemma reads_build_out_edges M (conns : list (edge W)) :
  reads (build_out_edges M conns).
Proof. unfold build_out_edges; structural. Qed.

Lemma heap_only_build_out_edges M (conns : list (edge W)) :
  heap_only (build_out_edges M conns).
Proof. unfold build_out_edges; structural. Qed.

(** ** [step_fast] *)

Lemma pour_length (row : list (Z * W)) r : length (pour row r) = length r.
Proof.
  revert r; induction row as [|[v x] row IH]; intros r; [done|].
  unfold pour in *; simpl; by rewrite IH, bump_length.
Qed.

Lemma pour_run (row : list (Z * W)) :
  forall r w,
    Forall (fun '(v, _) => 0 <= v < len r) row ->
    exists t,
      for_each row r (fun '(v, x) received => iadd received v x) w
      = (evolves w (heap w) [] t, Ok (pour row r))
      /\ Forall (within (length r)) t.
Proof.
  induction row as [|[v x] row IH]; intros r w Hrow.
  - exists []; simpl; unfold ret; by rewrite evolves_id.
  - apply Forall_cons in Hrow as [Hv Hrow].
    simpl. erewrite bind_ok by (by apply iadd_run).
    destruct (IH (bump r v x)
                (evolves w (heap w) [] [(length r, v); (length r, v)]))
      as (t & Hrun & Ht).
    { unfold len in *; by rewrite bump_length. }
    simpl in Hrun; rewrite bump_length in Ht.
    eexists; split.
    { unfold pour at 1; simpl. rewrite Hrun, evolves_evolves; reflexivity. }
    unfold len in Hv.
    repeat (apply Forall_cons; split; [apply within_intro; lia|]); done.
Qed.

Lemma send_fast_loop (oe : list (list (Z * W))) (M : nat) :
  length oe = M -> rows_within M oe ->
  forall (es : list (Z * neuron W)) r w,
    length r = M ->
    Forall (fun '(u, _) => 0 <= u < Z.of_nat M) es ->
    exists t,
      for_each es r (fun '(u, nu) received =>
        if state nu =? 1 then
          let* row := getitem oe u in
          for_each row received (fun '(v, x) received => iadd received v x)
        else ret received) w
      = (evolves w (heap w) [] t,
         Ok (fold_left (fun r '(u, nu) =>
                          if state nu =? 1 then
                            match oe !! Z.to_nat u with
                            | Some row => pour row r
                            | None => r
                            end
                          else r) es r))
      /\ Forall (within M) t.
Proof.
  intros Hoe Hrows; induction es as [|[u nu] es IH]; intros r w Hr Hes.
  - exists []; simpl; unfold ret; by rewrite evolves_id.
  - apply Forall_cons in Hes as [Hu Hes]; simpl.
    destruct (state nu =? 1).
    + destruct (lookup_lt_is_Some_2 oe (Z.to_nat u)) as [row Hrow]; [lia|].
      rewrite Hrow.
      assert (Hin : Forall (fun '(v, _) => 0 <= v < len r) row).
      { unfold len; rewrite Hr.
        eapply Forall_lookup_1 in Hrows; [exact Hrows|exact Hrow]. }
      set (w1 := evolves w (heap w) [] [(length oe, u)]).
      destruct (pour_run row r w1 Hin) as (t1 & Hrun1 & Ht1).
      destruct (IH (pour row r) (evolves w1 (heap w1) [] t1))
        as (t2 & Hrun2 & Ht2); [by rewrite pour_length|done|].
      eexists; split.
      { unfold bind at 1.
        erewrite (bind_ok (getitem oe u)) by (apply getitem_run; [lia|done]).
        fold w1; rewrite Hrun1, Hrun2.
        unfold w1; simpl; rewrite !evolves_evolves; reflexivity. }
      apply Forall_cons; split; [rewrite Hoe; apply within_intro; lia|].
      rewrite Hr in Ht1; by apply Forall_app.
    + unfold bind at 1, ret at 1. by apply IH.
Qed.

Lemma enumerate_within {A} (l : list A) :
  Forall (fun '(u, _) => 0 <= u < Z.of_nat (length l)) (enumerate l).
Proof.
  apply Forall_lookup; intros k [u x]; unfold enumerate.
  rewrite list_lookup_imap.
  destruct (l !! k) eqn:E; simpl; [|done].
  intros [= <- <-]; apply lookup_lt_Some in E; lia.
Qed.

(** Over a well-formed adjacency phase 1 of [step_fast] cannot fail. *)
Lemma send_fast_run (oe : list (list (Z * W))) r w :
  length oe = length (heap w) -> rows_within (length (heap w)) oe ->
  length r = length (heap w) ->
  exists t,
    send_fast oe r w
    = (evolves w (heap w) [] t, Ok (deliver_fast (heap w) oe r))
    /\ Forall (within (length (heap w))) t.
Proof.
  intros Hoe Hrows Hr; unfold send_fast, neurons; unfold bind at 1.
  apply (send_fast_loop oe (length (heap w)) Hoe Hrows); [done|].
  apply enumerate_within.
Qed.

Lemma reads_send_fast (oe : list (list (Z * W))) r : reads (send_fast oe r).
Proof. unfold send_fast, iadd; structural. Qed.

Lemma heap_only_send_fast (oe : list (list (Z * W))) r :
  heap_only (send_fast oe r).
Proof. unfold send_fast, iadd; structural. Qed.

(** A property of the loop state that every successful iteration keeps. *)
Lemma for_each_keeps {A S} (P : S -> Prop) (xs : list A) (body : A -> S -> Py S) :
  (forall x s w w' s', body x s w = (w', Ok s') -> P s -> P s') ->
  forall s w w' s', for_each xs s body w = (w', Ok s') -> P s -> P s'.
Proof.
  intros Hbody; induction xs as [|x xs IH]; intros s w w' s'; simpl.
  - unfold ret; intros [= <- <-]; done.
  - unfold bind; destruct (body x s w) as [w1 [s1|e]] eqn:E1; [|done].
    intros Hrun Hs; eapply IH; [exact Hrun|]. by eapply Hbody.
Qed.

Lemma iadd_length (r : list W) i x w w' r' :
  iadd r i x w = (w', Ok r') -> length r' = length r.
Proof.
  unfold iadd, bind, getitem, setitem; simpl.
  destruct (position (length r) i) as [k|]; [|done].
  destruct (r !! k); [|done].
  intros [= <- <-]; by rewrite length_insert.
Qed.

Lemma send_fast_length (oe : list (list (Z * W))) r w w' r' :
  send_fast oe r w = (w', Ok r') -> length r' = length r.
Proof.
  unfold send_fast, neurons; unfold bind at 1.
  intros Hrun.
  eapply (for_each_keeps (fun s => length s = length r)); [|exact Hrun|done].
  intros [u nu] s w0 w0' s' Hbody Hs.
  destruct (state nu =? 1); [|unfold ret in Hbody; congruence].
  unfold bind in Hbody.
  destruct (getitem oe u w0) as [w1 [row|e]]; [|done].
  eapply (for_each_keeps (fun s' => length s' = length r)); [|exact Hbody|done].
  intros [v x] s1 w2 w2' s2 Hadd Hs1.
  apply iadd_length in Hadd; congruence.
Qed.

Lemma steps_run (conns : list (edge W)) debug w :
  match send conns (replicate (length (heap w)) w_zero) w with
  | (w1, Ok received) =>
      length received = length (heap w) /\
      exists t,
        steps conns debug w
        = (evolves w1
             (committed (heap w) (next_states (heap w) received))
             (if debug then [Received received] else []) t,
           Ok (next_states (heap w) received))
        /\ Forall (within (length (heap w))) t
  | (w1, Raise e) => steps conns debug w = (w1, Raise e)
  end.
Proof.
  rewrite steps_is_tick; apply tick_of_run.
  - apply reads_send.
  - apply send_length.
Qed.

Lemma step_fast_run (oe : list (list (Z * W))) w :
  match send_fast oe (replicate (length (heap w)) w_zero) w with
  | (w1, Ok received) =>
      length received = length (heap w) /\
      exists t,
        step_fast oe w
        = (evolves w1
             (committed (heap w) (next_states (heap w) received)) [] t,
           Ok (next_states (heap w) received))
        /\ Forall (within (length (heap w))) t
  | (w1, Raise e) => step_fast oe w = (w1, Raise e)
  end.
Proof.
  rewrite step_fast_is_tick.
  apply (tick_of_run (send_fast oe) false).
  - apply reads_send_fast.
  - apply send_fast_length.
Qed.

Lemma heap_only_tick_of (phase : list W -> Py (list W)) debug :
  (forall r, heap_only (phase r)) -> heap_only (tick_of phase debug).
Proof.
  intros Hphase; unfold tick_of.
  pose proof heap_only_decide_states. pose proof heap_only_commit.
  pose proof heap_only_states.
  structural.
Qed.

Lemma framed_tick_of (phase : list W -> Py (list W)) debug :
  (forall r, reads (phase r)) -> framed (tick_of phase debug).
Proof.
  intros Hphase; unfold tick_of.
  pose proof reads_decide_states. pose proof framed_commit.
  pose proof reads_states.
  structural.
Qed.

Lemma heap_only_steps (conns : list (edge W)) debug :
  heap_only (steps conns debug).
Proof. rewrite steps_is_tick; apply heap_only_tick_of, heap_only_send. Qed.

Lemma heap_only_step_fast (oe : list (list (Z * W))) : heap_only (step_fast oe).
Proof.
  rewrite step_fast_is_tick; apply heap_only_tick_of, heap_only_send_fast.
Qed.

Lemma framed_steps (conns : list (edge W)) debug : framed (steps conns debug).
Proof. rewrite steps_is_tick; apply framed_tick_of, reads_send. Qed.

Lemma framed_step_fast (oe : list (list (Z * W))) : framed (step_fast oe).
Proof. rewrite step_fast_is_tick; apply framed_tick_of, reads_send_fast. Qed.

Lemma framed_snapshot d (tk : Z) : framed (snapshot (W:=W) d tk).
Proof.
  unfold snapshot; pose proof reads_states.
  destruct d as [k|]; structural.
Qed.

Lemma heap_only_snapshot d (tk : Z) : heap_only (snapshot (W:=W) d tk).
Proof.
  unfold snapshot; pose proof heap_only_states.
  destruct d as [k|]; structural.
Qed.

Lemma framed_simulate_N (conns : list (edge W)) N d :
  framed (simulate_N conns N d).
Proof.
  unfold simulate_N.
  pose proof framed_steps. pose proof framed_snapshot. pose proof reads_states.
  structural.
Qed.

Lemma framed_simulate_fast (conns : list (edge W)) N d :
  framed (simulate_fast conns N d).
Proof.
  unfold simulate_fast.
  pose proof framed_step_fast. pose proof framed_snapshot.
  pose proof reads_states. pose proof reads_build_out_edges.
  structural.
Qed.



Lemma committed_states ns (new : list Z) :
  length new = length ns -> map state (committed ns new) = new.
Proof.
  intros Hlen; apply list_eq; intros j; unfold committed.
  rewrite list_lookup_fmap, lookup_zip_with.
  destruct (new !! j) as [s|] eqn:Es.
  - destruct (lookup_lt_is_Some_2 ns j) as [n ->];
      [apply lookup_lt_Some in Es; lia|done].
  - by destruct (ns !! j).
Qed.





(** A snapshot never touches the neurons. *)
Lemma snapshot_heap d (tk : Z) w : heap (snapshot d tk w).1 = heap w.
Proof.
  unfold snapshot; destruct d as [k|]; [|done].
  destruct (k =? 0); [done|].
  destruct (tk mod k =? 0); done.
Qed.

(** A snapshot with a usable period returns. *)
Lemma snapshot_ok d (tk : Z) w :
  d <> Some 0 -> (snapshot d tk w).2 = Ok tt.
Proof.
  intros Hd; unfold snapshot; destruct d as [k|]; [|done].
  destruct (k =? 0) eqn:Ek; [apply Z.eqb_eq in Ek; congruence|].
  destruct (tk mod k =? 0); done.
Qed.





(** C5. *)

Lemma simulate_N_zero (conns : list (edge W)) d w :
  simulate_N conns 0 d w = (w, Ok (map state (heap w))).
Proof. reflexivity. Qed.

Lemma simulate_fast_zero (conns : list (edge W)) d w :
  sources_indexable (len (heap w)) conns ->
  exists t,
    simulate_fast conns 0 d w
    = (evolves w (heap w) [] t, Ok (map state (heap w))).
Proof.
  intros Hsrc; eexists.
  unfold simulate_fast, len_neurons; unfold bind at 1 2.
  rewrite build_out_edges_run by done.
  reflexivity.
Qed.

(** C8. *)

Lemma for_each_cons {A S} (x : A) xs (s : S) (body : A -> S -> Py S) w :
  for_each (x :: xs) s body w
  = match body x s w with
    | (w', Ok s') => for_each xs s' body w'
    | (w', Raise e) => (w', Raise e)
    end.
Proof. reflexivity. Qed.

Lemma then_eval {A B} (m : Py A) (k : Py B) w :
  (m;;; k) w
  = match m w with
    | (w', Ok _) => k w'
    | (w', Raise e) => (w', Raise e)
    end.
Proof. reflexivity. Qed.

Lemma run_loop_snapshots (step : Py (list Z)) d1 d2 :
  heap_only step -> d1 <> Some 0 -> d2 <> Some 0 ->
  forall (ts : list Z) w1 w2,
    heap w1 = heap w2 ->
    let out1 := for_each ts tt (fun tk _ => step;;; snapshot d1 tk) w1 in
    let out2 := for_each ts tt (fun tk _ => step;;; snapshot d2 tk) w2 in
    heap out1.1 = heap out2.1 /\ out1.2 = out2.2.
Proof.
  intros Hstep Hd1 Hd2; induction ts as [|tk ts IH]; intros w1 w2 Hw.
  - done.
  - cbv zeta in *. rewrite !for_each_cons, !then_eval.
    destruct (Hstep w1 w2 Hw) as [Hheap Hres].
    destruct (step w1) as [w1' r1], (step w2) as [w2' r2]; simpl in Hheap, Hres.
    subst r2; destruct r1 as [returned|e]; [|done].
    pose proof (snapshot_heap d1 tk w1') as Hh1.
    pose proof (snapshot_heap d2 tk w2') as Hh2.
    pose proof (snapshot_ok d1 tk w1' Hd1) as Ho1.
    pose proof (snapshot_ok d2 tk w2' Hd2) as Ho2.
    destruct (snapshot d1 tk w1') as [w1'' r1'].
    destruct (snapshot d2 tk w2') as [w2'' r2'].
    simpl in Hh1, Hh2, Ho1, Ho2; subst r1' r2'.
    apply IH; congruence.
Qed.

Lemma run_snapshots (step : Py (list Z)) N d1 d2 w1 w2 :
  heap_only step -> d1 <> Some 0 -> d2 <> Some 0 -> heap w1 = heap w2 ->
  let out1 := (for_each (range1 N) tt (fun tk _ => step;;; snapshot d1 tk);;;
               states) w1 in
  let out2 := (for_each (range1 N) tt (fun tk _ => step;;; snapshot d2 tk);;;
               states) w2 in
  heap out1.1 = heap out2.1 /\ out1.2 = out2.2.
Proof.
  intros Hstep Hd1 Hd2 Hw; simpl; unfold bind.
  destruct (run_loop_snapshots step d1 d2 Hstep Hd1 Hd2 (range1 N) w1 w2 Hw)
    as [Hheap Hres].
  destruct (for_each _ _ _ w1) as [w1' r1], (for_each _ _ _ w2) as [w2' r2].
  simpl in *; subst r2; destruct r1 as [[]|e]; [|done].
  unfold states, neurons, bind, ret; simpl; by rewrite Hheap.
Qed.
End Ticks.

Section Edges.

Context {W : Type} `{Weight W}.
Implicit Types (w : world W) (ns : list (neuron W)) (t : list subscript).
Local Abbreviation heap_only := (heap_only (W:=W)).
Local Abbreviation reads := (reads (W:=W)).
Local Abbreviation framed := (framed (W:=W)).

Lemma bump_lookup_eq (r : list W) (i : nat) y x :
  r !! i = Some y -> bump r (Z.of_nat i) x !! i = Some (w_add y x).
Proof.
  intros Hy; unfold bump; rewrite Nat2Z.id, Hy.
  apply list_lookup_insert_eq; by eapply lookup_lt_Some.
Qed.

Lemma bump_lookup_ne (r : list W) (i : nat) v x :
  0 <= v -> v <> Z.of_nat i -> bump r v x !! i = r !! i.
Proof.
  intros Hv Hne; unfold bump.
  destruct (r !! Z.to_nat v); [|done].
  apply list_lookup_insert_ne; lia.
Qed.

Lemma deliver_lookup ns (conns : list (edge W)) (i : nat) :
  Forall (fun '(_, b, _) => 1 <= b) conns ->
  forall r y,
    r !! i = Some y ->
    deliver ns conns r !! i
    = Some (fold_left w_add
              (map snd (List.filter
                          (fun '(a, b, _) => active ns a && (b - 1 =? Z.of_nat i))
                       conns)) y).
Proof.
  induction conns as [|[[a b] x] conns IH]; intros Hb r y Hy; [done|].
  apply Forall_cons in Hb as [Hb1 Hb].
  unfold deliver in *; simpl.
  destruct (active ns a); simpl.
  - destruct (b - 1 =? Z.of_nat i) eqn:E; simpl.
    + apply Z.eqb_eq in E; rewrite E.
      apply IH; [done|by apply bump_lookup_eq].
    + apply Z.eqb_neq in E.
      apply IH; [done|]. rewrite bump_lookup_ne; [done|lia|done].
  - by apply IH.
Qed.

Lemma next_states_rule ns (conns : list (edge W)) :
  Forall (fun '(_, b, _) => 1 <= b) conns ->
  next_states ns (deliver ns conns (replicate (length ns) w_zero))
  = threshold_rule ns conns.
Proof.
  intros Hb; apply list_eq; intros i.
  unfold next_states, threshold_rule.
  rewrite lookup_zip_with, list_lookup_imap.
  destruct (ns !! i) as [n|] eqn:En; simpl.
  - erewrite deliver_lookup; [done|done|].
    apply lookup_replicate_2; by eapply lookup_lt_Some.
  - by destruct (deliver _ _ _ !! i).
Qed.

Lemma valid_edges_destinations M (conns : list (edge W)) :
  valid_edges M conns -> Forall (fun '(_, b, _) => 1 <= b) conns.
Proof.
  intros Hv; eapply Forall_impl; [exact Hv|]; intros [[a b] x]; simpl; lia.
Qed.

Lemma steps_valid (conns : list (edge W)) w :
  valid_edges (len (heap w)) conns ->
  exists t,
    steps conns false w
    = (evolves w (committed (heap w) (threshold_rule (heap w) conns)) [] t,
       Ok (threshold_rule (heap w) conns))
    /\ Forall (within (length (heap w))) t.
Proof.
  intros Hv.
  pose proof (steps_run conns false w) as Hrun.
  destruct (send_valid conns (replicate (length (heap w)) w_zero) w)
    as (t1 & Hsend & Ht1); [by rewrite length_replicate|done|].
  rewrite Hsend in Hrun; destruct Hrun as (_ & t2 & Hrun & Ht2).
  rewrite next_states_rule in Hrun by (by eapply valid_edges_destinations).
  exists (t1 ++ t2); split; [|by apply Forall_app].
  by rewrite Hrun, evolves_evolves.
Qed.

(** C4, baseline part. *)

Lemma source_state_inactive ns a w :
  heap w = ns -> source_state ns a = Some 0 ->
  exists na, neuron_at (a - 1) w = (log (length ns, a - 1) w, Ok na)
             /\ state na = 0.
Proof.
  intros Hw; unfold source_state, neuron_at, neurons, bind, getitem.
  rewrite Hw; destruct (position _ _) as [k|]; [|done].
  destruct (ns !! k) as [na|]; [|done].
  intros [= Hs]; by exists na.
Qed.

Lemma send_drop_inactive ns (conns : list (edge W)) :
  forall r w1 w2,
    heap w1 = ns -> heap w2 = ns ->
    (send (drop_inactive ns conns) r w1).2 = (send conns r w2).2.
Proof.
  induction conns as [|[[a b] x] conns IH]; intros r w1 w2 Hw1 Hw2; [done|].
  unfold drop_inactive; simpl.
  destruct (bool_decide (source_state ns a = Some 0)) eqn:E; simpl.
  - apply bool_decide_eq_true in E.
    destruct (source_state_inactive ns a w2 Hw2 E) as (na & Hna & Hs).
    unfold send at 2; rewrite for_each_cons.
    unfold bind at 1; rewrite Hna, Hs; simpl.
    apply IH; done.
  - unfold send; rewrite !for_each_cons.
    set (body := (let* na := neuron_at (a - 1) in
                  if state na =? 1 then iadd r (b - 1) x else ret r)).
    assert (Hbody : heap_only body /\ reads body).
    { unfold body, neuron_at, iadd; split; structural. }
    destruct Hbody as [Hho Hrd].
    destruct (Hho w1 w2) as [_ Hres]; [congruence|].
    destruct (Hrd w1) as [t1 Ht1], (Hrd w2) as [t2 Ht2].
    destruct (body w1) as [w1' r1], (body w2) as [w2' r2]; simpl in *.
    subst r2 w1' w2'; destruct r1 as [r'|e]; [|done].
    apply IH; done.
Qed.

Lemma steps_drop_inactive (conns : list (edge W)) debug w :
  observable (steps (drop_inactive (heap w) conns) debug w).1
  = observable (steps conns debug w).1
  /\ (steps (drop_inactive (heap w) conns) debug w).2
     = (steps conns debug w).2.
Proof.
  pose proof (steps_run (drop_inactive (heap w) conns) debug w) as Hrun1.
  pose proof (steps_run conns debug w) as Hrun2.
  pose proof (send_drop_inactive (heap w) conns
                (replicate (length (heap w)) w_zero) w w eq_refl eq_refl) as Hsame.
  destruct (reads_send (drop_inactive (heap w) conns)
              (replicate (length (heap w)) w_zero) w) as [t1 Hw1].
  destruct (reads_send conns (replicate (length (heap w)) w_zero) w)
    as [t2 Hw2].
  destruct (send (drop_inactive _ _) _ w) as [w1 r1].
  destruct (send conns _ w) as [w2 r2].
  simpl in Hsame, Hw1, Hw2; subst r2 w1 w2.
  destruct r1 as [received|e].
  - destruct Hrun1 as (_ & t1' & -> & _), Hrun2 as (_ & t2' & -> & _); done.
  - rewrite Hrun1, Hrun2; done.
Qed.

(** C4, fast part. *)

Lemma silence_length ns (oe : list (list (Z * W))) :
  length (silence ns oe) = length oe.
Proof. unfold silence; apply length_imap. Qed.

Lemma silence_lookup_active ns (oe : list (list (Z * W))) u nu :
  ns !! u = Some nu -> state nu = 1 -> silence ns oe !! u = oe !! u.
Proof.
  intros Hnu Hs; unfold silence; rewrite list_lookup_imap, Hnu, Hs; simpl.
  by destruct (oe !! u).
Qed.

Lemma getitem_silence ns (oe : list (list (Z * W))) (u : nat) nu w :
  ns !! u = Some nu -> state nu = 1 ->
  getitem (silence ns oe) (Z.of_nat u) w = getitem oe (Z.of_nat u) w.
Proof.
  intros Hnu Hs; unfold getitem; rewrite silence_length.
  destruct (position (length oe) (Z.of_nat u)) as [k|] eqn:Ek; [|done].
  assert (k = u) as ->.
  { unfold position in Ek.
    destruct ((0 <=? Z.of_nat u) && (Z.of_nat u <? Z.of_nat (length oe)));
      [simplify_eq; lia|].
    destruct ((- Z.of_nat (length oe) <=? Z.of_nat u) && (Z.of_nat u <? 0)) eqn:E;
      [|done].
    apply andb_true_iff in E as [_ E]; lia. }
  by rewrite (silence_lookup_active ns oe u nu).
Qed.

Lemma send_fast_silence_loop ns (oe : list (list (Z * W))) :
  forall (es : list (Z * neuron W)) r w,
    Forall (fun '(u, nu) => 0 <= u /\ ns !! Z.to_nat u = Some nu) es ->
    for_each es r (fun '(u, nu) received =>
      if state nu =? 1 then
        let* row := getitem (silence ns oe) u in
        for_each row received (fun '(v, x) received => iadd received v x)
      else ret received) w
    = for_each es r (fun '(u, nu) received =>
      if state nu =? 1 then
        let* row := getitem oe u in
        for_each row received (fun '(v, x) received => iadd received v x)
      else ret received) w.
Proof.
  induction es as [|[u nu] es IH]; intros r w Hes; [done|].
  apply Forall_cons in Hes as [[Hu Hnu] Hes].
  rewrite !for_each_cons.
  destruct (state nu =? 1) eqn:Es.
  - apply Z.eqb_eq in Es. unfold bind at 1 3.
    rewrite <- (Z2Nat.id u) by done.
    rewrite (getitem_silence ns oe _ nu) by done.
    destruct (getitem oe _ w) as [w1 [row|e]]; [|done].
    destruct (for_each row r _ w1) as [w2 [r'|e]]; [|done].
    by apply IH.
  - unfold ret at 1 3. by apply IH.
Qed.

Lemma enumerate_lookup {A} (l : list A) :
  Forall (fun '(u, x) => 0 <= u /\ l !! Z.to_nat u = Some x) (enumerate l).
Proof.
  apply Forall_lookup; intros k [u x]; unfold enumerate.
  rewrite list_lookup_imap.
  destruct (l !! k) eqn:E; simpl; [|done].
  intros [= <- <-]; rewrite Nat2Z.id; split; [lia|done].
Qed.

Lemma step_fast_silence (oe : list (list (Z * W))) w :
  step_fast (silence (heap w) oe) w = step_fast oe w.
Proof.
  rewrite !step_fast_is_tick; unfold tick_of, len_neurons.
  unfold bind at 1 6. unfold bind at 1 5.
  replace (send_fast (silence (heap w) oe) (replicate (Z.to_nat (len (heap w))) w_zero) w)
    with (send_fast oe (replicate (Z.to_nat (len (heap w))) w_zero) w); [done|].
  unfold send_fast, neurons; unfold bind at 1 3.
  symmetry; apply send_fast_silence_loop, enumerate_lookup.
Qed.
End Edges.

Section Adjacency.

Context {W : Type} `{Weight W}.
Implicit Types (w : world W) (ns : list (neuron W)) (t : list subscript)
  (d : list (Z * W)).
Local Abbreviation heap_only := (heap_only (W:=W)).
Local Abbreviation reads := (reads (W:=W)).
Local Abbreviation framed := (framed (W:=W)).

Lemma dict_get_iadd d v x v' :
  dict_get (dict_iadd d v x) v'
  = if v =? v' then Some (w_add (default w_zero (dict_get d v)) x)
    else dict_get d v'.
Proof.
  induction d as [|[k y] d IH]; simpl.
  - destruct (v =? v'); done.
  - destruct (k =? v) eqn:Ekv; simpl.
    + apply Z.eqb_eq in Ekv; subst k.
      destruct (v =? v'); done.
    + destruct (k =? v') eqn:Ekv'; [|done].
      apply Z.eqb_eq in Ekv'; subst k. by rewrite Z.eqb_sym, Ekv.
Qed.

Lemma dict_iadd_keys d v x :
  (dict_iadd d v x).*1 = if bool_decide (v ∈ d.*1) then d.*1 else d.*1 ++ [v].
Proof.
  induction d as [|[k y] d IH]; [done|].
  cbn [dict_iadd]; destruct (k =? v) eqn:Ekv; rewrite !fmap_cons; cbn [fst].
  - apply Z.eqb_eq in Ekv; subst k.
    rewrite bool_decide_eq_true_2; [done|left].
  - apply Z.eqb_neq in Ekv; rewrite IH.
    destruct (bool_decide (v ∈ d.*1)) eqn:E.
    + apply bool_decide_eq_true in E.
      rewrite bool_decide_eq_true_2; [done|by right].
    + apply bool_decide_eq_false in E.
      rewrite bool_decide_eq_false_2; [done|].
      intros [?|?]%elem_of_cons; congruence.
Qed.

Lemma dict_iadd_NoDup d v x : NoDup d.*1 -> NoDup (dict_iadd d v x).*1.
Proof.
  intros Hd; rewrite dict_iadd_keys.
  destruct (bool_decide (v ∈ d.*1)) eqn:E; [done|].
  apply bool_decide_eq_false in E.
  apply NoDup_app; split; [done|]; split; [|apply NoDup_singleton].
  intros k Hk ->%list_elem_of_singleton; done.
Qed.

Lemma dict_get_elem_of d v y :
  NoDup d.*1 -> (v, y) ∈ d <-> dict_get d v = Some y.
Proof.
  induction d as [|[k z] d IH]; simpl; intros Hd.
  - split; [by intros ?%elem_of_nil|done].
  - apply NoDup_cons in Hd as [Hk Hd].
    destruct (k =? v) eqn:E.
    + apply Z.eqb_eq in E; subst k; split.
      * intros [[= ->]|Hin]%elem_of_cons; [done|].
        destruct Hk; apply list_elem_of_fmap; by exists (v, y).
      * intros [= ->]; left.
    + apply Z.eqb_neq in E; rewrite <- IH by done; split.
      * intros [[= ? ?]|Hin]%elem_of_cons; [congruence|done].
      * by right.
Qed.

Lemma row_after_NoDup (es : list (edge W)) :
  forall d, NoDup d.*1 -> NoDup (row_after es d).*1.
Proof.
  induction es as [|[[a b] x] es IH]; intros d Hd; [done|].
  unfold row_after in *; simpl; by apply IH, dict_iadd_NoDup.
Qed.

(** The weights of the edges of [es] that enter [v] (0-based). *)
Lemma row_after_get (es : list (edge W)) v :
  forall d,
    dict_get (row_after es d) v
    = match map snd (List.filter (fun '(_, b, _) => b - 1 =? v) es) with
      | [] => dict_get d v
      | ws => Some (fold_left w_add ws (default w_zero (dict_get d v)))
      end.
Proof.
  induction es as [|[[a b] x] es IH]; intros d; [done|].
  unfold row_after in *; simpl; rewrite IH, dict_get_iadd.
  destruct (b - 1 =? v) eqn:E; simpl; [|done].
  apply Z.eqb_eq in E; subst v. by destruct (map snd _).
Qed.

Lemma filter_filter_edges (conns : list (edge W)) u v :
  List.filter (fun '(_, b, _) => b - 1 =? v) (edges_from conns u)
  = List.filter (fun '(a, b, _) => (a - 1 =? u) && (b - 1 =? v)) conns.
Proof.
  unfold edges_from; induction conns as [|[[a b] x] conns IH]; simpl; [done|].
  destruct (a - 1 =? u); simpl; [|done].
  destruct (b - 1 =? v); by rewrite IH.
Qed.

Lemma aggregate_step_lookup (oe : list (dict W)) a b x (u : nat) :
  0 <= a - 1 < len oe ->
  aggregate_step oe (a, b, x) !! u
  = if a - 1 =? Z.of_nat u then (fun d => dict_iadd d (b - 1) x) <$> oe !! u
    else oe !! u.
Proof.
  intros Ha; unfold aggregate_step.
  rewrite position_in_range by done.
  destruct (lookup_lt_is_Some_2 oe (Z.to_nat (a - 1))) as [d Hd];
    [unfold len in Ha; lia|].
  rewrite Hd.
  destruct (a - 1 =? Z.of_nat u) eqn:E.
  - apply Z.eqb_eq in E.
    assert (Z.to_nat (a - 1) = u) as <- by lia.
    rewrite Hd; simpl. apply list_lookup_insert_eq.
    by eapply lookup_lt_Some.
  - apply Z.eqb_neq in E. apply list_lookup_insert_ne; lia.
Qed.

(** Row [u] of the aggregation only depends on the edges that leave [u]. *)
Lemma aggregate_lookup (conns : list (edge W)) (u : nat) :
  forall (oe : list (dict W)) d,
    Forall (fun '(a, _, _) => 0 <= a - 1 < len oe) conns ->
    oe !! u = Some d ->
    aggregate conns oe !! u
    = Some (row_after (edges_from conns (Z.of_nat u)) d).
Proof.
  induction conns as [|[[a b] x] conns IH]; intros oe d Hsrc Hd; [done|].
  apply Forall_cons in Hsrc as [Ha Hsrc].
  change (aggregate ((a, b, x) :: conns) oe)
    with (aggregate conns (aggregate_step oe (a, b, x))).
  pose proof (aggregate_step_lookup oe a b x u Ha) as Hstep.
  assert (Hlen : Forall (fun '(a0, _, _) =>
                           0 <= a0 - 1 < len (aggregate_step oe (a, b, x)))
                   conns)
    by (unfold len in *; by rewrite aggregate_step_length).
  unfold edges_from; cbn [List.filter].
  destruct (a - 1 =? Z.of_nat u); rewrite Hd in Hstep; simpl in Hstep.
  - by rewrite (IH _ _ Hlen Hstep).
  - by rewrite (IH _ _ Hlen Hstep).
Qed.

Lemma valid_edges_sources M (conns : list (edge W)) :
  valid_edges M conns -> Forall (fun '(a, _, _) => 0 <= a - 1 < M) conns.
Proof.
  intros Hv; eapply Forall_impl; [exact Hv|]; intros [[a b] x]; simpl; lia.
Qed.

Lemma valid_edges_indexable M (conns : list (edge W)) :
  valid_edges M conns -> sources_indexable M conns.
Proof.
  intros Hv; eapply Forall_impl; [exact Hv|]; intros [[a b] x]; simpl; lia.
Qed.

Lemma valid_edges_nonneg M (conns : list (edge W)) :
  conns <> [] -> valid_edges M conns -> 0 < M.
Proof.
  destruct conns as [|[[a b] x] conns]; [done|].
  intros _ [Ha _]%Forall_cons; lia.
Qed.

Lemma adjacency_length M (conns : list (edge W)) :
  length (adjacency M conns) = Z.to_nat M.
Proof.
  unfold adjacency; etrans; [apply aggregate_length|apply length_replicate].
Qed.

Lemma adjacency_lookup M (conns : list (edge W)) (u : nat) :
  valid_edges M conns -> (u < Z.to_nat M)%nat ->
  adjacency M conns !! u = Some (row_after (edges_from conns (Z.of_nat u)) []).
Proof.
  intros Hv Hu; unfold adjacency; apply aggregate_lookup.
  - unfold len; rewrite length_replicate.
    eapply Forall_impl; [exact (valid_edges_sources M conns Hv)|].
    intros [[a b] x]; simpl; lia.
  - by apply lookup_replicate_2.
Qed.

(** The entries of a row: one per destination, holding the sum of the
    weights of the edges between the two neurons, in input order. *)
Lemma row_entries (conns : list (edge W)) u v y :
  (v, y) ∈ row_after (edges_from conns u) [] ->
  weights_between conns u v <> [] /\ y = total (weights_between conns u v).
Proof.
  intros Hin.
  apply dict_get_elem_of in Hin; [|apply row_after_NoDup, NoDup_nil_2].
  rewrite row_after_get, filter_filter_edges in Hin.
  unfold weights_between, total.
  destruct (map snd _); [done|]. by simplify_eq.
Qed.

Lemma row_entry_exists (conns : list (edge W)) u v :
  weights_between conns u v <> [] ->
  exists y, (v, y) ∈ row_after (edges_from conns u) [].
Proof.
  intros Hne. exists (total (weights_between conns u v)).
  apply dict_get_elem_of; [apply row_after_NoDup, NoDup_nil_2|].
  rewrite row_after_get, filter_filter_edges.
  unfold weights_between, total in *.
  by destruct (map snd _).
Qed.

Lemma weights_between_witness M (conns : list (edge W)) u v :
  valid_edges M conns -> weights_between conns u v <> [] -> 0 <= v < M.
Proof.
  unfold weights_between, valid_edges.
  induction conns as [|[[a b] x] conns IH]; simpl; [done|].
  intros [[Ha Hb] Hv]%Forall_cons.
  destruct ((a - 1 =? u) && (b - 1 =? v)) eqn:E; [|by apply IH].
  intros _; apply andb_true_iff in E as [_ E%Z.eqb_eq]; lia.
Qed.

Lemma adjacency_rows_within M (conns : list (edge W)) :
  valid_edges M conns -> rows_within (Z.to_nat M) (adjacency M conns).
Proof.
  intros Hv; apply Forall_lookup; intros u row Hrow.
  assert (Hu : (u < Z.to_nat M)%nat).
  { apply lookup_lt_Some in Hrow; by rewrite adjacency_length in Hrow. }
  rewrite adjacency_lookup in Hrow by done; simplify_eq.
  apply Forall_forall; intros [v y] Hin.
  apply row_entries in Hin as [Hne _].
  pose proof (weights_between_witness M conns _ v Hv Hne); lia.
Qed.
End Adjacency.

Section FastValid.

Context {W : Type} `{Weight W}.
Implicit Types (w : world W) (ns : list (neuron W)) (t : list subscript).
Local Abbreviation heap_only := (heap_only (W:=W)).
Local Abbreviation reads := (reads (W:=W)).
Local Abbreviation framed := (framed (W:=W)).

(** One fast tick over the adjacency of in-range edges. *)
Lemma step_fast_valid (conns : list (edge W)) w :
  valid_edges (len (heap w)) conns ->
  exists t,
    step_fast (adjacency (len (heap w)) conns) w
    = (evolves w
         (committed (heap w)
            (next_states (heap w)
               (deliver_fast (heap w) (adjacency (len (heap w)) conns)
                  (replicate (length (heap w)) w_zero)))) [] t,
       Ok (next_states (heap w)
             (deliver_fast (heap w) (adjacency (len (heap w)) conns)
                (replicate (length (heap w)) w_zero))))
    /\ Forall (within (length (heap w))) t.
Proof.
  intros Hv.
  pose proof (step_fast_run (adjacency (len (heap w)) conns) w) as Hrun.
  destruct (send_fast_run (adjacency (len (heap w)) conns)
              (replicate (length (heap w)) w_zero) w)
    as (t1 & Hsend & Ht1).
  { rewrite adjacency_length; unfold len; lia. }
  { pose proof (adjacency_rows_within _ _ Hv) as Hrows.
    unfold len in Hrows; by rewrite Nat2Z.id in Hrows. }
  { by rewrite length_replicate. }
  rewrite Hsend in Hrun; destruct Hrun as (_ & t2 & Hrun & Ht2).
  exists (t1 ++ t2); split; [|by apply Forall_app].
  by rewrite Hrun, evolves_evolves.
Qed.

Lemma committed_length' ns (new : list Z) :
  length (committed ns new) = min (length ns) (length new).
Proof. unfold committed; apply length_zip_with. Qed.

Lemma threshold_rule_length ns (conns : list (edge W)) :
  length (threshold_rule ns conns) = length ns.
Proof. unfold threshold_rule; apply length_imap. Qed.

Lemma tick_length (conns : list (edge W)) ns :
  length (committed ns (threshold_rule ns conns)) = length ns.
Proof. rewrite committed_length', threshold_rule_length; lia. Qed.

Lemma snapshot_observable d (tk : Z) w1 w2 :
  observable w1 = observable w2 ->
  observable (snapshot d tk w1).1 = observable (snapshot d tk w2).1
  /\ (snapshot d tk w1).2 = (snapshot d tk w2).2.
Proof.
  unfold observable; intros [= Hh Hi Ho].
  unfold snapshot; destruct d as [k|]; [|simpl; by rewrite Hh, Hi, Ho].
  destruct (k =? 0); [simpl; by rewrite Hh, Hi, Ho|].
  destruct (tk mod k =? 0); simpl; by rewrite Hh, Hi, Ho.
Qed.

(** Two steppers that commit the same next neuron list drive the loop of the
    drivers to the same outcome. *)
Lemma run_loop_agree (M : nat) (f : list (neuron W) -> list (neuron W))
  (step1 step2 : Py (list Z)) d :
  (forall ns, length ns = M -> length (f ns) = M) ->
  (forall w, length (heap w) = M ->
     exists t, step1 w = (evolves w (f (heap w)) [] t, Ok (map state (f (heap w))))) ->
  (forall w, length (heap w) = M ->
     exists t, step2 w = (evolves w (f (heap w)) [] t, Ok (map state (f (heap w))))) ->
  forall (ts : list Z) w1 w2,
    observable w1 = observable w2 -> length (heap w1) = M ->
    let out1 := for_each ts tt (fun tk _ => step1;;; snapshot d tk) w1 in
    let out2 := for_each ts tt (fun tk _ => step2;;; snapshot d tk) w2 in
    observable out1.1 = observable out2.1 /\ out1.2 = out2.2
    /\ length (heap out1.1) = M
    /\ (d <> Some 0 -> out1.2 = Ok tt).
Proof.
  intros Hf Hs1 Hs2; induction ts as [|tk ts IH]; intros w1 w2 Hw HM.
  - done.
  - cbv zeta in *. rewrite !for_each_cons, !then_eval.
    assert (Hh : heap w1 = heap w2) by (unfold observable in Hw; congruence).
    destruct (Hs1 w1 HM) as [t1 ->].
    destruct (Hs2 w2) as [t2 ->]; [congruence|].
    set (w1' := evolves w1 _ _ _). set (w2' := evolves w2 _ _ _).
    assert (Hw' : observable w1' = observable w2').
    { unfold observable in *; simpl; simplify_eq. congruence. }
    destruct (snapshot_observable d tk w1' w2' Hw') as [Hobs Hres].
    pose proof (snapshot_heap d tk w1') as Hheap.
    pose proof (snapshot_ok d tk w1') as Hok.
    destruct (snapshot d tk w1') as [w1'' r1], (snapshot d tk w2') as [w2'' r2].
    simpl in Hobs, Hres, Hheap, Hok; subst r2.
    destruct r1 as [[]|e].
    + apply IH; [done|]. rewrite Hheap; unfold w1'; simpl. by apply Hf.
    + simpl; split; [done|]. split; [done|]. split.
      * rewrite Hheap; unfold w1'; simpl. by apply Hf.
      * intros Hd; by apply Hok.
Qed.
End FastValid.

Section Exact.

Context {W : Type} `{Weight W}.
Implicit Types (w : world W) (ns : list (neuron W)) (t : list subscript)
  (d : list (Z * W)) (r : list W).
Local Abbreviation heap_only := (heap_only (W:=W)).
Local Abbreviation reads := (reads (W:=W)).
Local Abbreviation framed := (framed (W:=W)).

(** Addition without rounding: an associative, commutative operation with
    0.0 as its neutral element. *)
Hypothesis add_assoc : forall x y z : W, w_add (w_add x y) z = w_add x (w_add y z).
Hypothesis add_comm : forall x y : W, w_add x y = w_add y x.
Hypothesis add_zero : forall x : W, w_add w_zero x = x.

Lemma bump_bump r v x y : bump (bump r v x) v y = bump r v (w_add x y).
Proof.
  unfold bump; destruct (r !! Z.to_nat v) as [z|] eqn:Ez; [|by rewrite Ez].
  rewrite list_lookup_insert_eq by (by eapply lookup_lt_Some).
  by rewrite list_insert_insert_eq, add_assoc.
Qed.

Lemma bump_comm r v x k y :
  bump (bump r v x) k y = bump (bump r k y) v x.
Proof.
  destruct (decide (Z.to_nat v = Z.to_nat k)) as [E|E].
  - unfold bump; rewrite <- E.
    destruct (r !! Z.to_nat v) as [z|] eqn:Ez; [|by rewrite Ez].
    rewrite !list_lookup_insert_eq by (by eapply lookup_lt_Some).
    rewrite !list_insert_insert_eq.
    by rewrite !add_assoc, (add_comm x y).
  - unfold bump.
    destruct (r !! Z.to_nat v) as [z|] eqn:Ez;
      destruct (r !! Z.to_nat k) as [z'|] eqn:Ez';
      rewrite ?list_lookup_insert_ne by done;
      rewrite ?Ez, ?Ez'; try done.
    by apply list_insert_insert_ne.
Qed.

Lemma pour_bump (row : list (Z * W)) :
  forall r v x, pour row (bump r v x) = bump (pour row r) v x.
Proof.
  induction row as [|[k y] row IH]; intros r v x; [done|].
  unfold pour in *; simpl. by rewrite bump_comm, IH.
Qed.

Lemma pour_dict_iadd d :
  forall r v x, pour (dict_iadd d v x) r = bump (pour d r) v x.
Proof.
  induction d as [|[k y] d IH]; intros r v x.
  - unfold pour; simpl; by rewrite add_zero.
  - cbn [dict_iadd]; destruct (k =? v) eqn:E.
    + apply Z.eqb_eq in E; subst k.
      unfold pour; simpl.
      rewrite <- bump_bump. apply pour_bump.
    + unfold pour in *; simpl. apply IH.
Qed.

Lemma poured_bump oe (es : list (Z * neuron W)) :
  forall r v x, poured oe es (bump r v x) = bump (poured oe es r) v x.
Proof.
  induction es as [|[u nu] es IH]; intros r v x; [done|].
  unfold poured in *; simpl.
  destruct (state nu =? 1); [|apply IH].
  destruct (oe !! Z.to_nat u); [|apply IH].
  by rewrite pour_bump, IH.
Qed.

(** The effect on [step_fast] of one more edge (a, b, x) in the adjacency. *)
Lemma poured_aggregate_step (oe : list (dict W)) a b x :
  0 <= a - 1 < len oe ->
  forall (es : list (Z * neuron W)) r,
    Forall (fun '(u, _) => 0 <= u) es -> NoDup es.*1 ->
    poured (aggregate_step oe (a, b, x)) es r
    = if existsb (fun '(u, nu) => (u =? a - 1) && (state nu =? 1)) es
      then bump (poured oe es r) (b - 1) x
      else poured oe es r.
Proof.
  intros Ha; induction es as [|[u nu] es IH]; intros r Hes Hnd; [done|].
  apply Forall_cons in Hes as [Hu Hes].
  rewrite fmap_cons in Hnd; apply NoDup_cons in Hnd as [Hfresh Hnd].
  cbn [existsb].
  change (poured ?o ((u, nu) :: es) r)
    with (poured o es (if state nu =? 1 then
                         match o !! Z.to_nat u with
                         | Some row => pour row r
                         | None => r
                         end
                       else r)).
  rewrite (aggregate_step_lookup oe a b x (Z.to_nat u) Ha).
  rewrite Z2Nat.id by done.
  destruct (u =? a - 1) eqn:Eu.
  - apply Z.eqb_eq in Eu; subst u.
    rewrite Z.eqb_refl; simpl.
    assert (Hrest : existsb (fun '(u, nu) => (u =? a - 1) && (state nu =? 1)) es
                    = false).
    { apply not_true_is_false; intros (p & Hin & Hp)%existsb_exists.
      destruct p as [u' nu'].
      apply andb_true_iff in Hp as [->%Z.eqb_eq _].
      destruct Hfresh.
      apply list_elem_of_fmap; exists (a - 1, nu'); split; [done|].
      by apply list_elem_of_In. }
    rewrite IH, Hrest by done.
    destruct (state nu =? 1); simpl; [|done].
    destruct (lookup_lt_is_Some_2 oe (Z.to_nat (a - 1))) as [row ->];
      [unfold len in Ha; lia|simpl].
    by rewrite pour_dict_iadd, poured_bump.
  - rewrite (Z.eqb_sym (a - 1) u), Eu; simpl.
    rewrite IH by done. done.
Qed.

Lemma enumerate_NoDup {A} (l : list A) : NoDup (enumerate l).*1.
Proof.
  apply NoDup_alt; intros i j u; unfold enumerate.
  rewrite !list_lookup_fmap, !list_lookup_imap.
  destruct (l !! i) eqn:Ei; simpl; [|done].
  destruct (l !! j) eqn:Ej; simpl; [|done].
  intros [= <-] [= ?]; lia.
Qed.

Lemma enumerate_nonneg {A} (l : list A) :
  Forall (fun '(u, _) => 0 <= u) (enumerate l).
Proof.
  eapply Forall_impl; [apply enumerate_within|]. intros [u x]; simpl; lia.
Qed.

Lemma enumerate_active ns a :
  1 <= a ->
  existsb (fun '(u, nu) => (u =? a - 1) && (state nu =? 1)) (enumerate ns)
  = active ns a.
Proof.
  intros Ha; unfold active.
  replace (1 <=? a) with true by (symmetry; apply Z.leb_le; lia).
  rewrite andb_true_l.
  destruct (ns !! Z.to_nat (a - 1)) as [na|] eqn:Ena.
  - destruct (state na =? 1) eqn:Es.
    + apply existsb_exists; exists (a - 1, na); split.
      * apply list_elem_of_In, list_elem_of_lookup; exists (Z.to_nat (a - 1)).
        unfold enumerate; rewrite list_lookup_imap, Ena; simpl.
        f_equal; f_equal; lia.
      * by rewrite Z.eqb_refl.
    + apply not_true_is_false; intros ([u nu] & Hin & Hp)%existsb_exists.
      apply andb_true_iff in Hp as [->%Z.eqb_eq Hs].
      apply list_elem_of_In in Hin.
      pose proof (proj1 (Forall_forall _ _) (enumerate_lookup ns) _ Hin)
        as [_ Hnu]; simpl in Hnu.
      congruence.
  - apply not_true_is_false; intros ([u nu] & Hin & Hp)%existsb_exists.
    apply andb_true_iff in Hp as [->%Z.eqb_eq Hs].
    apply list_elem_of_In in Hin.
    pose proof (proj1 (Forall_forall _ _) (enumerate_lookup ns) _ Hin)
      as [_ Hnu]; simpl in Hnu.
    congruence.
Qed.

Lemma deliver_fast_poured ns oe r :
  deliver_fast ns oe r = poured oe (enumerate ns) r.
Proof. reflexivity. Qed.

Lemma deliver_snoc ns (conns : list (edge W)) a b x r :
  deliver ns (conns ++ [(a, b, x)]) r
  = if active ns a then bump (deliver ns conns r) (b - 1) x
    else deliver ns conns r.
Proof. unfold deliver; by rewrite fold_left_app. Qed.

Lemma adjacency_snoc M (conns : list (edge W)) e :
  adjacency M (conns ++ [e]) = aggregate_step (adjacency M conns) e.
Proof. unfold adjacency, aggregate; by rewrite fold_left_app. Qed.

Lemma poured_empty (M : nat) (es : list (Z * neuron W)) :
  forall r, poured (replicate M []) es r = r.
Proof.
  induction es as [|[u nu] es IH]; intros r; [done|].
  unfold poured in *; simpl.
  destruct (state nu =? 1); [|apply IH].
  destruct (replicate _ _ !! _) as [row|] eqn:E; [|apply IH].
  apply lookup_replicate in E as [-> _]. apply IH.
Qed.

(** In exact arithmetic the two accumulation phases agree. *)
Lemma deliver_fast_adjacency ns (conns : list (edge W)) r :
  valid_edges (len ns) conns ->
  deliver_fast ns (adjacency (len ns) conns) r = deliver ns conns r.
Proof.
  induction conns as [|[[a b] x] conns IH] using rev_ind; intros Hv.
  - apply poured_empty.
  - apply Forall_app in Hv as [Hv [[Ha Hb] _]%Forall_cons].
    rewrite deliver_snoc, adjacency_snoc, <- IH by done.
    rewrite !deliver_fast_poured, poured_aggregate_step.
    + by rewrite enumerate_active by lia.
    + pose proof (adjacency_length (len ns) conns) as Hlen.
      unfold len in *; lia.
    + apply enumerate_nonneg.
    + apply enumerate_NoDup.
Qed.
End Exact.

Section Agreement.

Context {W : Type} `{Weight W}.
Implicit Types (w : world W) (ns : list (neuron W)) (t : list subscript).

Lemma step_fast_agreeing (conns : list (edge W)) w :
  valid_edges (len (heap w)) conns ->
  phases_agree (length (heap w)) conns ->
  exists t,
    step_fast (adjacency (len (heap w)) conns) w
    = (evolves w (committed (heap w) (threshold_rule (heap w) conns)) [] t,
       Ok (threshold_rule (heap w) conns)).
Proof.
  intros Hv Hagree; destruct (step_fast_valid conns w Hv) as (t & Hrun & _).
  exists t; rewrite Hrun.
  unfold len; rewrite Hagree by done.
  by rewrite next_states_rule by (by eapply valid_edges_destinations).
Qed.

Lemma simulate_fast_unfold (conns : list (edge W)) N d w :
  simulate_fast conns N d w
  = match build_out_edges (len (heap w)) conns w with
    | (w1, Ok oe) =>
        (for_each (range1 N) tt (fun tk _ => step_fast oe;;; snapshot d tk);;;
         states) w1
    | (w1, Raise e) => (w1, Raise e)
    end.
Proof. reflexivity. Qed.

(** When the two accumulation phases agree, so do the two simulators. *)
Lemma simulators_agree_when (conns : list (edge W)) N d w :
  valid_edges (len (heap w)) conns ->
  phases_agree (length (heap w)) conns ->
  observable (simulate_N conns N d w).1
  = observable (simulate_fast conns N d w).1
  /\ (simulate_N conns N d w).2 = (simulate_fast conns N d w).2
  /\ (d <> Some 0 -> is_ok (simulate_N conns N d w).2 = true).
Proof.
  intros Hv Hagree.
  rewrite simulate_fast_unfold.
  rewrite build_out_edges_run by (by apply valid_edges_indexable).
  set (w2 := evolves w (heap w) [] _).
  unfold simulate_N.
  set (f := fun ns => committed ns (threshold_rule ns conns)).
  destruct (run_loop_agree (length (heap w)) f
              (steps conns false)
              (step_fast (adjacency (len (heap w)) conns)) d)
    with (ts := range1 N) (w1 := w) (w2 := w2)
    as (Hobs & Hres & Hlen & Hok); try done.
  - intros ns Hns; unfold f; by rewrite tick_length.
  - intros w0 Hw0. destruct (steps_valid conns w0) as (t & Hrun & _).
    { unfold len in *; by rewrite Hw0. }
    exists t; rewrite Hrun; unfold f.
    rewrite committed_states; [done|apply threshold_rule_length].
  - intros w0 Hw0.
    destruct (step_fast_agreeing conns w0) as (t & Hrun).
    { unfold len in *; by rewrite Hw0. }
    { by rewrite Hw0. }
    exists t. unfold len in *; rewrite <- Hw0, Hrun; unfold f.
    rewrite committed_states; [done|apply threshold_rule_length].
  - unfold w2, observable; simpl; by rewrite app_nil_r.
  - unfold bind.
    destruct (for_each _ _ _ w) as [w1' r1], (for_each _ _ _ w2) as [w2' r2].
    simpl in Hobs, Hres, Hok; subst r2.
    destruct r1 as [[]|e]; simpl.
    + unfold states, neurons, bind, ret; simpl.
      unfold observable in Hobs; simplify_eq.
      split; [unfold observable; congruence|]. split; [congruence|done].
    + split; [done|]. split; [done|]. intros Hd; by specialize (Hok Hd).
Qed.

End Agreement.

Section ExactRuns.

Context {W : Type} `{Weight W}.
Implicit Types (w : world W) (ns : list (neuron W)) (t : list subscript).

(** Addition without rounding: an associative, commutative operation with
    0.0 as its neutral element. *)
Hypothesis add_assoc : forall x y z : W, w_add (w_add x y) z = w_add x (w_add y z).
Hypothesis add_comm : forall x y : W, w_add x y = w_add y x.
Hypothesis add_zero : forall x : W, w_add w_zero x = x.

Lemma exact_phases_agree (M : nat) (conns : list (edge W)) :
  valid_edges (Z.of_nat M) conns -> phases_agree M conns.
Proof.
  intros Hv ns Hns; subst M.
  by apply (deliver_fast_adjacency add_assoc add_comm add_zero).
Qed.

(** In an arithmetic without rounding the two simulators agree on every
    valid case. *)
Lemma simulators_agree_in_exact_arithmetic (conns : list (edge W)) N d w :
  valid_edges (len (heap w)) conns ->
  observable (simulate_N conns N d w).1
  = observable (simulate_fast conns N d w).1
  /\ (simulate_N conns N d w).2 = (simulate_fast conns N d w).2
  /\ (d <> Some 0 -> is_ok (simulate_N conns N d w).2 = true).
Proof.
  intros Hv; apply simulators_agree_when; [done|].
  by apply exact_phases_agree.
Qed.

End ExactRuns.

Section Zipped.

Context {W : Type} `{Weight W}.

Lemma poured_imap (oe : list (list (Z * W))) :
  forall (l : list (neuron W)) (j : nat) (r : list W),
    poured oe (imap (fun k x => (Z.of_nat (j + k), x)) l) r
    = poured_zip l (drop j oe) r.
Proof.
  induction l as [|nu l IH]; intros j r; [done|].
  rewrite imap_cons.
  change (poured oe (?e :: ?es) r)
    with (poured oe es (let '(u, nu) := e in
                        if state nu =? 1 then
                          match oe !! Z.to_nat u with
                          | Some row => pour row r
                          | None => r
                          end
                        else r)).
  cbv beta iota. rewrite Nat.add_0_r, Nat2Z.id.
  rewrite (imap_ext _ (fun k x => (Z.of_nat (S j + k), x)))
    by (intros; simpl; f_equal; lia).
  rewrite IH.
  destruct (oe !! j) as [row|] eqn:Erow.
  - rewrite (drop_S _ _ _ Erow). done.
  - apply lookup_ge_None in Erow.
    rewrite !drop_ge by lia.
    unfold poured_zip; rewrite !zip_with_nil_r; simpl.
    by destruct (state nu =? 1).
Qed.

Lemma deliver_fast_zip (ns : list (neuron W)) oe r :
  deliver_fast ns oe r = poured_zip ns oe r.
Proof.
  exact (poured_imap oe ns 0 r).
Qed.

End Zipped.

Section Represented.
Context {W : Type} `{Weight W}.
Variable inj : Z -> W.
Variable B : Z.

(** The integers up to [B] in absolute value are represented exactly. *)
Hypothesis inj_zero : inj 0 = w_zero.
Hypothesis inj_add :
  forall a b, Z.abs a <= B -> Z.abs b <= B -> Z.abs (a + b) <= B ->
    w_add (inj a) (inj b) = inj (a + b).

Implicit Types (r : list Z) (zc : list (edge Z)) (ns : list (neuron W)).

Lemma mass_nonneg zs : 0 <= mass zs.
Proof. induction zs; simpl; lia. Qed.

Lemma mass_replicate_zero n : mass (replicate n 0) = 0.
Proof. induction n; simpl; lia. Qed.

Lemma mass_app zs1 zs2 : mass (zs1 ++ zs2) = mass zs1 + mass zs2.
Proof. induction zs1; simpl; lia. Qed.

Lemma mass_lookup r k y : r !! k = Some y -> Z.abs y <= mass r.
Proof.
  revert k; induction r as [|x r IH]; intros [|k]; simpl; try done.
  - intros [= ->]. pose proof (mass_nonneg r); lia.
  - intros Hy; apply IH in Hy. lia.
Qed.

Lemma mass_insert r k y y' :
  r !! k = Some y -> mass (<[k := y']> r) = mass r - Z.abs y + Z.abs y'.
Proof.
  revert k; induction r as [|x r IH]; intros [|k]; simpl; try done.
  - intros [= ->]; lia.
  - intros Hy; rewrite (IH _ Hy); lia.
Qed.

Lemma bump_mass r v z : mass (bump r v z) <= mass r + Z.abs z.
Proof.
  unfold bump; destruct (r !! Z.to_nat v) as [y|] eqn:Ey; [|lia].
  rewrite (mass_insert _ _ y) by done. simpl; lia.
Qed.

Lemma bump_embedded r v z :
  mass r + Z.abs z <= B ->
  bump (map inj r) v (inj z) = map inj (bump r v z).
Proof.
  intros Hb; unfold bump; rewrite list_lookup_fmap.
  destruct (r !! Z.to_nat v) as [y|] eqn:Ey; simpl; [|done].
  pose proof (mass_lookup _ _ _ Ey). pose proof (mass_nonneg r).
  rewrite list_fmap_insert, inj_add; [done|simpl in *; lia..].
Qed.

Lemma active_plain ns a : active (plain ns) a = active ns a.
Proof.
  unfold active, plain; rewrite list_lookup_fmap.
  by destruct (ns !! Z.to_nat (a - 1)).
Qed.

Lemma deliver_mass (nz : list (neuron Z)) zc :
  forall r, mass (deliver nz zc r) <= mass r + mass (map snd zc).
Proof.
  induction zc as [|[[a b] z] zc IH]; intros r; [simpl; lia|].
  unfold deliver in *; simpl.
  destruct (active nz a).
  - etrans; [apply IH|]. pose proof (bump_mass r (b - 1) z). lia.
  - etrans; [apply IH|]. lia.
Qed.

Lemma deliver_embedded ns zc :
  forall r,
    mass r + mass (map snd zc) <= B ->
    deliver ns (embed inj zc) (map inj r) = map inj (deliver (plain ns) zc r).
Proof.
  induction zc as [|[[a b] z] zc IH]; intros r Hb; [done|].
  unfold deliver in *; simpl in *. rewrite active_plain.
  pose proof (mass_nonneg (map snd zc)).
  destruct (active ns a).
  - rewrite bump_embedded by lia. apply IH.
    pose proof (bump_mass r (b - 1) z). lia.
  - apply IH; lia.
Qed.

(** ** Dictionaries *)

Lemma dict_iadd_mass (d : list (Z * Z)) v z :
  mass (map snd (dict_iadd d v z)) <= mass (map snd d) + Z.abs z.
Proof.
  induction d as [|[k y] d IH]; simpl; [lia|].
  destruct (k =? v); simpl; lia.
Qed.

Lemma dict_iadd_embedded (d : list (Z * Z)) v z :
  mass (map snd d) + Z.abs z <= B ->
  dict_iadd (embed_row inj d) v (inj z) = embed_row inj (dict_iadd d v z).
Proof.
  induction d as [|[k y] d IH]; simpl; intros Hb.
  - rewrite <- inj_zero, inj_add; [done|simpl; lia..].
  - pose proof (mass_nonneg (map snd d)).
    destruct (k =? v); simpl.
    + rewrite inj_add; [done|lia..].
    + rewrite IH; [done|lia].
Qed.

Lemma adjacency_mass_nonneg oe : 0 <= adjacency_mass oe.
Proof.
  induction oe as [|row oe IH]; simpl; [lia|].
  pose proof (mass_nonneg (map snd row)); lia.
Qed.

Lemma adjacency_mass_lookup oe k row :
  oe !! k = Some row -> mass (map snd row) <= adjacency_mass oe.
Proof.
  revert k; induction oe as [|x oe IH]; intros [|k]; simpl; try done.
  - intros [= ->]. pose proof (adjacency_mass_nonneg oe); lia.
  - intros Hy; apply IH in Hy. pose proof (mass_nonneg (map snd x)); lia.
Qed.

Lemma adjacency_mass_insert oe k row row' :
  oe !! k = Some row ->
  adjacency_mass (<[k := row']> oe)
  = adjacency_mass oe - mass (map snd row) + mass (map snd row').
Proof.
  revert k; induction oe as [|x oe IH]; intros [|k]; simpl; try done.
  - intros [= ->]; lia.
  - intros Hy; rewrite (IH _ Hy); lia.
Qed.

Lemma adjacency_mass_replicate n : adjacency_mass (replicate n []) = 0.
Proof. induction n; simpl; lia. Qed.

Lemma aggregate_step_mass (oe : list (list (Z * Z))) a b z :
  adjacency_mass (aggregate_step oe (a, b, z)) <= adjacency_mass oe + Z.abs z.
Proof.
  unfold aggregate_step.
  destruct (position _ _) as [k|]; [|lia].
  destruct (oe !! k) as [row|] eqn:Erow; [|lia].
  rewrite (adjacency_mass_insert _ _ row) by done.
  pose proof (dict_iadd_mass row (b - 1) z). lia.
Qed.

Lemma aggregate_step_embedded (oe : list (list (Z * Z))) a b z :
  adjacency_mass oe + Z.abs z <= B ->
  aggregate_step (map (embed_row inj) oe) (a, b, inj z)
  = map (embed_row inj) (aggregate_step oe (a, b, z)).
Proof.
  intros Hb; unfold aggregate_step; rewrite length_map.
  destruct (position _ _) as [k|]; [|done].
  rewrite list_lookup_fmap.
  destruct (oe !! k) as [row|] eqn:Erow; simpl; [|done].
  pose proof (adjacency_mass_lookup _ _ _ Erow).
  rewrite list_fmap_insert, dict_iadd_embedded; [done|].
  etrans; [|exact Hb]. by apply Z.add_le_mono_r.
Qed.

Lemma aggregate_mass zc :
  forall oe : list (list (Z * Z)),
    adjacency_mass (aggregate zc oe) <= adjacency_mass oe + mass (map snd zc).
Proof.
  induction zc as [|[[a b] z] zc IH]; intros oe; [simpl; lia|].
  change (aggregate ((a, b, z) :: zc) oe)
    with (aggregate zc (aggregate_step oe (a, b, z))).
  change (mass (map snd ((a, b, z) :: zc)))
    with (Z.abs z + mass (map snd zc)).
  etrans; [apply IH|]. pose proof (aggregate_step_mass oe a b z). lia.
Qed.

Lemma aggregate_embedded zc :
  forall oe : list (list (Z * Z)),
    adjacency_mass oe + mass (map snd zc) <= B ->
    aggregate (embed inj zc) (map (embed_row inj) oe)
    = map (embed_row inj) (aggregate zc oe).
Proof.
  induction zc as [|[[a b] z] zc IH]; intros oe Hb; [done|].
  change (mass (map snd ((a, b, z) :: zc)))
    with (Z.abs z + mass (map snd zc)) in Hb.
  change (aggregate (embed inj ((a, b, z) :: zc)) ?o)
    with (aggregate (embed inj zc) (aggregate_step o (a, b, inj z))).
  change (aggregate ((a, b, z) :: zc) oe)
    with (aggregate zc (aggregate_step oe (a, b, z))).
  pose proof (mass_nonneg (map snd zc)).
  rewrite aggregate_step_embedded by lia. apply IH.
  pose proof (aggregate_step_mass oe a b z). lia.
Qed.

(** ** The fast accumulation *)

Lemma pour_mass (row : list (Z * Z)) :
  forall r, mass (pour row r) <= mass r + mass (map snd row).
Proof.
  induction row as [|[v z] row IH]; intros r; [simpl; lia|].
  unfold pour in *; simpl.
  etrans; [apply IH|]. pose proof (bump_mass r v z). lia.
Qed.

Lemma pour_embedded (row : list (Z * Z)) :
  forall r,
    mass r + mass (map snd row) <= B ->
    pour (embed_row inj row) (map inj r) = map inj (pour row r).
Proof.
  induction row as [|[v z] row IH]; intros r Hb; [done|].
  unfold pour in *; simpl in *.
  pose proof (mass_nonneg (map snd row)).
  rewrite bump_embedded by lia. apply IH.
  pose proof (bump_mass r v z). lia.
Qed.

Lemma poured_zip_embedded ns :
  forall (oe : list (list (Z * Z))) r,
    mass r + adjacency_mass oe <= B ->
    poured_zip ns (map (embed_row inj) oe) (map inj r)
    = map inj (poured_zip (plain ns) oe r).
Proof.
  induction ns as [|nu ns IH]; intros oe r Hb; [done|].
  destruct oe as [|row oe]; [done|].
  unfold poured_zip in *; simpl in *.
  pose proof (mass_nonneg (map snd row)).
  pose proof (adjacency_mass_nonneg oe).
  destruct (state nu =? 1).
  - rewrite pour_embedded by lia. apply IH.
    pose proof (pour_mass row r). lia.
  - apply IH; lia.
Qed.

Lemma embed_valid M zc :
  valid_edges M (embed inj zc) -> valid_edges M zc.
Proof.
  unfold valid_edges, embed; rewrite Forall_fmap.
  intros Hv; eapply Forall_impl; [exact Hv|]. by intros [[a b] z].
Qed.

(** The two accumulation phases agree on weights that are summed exactly. *)
Lemma represented_phases_agree (M : nat) zc :
  valid_edges (Z.of_nat M) (embed inj zc) ->
  mass (map snd zc) <= B ->
  phases_agree M (embed inj zc).
Proof.
  intros Hv Hb ns Hns.
  assert (Hzero : replicate M w_zero = map inj (replicate M 0)).
  { by rewrite fmap_replicate, inj_zero. }
  assert (Hadj : adjacency (Z.of_nat M) (embed inj zc)
                 = map (embed_row inj) (adjacency (Z.of_nat M) zc)).
  { unfold adjacency.
    pose proof (aggregate_embedded zc (replicate (Z.to_nat (Z.of_nat M)) []))
      as Hagg.
    rewrite fmap_replicate in Hagg. apply Hagg.
    rewrite adjacency_mass_replicate. lia. }
  pose proof (mass_replicate_zero M) as Hmass.
  assert (Hadjmass : adjacency_mass (adjacency (Z.of_nat M) zc)
                     <= mass (map snd zc)).
  { unfold adjacency. etrans; [apply aggregate_mass|].
    rewrite adjacency_mass_replicate; lia. }
  rewrite Hzero, Hadj, deliver_fast_zip.
  rewrite poured_zip_embedded by lia.
  rewrite deliver_embedded by lia.
  f_equal. rewrite <- deliver_fast_zip.
  assert (Hlen : length (plain ns) = M) by (unfold plain; by rewrite length_map).
  rewrite <- Hlen.
  apply (deliver_fast_adjacency (W:=Z)); simpl; try (intros; lia).
  unfold len; rewrite Hlen. by apply embed_valid.
Qed.

End Represented.

(** ** Binary64 sums of small integers *)

(** Binary64 addition is exact on the integers between -16 and 16: every one
    of the sums is evaluated. *)
Lemma float_add_exact_16 (a b : Z) :
  Z.abs a <= 16 -> Z.abs b <= 16 -> Z.abs (a + b) <= 16 ->
  PrimFloat.add (float_of_int a) (float_of_int b) = float_of_int (a + b).
Proof.
  intros Ha Hb.
  assert (Ea : exists i, (i < 33)%nat /\ a = Z.of_nat i - 16)
    by (exists (Z.to_nat (a + 16)); lia).
  assert (Eb : exists j, (j < 33)%nat /\ b = Z.of_nat j - 16)
    by (exists (Z.to_nat (b + 16)); lia).
  destruct Ea as (i & Hi & ->), Eb as (j & Hj & ->).
  clear Ha Hb.
  do 33 (destruct i as [|i];
         [do 33 (destruct j as [|j];
                 [intros Hab; first [reflexivity|exfalso; lia]|]);
          exfalso; lia|]).
  exfalso; lia.
Qed.

Section ReaderFacts.
Context {W : Type} `{Weight W}.
Variable int_ : string -> option Z.
Variable float_ : string -> option W.
Implicit Types (w : world W).
Local Abbreviation hushed := (hushed (W:=W)).

Lemma hushed_ret {A} (x : A) : hushed (ret x).
Proof. by intros w. Qed.

Lemma hushed_raise {A} e : hushed (raise (A:=A) e).
Proof. by intros w. Qed.

Lemma hushed_bind {A B} (m : Py A) (k : A -> Py B) :
  hushed m -> (forall x, hushed (k x)) -> hushed (bind m k).
Proof.
  intros Hm Hk w; unfold bind.
  destruct (Hm w) as [Hh Ho].
  destruct (m w) as [w1 [x|e]]; simpl in *; [|done].
  destruct (Hk x w1) as [Hh' Ho']; split; congruence.
Qed.

Lemma hushed_for_each {A S} (xs : list A) (body : A -> S -> Py S) :
  (forall x s, hushed (body x s)) -> forall s, hushed (for_each xs s body).
Proof.
  intros Hb; induction xs as [|x xs IH]; intros s; simpl.
  - apply hushed_ret.
  - apply hushed_bind; [apply Hb|apply IH].
Qed.

Lemma hushed_getitem {A} (l : list A) i : hushed (getitem l i).
Proof. by intros w. Qed.

Lemma hushed_readline : hushed readline.
Proof. intros w; unfold readline; by destruct (stdin w). Qed.

Lemma hushed_to_int s : hushed (to_int int_ s).
Proof. unfold to_int; destruct (int_ s); [apply hushed_ret|apply hushed_raise]. Qed.

Lemma hushed_to_float s : hushed (to_float float_ s).
Proof.
  unfold to_float; destruct (float_ s); [apply hushed_ret|apply hushed_raise].
Qed.

Lemma hushed_list_map {A} (f : string -> Py A) tokens :
  (forall tok, hushed (f tok)) -> hushed (list_map f tokens).
Proof.
  intros Hf; unfold list_map; apply hushed_for_each; intros tok acc.
  apply hushed_bind; [apply Hf|intros; apply hushed_ret].
Qed.

Lemma hushed_read_stdin_case : hushed (_read_stdin_case int_ float_).
Proof.
  unfold _read_stdin_case.
  repeat first
    [ apply hushed_bind | apply hushed_readline | apply hushed_to_int
    | apply hushed_list_map | apply hushed_to_float | apply hushed_for_each
    | apply hushed_getitem | apply hushed_ret | progress intros ].
  intros w; simpl. by destruct (read_edges _ _ _ _).
Qed.

(** ** What a successful stage tells about the input *)

Lemma readline_run w :
  exists w', readline w = (w', Ok (line_at 0 (stdin w)))
             /\ stdin w' = drop 1 (stdin w).
Proof.
  unfold readline, line_at; destruct (stdin w) as [|l rest] eqn:E; simpl.
  - by exists w.
  - by eexists.
Qed.

Lemma to_int_inv s w w' z :
  to_int int_ s w = (w', Ok z) -> w' = w /\ int_ s = Some z.
Proof.
  unfold to_int; destruct (int_ s); unfold ret, raise; intros; by simplify_eq.
Qed.

Lemma list_map_loop {A} (f : string -> option A) (lift : string -> Py A) :
  (forall tok w, lift tok w
     = (w, match f tok with Some x => Ok x | None => Raise ValueError end)) ->
  forall tokens acc w w' l,
    for_each tokens acc (fun tok acc => let* x := lift tok in ret (acc ++ [x])) w
    = (w', Ok l) ->
    w' = w /\ Forall (fun tok => is_Some (f tok)) tokens
    /\ length l = (length acc + length tokens)%nat.
Proof.
  intros Hlift; induction tokens as [|tok tokens IH]; intros acc w w' l; simpl.
  - unfold ret; intros [= <- <-]. split; [done|]. split; [constructor|lia].
  - unfold bind at 1 2; rewrite Hlift.
    destruct (f tok) as [x|] eqn:E; [|done].
    unfold ret at 1; intros Hrun.
    apply IH in Hrun as (-> & Hall & Hlen); split; [done|]. split.
    + constructor; [by rewrite E|done].
    + rewrite length_app in Hlen; simpl in *; lia.
Qed.

Lemma list_map_int_inv tokens w w' l :
  list_map (to_int int_) tokens w = (w', Ok l) ->
  w' = w /\ Forall (fun tok => is_Some (int_ tok)) tokens
  /\ length l = length tokens.
Proof.
  intros Hrun; eapply (list_map_loop int_) in Hrun; [exact Hrun|].
  intros tok w0; unfold to_int; by destruct (int_ tok).
Qed.

Lemma list_map_float_inv tokens w w' l :
  list_map (to_float float_) tokens w = (w', Ok l) ->
  w' = w /\ Forall (fun tok => is_Some (float_ tok)) tokens
  /\ length l = length tokens.
Proof.
  intros Hrun; eapply (list_map_loop float_) in Hrun; [exact Hrun|].
  intros tok w0; unfold to_float; by destruct (float_ tok).
Qed.

Lemma read_edges_inv (lines : list string) :
  forall acc rest conns,
    read_edges int_ float_ lines acc = (rest, Ok conns) ->
    forall l, l ∈ before_terminator lines -> ~ bad_record int_ float_ l.
Proof.
  induction lines as [|line lines IH]; intros acc rest conns Hrun l Hin;
    [by apply elem_of_nil in Hin|].
  simpl in Hrun, Hin.
  destruct (String.eqb (strip line) EmptyString) eqn:Eblank.
  - apply String.eqb_eq in Eblank.
    replace (String.eqb (strip line) "E") with false in Hin
      by (rewrite Eblank; reflexivity).
    apply elem_of_cons in Hin as [->|Hin]; [|by eapply IH].
    by intros (Hne & _).
  - destruct (String.eqb (strip line) "E") eqn:Eterm;
      [by apply elem_of_nil in Hin|].
    destruct (split (strip line)) as [|a [|b [|x [|? ?]]]] eqn:Etok; try done.
    destruct (int_ a) as [za|] eqn:Ea; [|done].
    destruct (int_ b) as [zb|] eqn:Eb; [|done].
    destruct (float_ x) as [wx|] eqn:Ex; [|done].
    apply elem_of_cons in Hin as [->|Hin]; [|by eapply IH].
    intros (_ & _ & Hbad); rewrite Etok in Hbad.
    destruct Hbad as [?|[?|?]]; congruence.
Qed.

Lemma getitem_inv {A} (l : list A) (i : nat) w w' x :
  getitem l (Z.of_nat i) w = (w', Ok x) -> (i < length l)%nat.
Proof.
  unfold getitem; intros [= _ Hres].
  destruct (position (length l) (Z.of_nat i)) as [k|] eqn:Ek; [|done].
  unfold position in Ek.
  destruct ((0 <=? Z.of_nat i) && (Z.of_nat i <? Z.of_nat (length l))) eqn:E.
  - apply andb_true_iff in E as [_ E]; lia.
  - destruct ((- Z.of_nat (length l) <=? Z.of_nat i) && (Z.of_nat i <? 0)) eqn:E';
      [|done].
    apply andb_true_iff in E' as [_ E']; lia.
Qed.

Lemma neurons_loop_inv (s : list Z) (X : list W) :
  forall n k acc w w' ns,
    for_each (map Z.of_nat (seq k n)) acc (fun i acc =>
      let* si := getitem s i in
      let* Xi := getitem X i in
      ret (acc ++ [{| id := i + 1; state := si; threshold := Xi |}])) w
    = (w', Ok ns) ->
    (n = 0)%nat \/ ((k + n <= length s)%nat /\ (k + n <= length X)%nat).
Proof.
  induction n as [|n IH]; intros k acc w w' ns.
  { by left. }
  simpl; unfold bind at 1 2.
  destruct (getitem s (Z.of_nat k) w) as [w1 [si|e]] eqn:Es; [|done].
  unfold bind at 1.
  destruct (getitem X (Z.of_nat k) w1) as [w2 [Xi|e]] eqn:EX; [|done].
  unfold ret at 1; intros Hrun; right.
  apply getitem_inv in Es, EX.
  apply IH in Hrun as [->|[? ?]]; lia.
Qed.

Lemma line_at_drop k (lines : list string) :
  line_at 0 (drop k lines) = line_at k lines.
Proof.
  unfold line_at; revert lines; induction k as [|k IH]; intros [|l lines];
    simpl; auto.
Qed.

(** A successful read tells that the input is well-formed. *)
Lemma read_case_inv w w' out :
  _read_stdin_case int_ float_ w = (w', Ok out) ->
  ~ malformed int_ float_ (stdin w).
Proof.
  unfold _read_stdin_case; intros Hrun Hbad.
  destruct (readline_run w) as (w1 & E1 & Hin1).
  rewrite (bind_ok _ _ _ _ _ E1) in Hrun; unfold bind at 1 in Hrun.
  destruct (to_int int_ _ w1) as [w1' [M|e]] eqn:EM; [|done].
  apply to_int_inv in EM as [-> EM].
  destruct (readline_run w1) as (w2 & E2 & Hin2).
  rewrite (bind_ok _ _ _ _ _ E2) in Hrun; unfold bind at 1 in Hrun.
  destruct (list_map _ _ w2) as [w2' [s|e]] eqn:Es; [|done].
  apply list_map_int_inv in Es as (-> & Hs & Hslen).
  destruct (readline_run w2) as (w3 & E3 & Hin3).
  rewrite (bind_ok _ _ _ _ _ E3) in Hrun; unfold bind at 1 in Hrun.
  destruct (list_map _ _ w3) as [w3' [X|e]] eqn:EX; [|done].
  apply list_map_float_inv in EX as (-> & HX & HXlen).
  destruct (readline_run w3) as (w4 & E4 & Hin4).
  rewrite (bind_ok _ _ _ _ _ E4) in Hrun; unfold bind at 1 in Hrun.
  destruct (to_int int_ _ w4) as [w4' [N|e]] eqn:EN; [|done].
  apply to_int_inv in EN as [-> EN].
  unfold bind at 1 in Hrun.
  destruct (read_edges int_ float_ (stdin w4) []) as [rest [conns|e]] eqn:Eedges;
    [|done].
  unfold bind at 1 in Hrun.
  destruct (for_each (range M) _ _ _) as [w5 [ns|e]] eqn:Ens; [|done].
  unfold range in Ens; apply neurons_loop_inv in Ens.
  assert (Hl1 : stdin w1 = drop 1 (stdin w)) by done.
  assert (Hl2 : stdin w2 = drop 2 (stdin w)) by (by rewrite Hin2, Hl1, drop_drop).
  assert (Hl3 : stdin w3 = drop 3 (stdin w)) by (by rewrite Hin3, Hl2, drop_drop).
  assert (Hl4 : stdin w4 = drop 4 (stdin w)) by (by rewrite Hin4, Hl3, drop_drop).
  rewrite Hl1, line_at_drop in Hs, Hslen.
  rewrite Hl2, line_at_drop in HX, HXlen.
  rewrite Hl3, line_at_drop in EN.
  rewrite Hl4 in Eedges.
  destruct Hbad as [HM|tok Htok Hnone|tok Htok Hnone|HN|l Hl Hrec|M' HM Hfew|M' HM Hfew].
  - congruence.
  - eapply Forall_forall in Hs; [|exact Htok]. rewrite Hnone in Hs.
    by destruct Hs.
  - eapply Forall_forall in HX; [|exact Htok]. rewrite Hnone in HX.
    by destruct HX.
  - congruence.
  - by eapply read_edges_inv in Hrec.
  - assert (M' = M) as -> by congruence.
    unfold len in Hfew; destruct Ens; lia.
  - assert (M' = M) as -> by congruence.
    unfold len in Hfew; destruct Ens; lia.
Qed.

(** ** The exceptions of the reader *)

Lemma for_each_raises {A S} (P : exn -> Prop) (xs : list A)
  (body : A -> S -> Py S) :
  (forall x s w w' e, body x s w = (w', Raise e) -> P e) ->
  forall s w w' e, for_each xs s body w = (w', Raise e) -> P e.
Proof.
  intros Hbody; induction xs as [|x xs IH]; intros s w w' e; [done|].
  rewrite for_each_cons.
  destruct (body x s w) as [w1 [s1|e1]] eqn:E.
  - apply IH.
  - intros [= <- <-]. by eapply Hbody.
Qed.

Lemma to_int_raises s w w' e :
  to_int int_ s w = (w', Raise e) -> e = ValueError.
Proof. unfold to_int; destruct (int_ s); [done|]. by intros [= <- <-]. Qed.

Lemma to_float_raises s w w' e :
  to_float float_ s w = (w', Raise e) -> e = ValueError.
Proof. unfold to_float; destruct (float_ s); [done|]. by intros [= <- <-]. Qed.

Lemma list_map_raises {A} (lift : string -> Py A) tokens w w' e :
  (forall tok w w' e, lift tok w = (w', Raise e) -> e = ValueError) ->
  list_map lift tokens w = (w', Raise e) -> e = ValueError.
Proof.
  intros Hlift. unfold list_map.
  apply (for_each_raises (fun e => e = ValueError)).
  intros tok acc w0 w0' e0. unfold bind.
  destruct (lift tok w0) as [w1 [x|e1]] eqn:E; [done|].
  intros [= <- <-]. by eapply Hlift.
Qed.

Lemma read_edges_raises (lines : list string) :
  forall acc rest e,
    read_edges int_ float_ lines acc = (rest, Raise e) -> e = ValueError.
Proof.
  induction lines as [|l lines IH]; intros acc rest e; [done|].
  simpl.
  destruct (String.eqb (strip l) EmptyString); [apply IH|].
  destruct (String.eqb (strip l) "E"); [done|].
  destruct (split (strip l)) as [|ta [|tb [|tx [|? ?]]]];
    try by intros [= <- <-].
  destruct (int_ ta) as [a|]; [|by intros [= <- <-]].
  destruct (int_ tb) as [b|]; [|by intros [= <- <-]].
  destruct (float_ tx) as [x|]; [|by intros [= <- <-]].
  apply IH.
Qed.

Lemma getitem_raises {A} (l : list A) i w w' e :
  getitem l i w = (w', Raise e) -> e = IndexError.
Proof.
  unfold getitem. destruct (position _ _) as [k|]; [|by intros [= <- <-]].
  destruct (l !! k); [done|by intros [= <- <-]].
Qed.

(** The reader raises a ValueError (from [int()], [float()] or the
    unpacking of a record) or an IndexError (from [s[i]] or [X[i]]). *)
Lemma read_case_raises w w' e :
  _read_stdin_case int_ float_ w = (w', Raise e) ->
  e = ValueError \/ e = IndexError.
Proof.
  unfold _read_stdin_case; intros Hrun.
  destruct (readline_run w) as (w1 & E1 & _).
  rewrite (bind_ok _ _ _ _ _ E1) in Hrun; unfold bind at 1 in Hrun.
  destruct (to_int int_ _ w1) as [w1' [M|e1]] eqn:EM;
    [|simplify_eq; left; by eapply to_int_raises].
  destruct (readline_run w1') as (w2 & E2 & _).
  rewrite (bind_ok _ _ _ _ _ E2) in Hrun; unfold bind at 1 in Hrun.
  destruct (list_map _ _ w2) as [w2' [s|e1]] eqn:Es.
  2:{ simplify_eq; left. eapply list_map_raises; [|exact Es].
      apply to_int_raises. }
  destruct (readline_run w2') as (w3 & E3 & _).
  rewrite (bind_ok _ _ _ _ _ E3) in Hrun; unfold bind at 1 in Hrun.
  destruct (list_map _ _ w3) as [w3' [X|e1]] eqn:EX.
  2:{ simplify_eq; left. eapply list_map_raises; [|exact EX].
      apply to_float_raises. }
  destruct (readline_run w3') as (w4 & E4 & _).
  rewrite (bind_ok _ _ _ _ _ E4) in Hrun; unfold bind at 1 in Hrun.
  destruct (to_int int_ _ w4) as [w4' [N|e1]] eqn:EN;
    [|simplify_eq; left; by eapply to_int_raises].
  unfold bind at 1 in Hrun.
  destruct (read_edges int_ float_ (stdin w4') []) as [rest [conns|e1]] eqn:Eedges;
    [|simplify_eq; left; by eapply read_edges_raises].
  unfold bind at 1 in Hrun.
  destruct (for_each (range M) _ _ _) as [w5 [ns|e1]] eqn:Ens; [done|].
  simplify_eq; right.
  eapply (for_each_raises (fun e => e = IndexError)); [|exact Ens].
  intros i acc w0 w0' e0. unfold bind.
  destruct (getitem s i w0) as [w6 [si|e2]] eqn:Esi;
    [|intros [= <- <-]; by eapply getitem_raises].
  destruct (getitem X i w6) as [w7 [xi|e2]] eqn:Exi; [done|].
  intros [= <- <-]; by eapply getitem_raises.
Qed.

End ReaderFacts.

(** * The claims of the specification *)

Section Claims.

Context {W : Type} `{Weight W}.
Implicit Types (w : world W) (ns : list (neuron W)) (t : list subscript).


(** C2 (as amended). For every neuron list and every edge list whose
    endpoints lie in [1, M], one baseline tick returns, and commits to the
    neurons in one go, the states given by the threshold rule applied to the
    states before the tick: neuron i becomes 1 when the sum of the weights
    of the edges (a, b, w) with b - 1 = i and an active source a, added up
    in input order from 0.0, is >= its threshold (equality activates), and 0
    otherwise. *)
Theorem steps_applies_the_threshold_rule (conns : list (edge W)) w :
  valid_edges (len (heap w)) conns ->
  exists t,
    steps conns false w
    = (evolves w (committed (heap w) (threshold_rule (heap w) conns)) [] t,
       Ok (threshold_rule (heap w) conns)).
Proof.
  intros Hv; destruct (steps_valid conns w Hv) as (t & Hrun & _); eauto.
Qed.

(** C3. For every M and every edge list with endpoints in [1, M],
    [build_out_edges] returns a list of M rows, one for each source index u
    in 0..M-1.  In row u each destination index occurs at most once, and
    the entries of the row are exactly these: for every destination index v
    that some edge (a, b, w) with a - 1 = u and b - 1 = v leads to, the pair
    of v and the sum, in input order from 0.0, of the weights of all such
    edges.  No edge is lost and no entry is made up. *)
Theorem build_out_edges_aggregates M (conns : list (edge W)) w :
  valid_edges M conns ->
  exists t oe,
    build_out_edges M conns w = (evolves w (heap w) [] t, Ok oe)
    /\ length oe = Z.to_nat M
    /\ forall (u : nat) row,
         oe !! u = Some row ->
         NoDup row.*1
         /\ forall v y,
              (v, y) ∈ row
              <-> weights_between conns (Z.of_nat u) v <> []
                  /\ y = total (weights_between conns (Z.of_nat u) v).
Proof.
  intros Hv; eexists _, (adjacency M conns); split.
  { apply build_out_edges_run; by apply valid_edges_indexable. }
  split; [apply adjacency_length|].
  intros u row Hrow.
  assert (Hu : (u < Z.to_nat M)%nat).
  { apply lookup_lt_Some in Hrow; by rewrite adjacency_length in Hrow. }
  rewrite adjacency_lookup in Hrow by done; simplify_eq; split.
  - apply row_after_NoDup, NoDup_nil_2.
  - intros v y; split.
    + apply row_entries.
    + intros [Hsome ->].
      destruct (row_entry_exists conns (Z.of_nat u) v Hsome) as [y Hy].
      by destruct (row_entries _ _ _ _ Hy) as [_ <-].
Qed.

(** C4. One baseline tick has the same effect and the same result when the
    edges whose source neuron has state 0 are removed from the edge list,
    and one fast tick is unchanged when the rows of the sources that have
    state 0 are emptied: an inactive neuron contributes nothing, whatever
    its outgoing weights.  This holds for every input. *)
Theorem inactive_sources_contribute_nothing
  (conns : list (edge W)) (oe : list (list (Z * W))) debug w :
  (observable (steps (drop_inactive (heap w) conns) debug w).1
   = observable (steps conns debug w).1
   /\ (steps (drop_inactive (heap w) conns) debug w).2
      = (steps conns debug w).2)
  /\ step_fast (silence (heap w) oe) w = step_fast oe w.
Proof. split; [apply steps_drop_inactive|apply step_fast_silence]. Qed.

(** C5 (as amended). With N = 0, [simulate_N] performs no tick and returns
    the initial states for every edge list; [simulate_fast] does so for
    every edge list whose source indices a - 1 are valid subscripts of a
    list of M elements (which includes every edge list with sources in
    [1, M]): it builds the adjacency before it looks at N. *)
Theorem zero_ticks_return_the_initial_states (conns : list (edge W)) d w :
  simulate_N conns 0 d w = (w, Ok (map state (heap w)))
  /\ (sources_indexable (len (heap w)) conns ->
      exists t,
        simulate_fast conns 0 d w
        = (evolves w (heap w) [] t, Ok (map state (heap w)))).
Proof. split; [apply simulate_N_zero|apply simulate_fast_zero]. Qed.

(** C6. Every tick ([steps], [step_fast]) and every run ([simulate_N],
    [simulate_fast]) leaves the id and the threshold of each neuron as they
    were; only the states change.  This holds for every input, also when
    the tick or the run raises. *)
Theorem ticks_and_runs_keep_the_frame
  (conns : list (edge W)) (oe : list (list (Z * W))) debug N d w :
  same_frame (heap w) (heap (steps conns debug w).1)
  /\ same_frame (heap w) (heap (step_fast oe w).1)
  /\ same_frame (heap w) (heap (simulate_N conns N d w).1)
  /\ same_frame (heap w) (heap (simulate_fast conns N d w).1).
Proof.
  split; [apply framed_steps|].
  split; [apply framed_step_fast|].
  split; [apply framed_simulate_N|apply framed_simulate_fast].
Qed.

(** C8 (as amended). For every input and any two settings of [debug_every]
    that are [None] or a non-zero integer, [simulate_N] returns the same
    result and leaves the same neuron states in both runs, and so does
    [simulate_fast]: the snapshots do not alter the simulation. *)
Theorem snapshots_do_not_alter_the_run (conns : list (edge W)) N d1 d2 w :
  d1 <> Some 0 -> d2 <> Some 0 ->
  ((simulate_N conns N d1 w).2 = (simulate_N conns N d2 w).2
   /\ heap (simulate_N conns N d1 w).1 = heap (simulate_N conns N d2 w).1)
  /\ ((simulate_fast conns N d1 w).2 = (simulate_fast conns N d2 w).2
      /\ heap (simulate_fast conns N d1 w).1
         = heap (simulate_fast conns N d2 w).1).
Proof.
  intros Hd1 Hd2; split.
  - destruct (run_snapshots (steps conns false) N d1 d2 w w) as [Hh Hr];
      [apply heap_only_steps|done..|].
    by split.
  - rewrite !simulate_fast_unfold.
    destruct (build_out_edges _ _ w) as [w1 [oe|e]]; [|done].
    destruct (run_snapshots (step_fast oe) N d1 d2 w1 w1) as [Hh Hr];
      [apply heap_only_step_fast|done..|].
    by split.
Qed.


(** C10. When every edge has both endpoints in [1, M], M the number of
    neurons, [steps], [build_out_edges] and [step_fast] (on the adjacency
    just built) return without raising, and every list subscript they
    evaluate is a subscript of a list of M elements by an index in
    [0, M-1]. *)
Theorem subscripts_stay_in_range (conns : list (edge W)) w :
  valid_edges (len (heap w)) conns ->
  let M := length (heap w) in
  (exists t w' r,
     steps conns false w = (w', Ok r)
     /\ trail w' = trail w ++ t /\ Forall (within M) t)
  /\ (exists t w' oe,
        build_out_edges (len (heap w)) conns w = (w', Ok oe)
        /\ trail w' = trail w ++ t /\ Forall (within M) t
        /\ exists t2 w2 r,
             step_fast oe w = (w2, Ok r)
             /\ trail w2 = trail w ++ t2 /\ Forall (within M) t2).
Proof.
  intros Hv M; split.
  - destruct (steps_valid conns w Hv) as (t & Hrun & Ht).
    by eexists t, _, _.
  - eexists _, _, _; split.
    { apply build_out_edges_run; by apply valid_edges_indexable. }
    split; [done|]. split.
    + unfold len; rewrite Nat2Z.id.
      apply Forall_fmap.
      eapply Forall_impl; [exact Hv|].
      intros [[a b] x]; simpl; intros [Ha _].
      apply within_intro; unfold len in Ha; lia.
    + destruct (step_fast_valid conns w Hv) as (t & Hrun & Ht).
      by eexists t, _, _.
Qed.

End Claims.

Section ReaderClaims.

Context {W : Type} `{Weight W}.
Variable int_ : string -> option Z.
Variable float_ : string -> option W.
Implicit Types (w : world W).

(** C7 (as amended). [_read_stdin_case] raises a ValueError or an
    IndexError, and [solve_stdin], [solve_stdin_fast] and [verify_stdin]
    raise with it before any tick is run and before anything is printed, on
    the inputs that are malformed in one of these ways: the line of M or
    the line of N is not an integer; a token of the states line is not an
    integer or a token of the thresholds line is not a real; there are fewer
    than M states or fewer than M thresholds; a line read before the
    terminator is neither blank nor three tokens that are an integer, an
    integer and a real.  Tokens and blank lines are those of [split()] and
    [strip()], for which NEL and the no-break space are whitespace too. *)
Theorem malformed_input_raises w :
  malformed int_ float_ (stdin w) ->
  exists w' e,
    _read_stdin_case int_ float_ w = (w', Raise e)
    /\ (e = ValueError \/ e = IndexError)
    /\ heap w' = heap w /\ stdout w' = stdout w
    /\ solve_stdin int_ float_ w = (w', Raise e)
    /\ solve_stdin_fast int_ float_ w = (w', Raise e)
    /\ verify_stdin int_ float_ w = (w', Raise e).
Proof.
  intros Hbad.
  destruct (hushed_read_stdin_case int_ float_ w) as [Hh Ho].
  destruct (_read_stdin_case int_ float_ w) as [w' [out|e]] eqn:Hrun.
  - by apply read_case_inv in Hrun.
  - exists w', e; simpl in Hh, Ho.
    split; [done|]. split; [by eapply read_case_raises|].
    unfold solve_stdin, solve_stdin_fast, verify_stdin.
    rewrite !(bind_raise _ _ _ _ _ Hrun); done.
Qed.

End ReaderClaims.

(** ** The claims on concrete cases *)

(** Checks a bound on every edge of a concrete edge list by evaluation. *)
Ltac check_edges :=
  repeat (constructor;
          [vm_compute; repeat split; first [discriminate|reflexivity]|]);
  constructor.



(** The same network in exact arithmetic, with integer weights and integer
    thresholds. *)
Example simulators_agree_on_integer_weights :
  observable (simulate_N exact_edges 3 (Some 2) (boot exact_neurons)).1
  = observable (simulate_fast exact_edges 3 (Some 2) (boot exact_neurons)).1
  /\ (simulate_N exact_edges 3 (Some 2) (boot exact_neurons)).2
     = (simulate_fast exact_edges 3 (Some 2) (boot exact_neurons)).2
  /\ (Some 2 <> Some 0 ->
      is_ok (simulate_N exact_edges 3 (Some 2) (boot exact_neurons)).2 = true).
Proof.
  apply (simulators_agree_in_exact_arithmetic (W:=Z)); simpl;
    first [lia|check_edges].
Qed.

(** What the two simulators return on the small binary64 weights. *)
Example small_float_weights_run :
  (simulate_N (embed float_of_int exact_edges) 1 None
     (boot rounding_neurons)).2 = Ok [0; 0; 1]
  /\ (simulate_fast (embed float_of_int exact_edges) 1 None
        (boot rounding_neurons)).2 = Ok [0; 0; 1].
Proof. split; vm_compute; reflexivity. Qed.

(** C2, counterexample: an edge whose destination is 0 adds its weight to
    the last neuron, which the threshold rule does not prescribe, and an
    edge whose destination is M + 1 makes the tick raise. *)
Lemma steps_outside_the_threshold_rule :
  (steps [(1, 0, 1%float)] false (boot lone_neuron)).2 = Ok [1]
  /\ threshold_rule lone_neuron [(1, 0, 1%float)] = [0]
  /\ (steps [(1, 2, 1%float)] false (boot lone_neuron)).2 = Raise IndexError.
Proof. repeat split; vm_compute; reflexivity. Qed.

(** C2, witness: scenario 2 of the specification. *)
Lemma steps_rule_on_scenario_2 :
  valid_edges (len (heap (boot pair_neurons))) pair_edges
  /\ exists t,
       steps pair_edges false (boot pair_neurons)
       = (evolves (boot pair_neurons)
            (committed (heap (boot pair_neurons))
               (threshold_rule (heap (boot pair_neurons)) pair_edges)) [] t,
          Ok (threshold_rule (heap (boot pair_neurons)) pair_edges)).
Proof.
  assert (Hv : valid_edges (len (heap (boot pair_neurons))) pair_edges)
    by (check_edges).
  split; [exact Hv|].
  apply (steps_applies_the_threshold_rule pair_edges (boot pair_neurons) Hv).
Defined.

(** Scenario 2: a received signal equal to the threshold activates. *)
Example scenario_2 :
  threshold_rule pair_neurons pair_edges = [0; 1]
  /\ (simulate_N pair_edges 1 None (boot pair_neurons)).2 = Ok [0; 1]
  /\ (simulate_fast pair_edges 1 None (boot pair_neurons)).2 = Ok [0; 1].
Proof. repeat split; vm_compute; reflexivity. Qed.

(** Scenario 2 read from standard input by the three entry points. *)
Example scenario_2_from_stdin :
  stdout (solve_stdin int_plain float_plain (input case_scenario_2)).1
  = [Final [0; 1]]
  /\ stdout (solve_stdin_fast int_plain float_plain (input case_scenario_2)).1
     = [Final [0; 1]]
  /\ stdout (verify_stdin int_plain float_plain (input case_scenario_2)).1
     = [Base [0; 1]; Fast [0; 1]; Match true; Times].
Proof. repeat split; vm_compute; reflexivity. Qed.

(** C3, witness. *)
Lemma build_out_edges_on_three_edges :
  valid_edges 3 rounding_edges
  /\ exists t oe,
       build_out_edges 3 rounding_edges (boot rounding_neurons)
       = (evolves (boot rounding_neurons) (heap (boot rounding_neurons)) [] t,
          Ok oe)
       /\ length oe = Z.to_nat 3
       /\ forall (u : nat) row,
            oe !! u = Some row ->
            NoDup row.*1
            /\ forall v y,
                 (v, y) ∈ row
                 <-> weights_between rounding_edges (Z.of_nat u) v <> []
                     /\ y = total (weights_between rounding_edges
                                     (Z.of_nat u) v).
Proof.
  assert (Hv : valid_edges 3 rounding_edges)
    by (check_edges).
  split; [exact Hv|].
  apply (build_out_edges_aggregates 3 rounding_edges (boot rounding_neurons) Hv).
Defined.

(** C5, counterexample: an edge whose source index is not a subscript of the
    neuron list makes [simulate_fast] raise although N = 0. *)
Lemma simulate_fast_raises_before_tick_zero :
  (simulate_fast [(5, 1, 1%float)] 0 None (boot lone_neuron)).2
  = Raise IndexError
  /\ (simulate_N [(5, 1, 1%float)] 0 None (boot lone_neuron)).2 = Ok [1].
Proof. split; vm_compute; reflexivity. Qed.

(** C5, witness. *)
Lemma zero_ticks_on_scenario_2 :
  sources_indexable (len (heap (boot pair_neurons))) pair_edges
  /\ simulate_N pair_edges 0 None (boot pair_neurons)
     = (boot pair_neurons, Ok (map state (heap (boot pair_neurons))))
  /\ exists t,
       simulate_fast pair_edges 0 None (boot pair_neurons)
       = (evolves (boot pair_neurons) (heap (boot pair_neurons)) [] t,
          Ok (map state (heap (boot pair_neurons)))).
Proof.
  assert (Hs : sources_indexable (len (heap (boot pair_neurons))) pair_edges)
    by (check_edges).
  split; [exact Hs|].
  destruct (zero_ticks_return_the_initial_states pair_edges None
              (boot pair_neurons)) as [HN Hfast].
  split; [exact HN|exact (Hfast Hs)].
Defined.

(** C7, counterexample: an input without the terminator line, and an input
    with surplus states and thresholds, are both read without an error and
    simulated. *)
Lemma reader_accepts_missing_terminator_and_surplus_tokens :
  (_read_stdin_case int_plain float_plain
     (input case_without_terminator)).2
  = Ok (pair_neurons, pair_edges, 1)
  /\ stdout (solve_stdin int_plain float_plain
               (input case_without_terminator)).1
     = [Final [0; 1]]
  /\ (_read_stdin_case int_plain float_plain
        (input case_with_surplus)).2
     = Ok (pair_neurons, pair_edges, 1).
Proof. repeat split; vm_compute; reflexivity. Qed.

(** No-break spaces are whitespace for [strip()] and [split()]: a line of
    them is skipped as a blank line, and they separate the tokens of a
    record. *)
Example reader_takes_no_break_spaces_for_whitespace :
  (_read_stdin_case int_plain float_plain
     (input case_with_no_break_spaces)).2
  = Ok (pair_neurons, pair_edges, 1).
Proof. vm_compute. reflexivity. Qed.

(** C7, witness: an edge record of two tokens. *)
Lemma reader_raises_on_a_short_record :
  malformed int_plain float_plain
    (stdin (input case_with_short_record))
  /\ exists w' e,
       _read_stdin_case int_plain float_plain
         (input case_with_short_record) = (w', Raise e)
       /\ (e = ValueError \/ e = IndexError)
       /\ heap w' = heap (input case_with_short_record)
       /\ stdout w' = stdout (input case_with_short_record)
       /\ solve_stdin int_plain float_plain
            (input case_with_short_record) = (w', Raise e)
       /\ solve_stdin_fast int_plain float_plain
            (input case_with_short_record) = (w', Raise e)
       /\ verify_stdin int_plain float_plain
            (input case_with_short_record) = (w', Raise e).
Proof.
  assert (Hbad : malformed int_plain float_plain
                   (stdin (input case_with_short_record))).
  { apply (bad_edge _ _ _ "1 2"%string).
    - simpl. apply list_elem_of_here.
    - split; [vm_compute; discriminate|].
      split; [vm_compute; discriminate|vm_compute; exact I]. }
  split; [exact Hbad|].
  apply (malformed_input_raises int_plain float_plain _ Hbad).
Defined.

(** C8, counterexample: with [debug_every = 0] the first tick is followed by
    a division by zero. *)
Lemma snapshot_period_zero_raises :
  (simulate_N pair_edges 1 (Some 0) (boot pair_neurons)).2
  = Raise ZeroDivisionError
  /\ (simulate_N pair_edges 1 None (boot pair_neurons)).2 = Ok [0; 1].
Proof. split; vm_compute; reflexivity. Qed.

(** C8, witness. *)
Lemma snapshots_on_scenario_2 :
  (None <> Some 0 /\ Some 2 <> Some 0)
  /\ ((simulate_N pair_edges 3 None (boot pair_neurons)).2
      = (simulate_N pair_edges 3 (Some 2) (boot pair_neurons)).2
      /\ heap (simulate_N pair_edges 3 None (boot pair_neurons)).1
         = heap (simulate_N pair_edges 3 (Some 2) (boot pair_neurons)).1)
  /\ ((simulate_fast pair_edges 3 None (boot pair_neurons)).2
      = (simulate_fast pair_edges 3 (Some 2) (boot pair_neurons)).2
      /\ heap (simulate_fast pair_edges 3 None (boot pair_neurons)).1
         = heap (simulate_fast pair_edges 3 (Some 2) (boot pair_neurons)).1).
Proof.
  assert (H1 : @None Z <> Some 0) by discriminate.
  assert (H2 : Some 2 <> Some 0) by discriminate.
  split; [by split|].
  apply (snapshots_do_not_alter_the_run pair_edges 3 None (Some 2)
           (boot pair_neurons) H1 H2).
Defined.


(** C10, witness. *)
Lemma subscripts_on_three_edges :
  valid_edges (len (heap (boot rounding_neurons))) rounding_edges
  /\ ((exists t w' r,
         steps rounding_edges false (boot rounding_neurons) = (w', Ok r)
         /\ trail w' = trail (boot rounding_neurons) ++ t
         /\ Forall (within (length (heap (boot rounding_neurons)))) t)
      /\ (exists t w' oe,
            build_out_edges (len (heap (boot rounding_neurons))) rounding_edges
              (boot rounding_neurons) = (w', Ok oe)
            /\ trail w' = trail (boot rounding_neurons) ++ t
            /\ Forall (within (length (heap (boot rounding_neurons)))) t
            /\ exists t2 w2 r,
                 step_fast oe (boot rounding_neurons) = (w2, Ok r)
                 /\ trail w2 = trail (boot rounding_neurons) ++ t2
                 /\ Forall (within (length (heap (boot rounding_neurons)))) t2)).
Proof.
  assert (Hv : valid_edges (len (heap (boot rounding_neurons))) rounding_edges)
    by (check_edges).
  split; [exact Hv|].
  apply (subscripts_stay_in_range rounding_edges (boot rounding_neurons) Hv).
Defined.

(** * Facts for the further properties *)

Section Silence.

Context {W : Type} `{Weight W}.
Implicit Types (w : world W) (ns : list (neuron W)).
Local Abbreviation silent := (silent (W:=W)).
Local Abbreviation deaf := (deaf (W:=W)).

Lemma silent_ret {A} (x : A) : silent (ret x).
Proof. by intros w. Qed.

Lemma silent_raise {A} e : silent (@raise W A e).
Proof. by intros w. Qed.

Lemma silent_bind {A B} (m : Py A) (k : A -> Py B) :
  silent m -> (forall x, silent (k x)) -> silent (bind m k).
Proof.
  intros Hm Hk w; unfold bind.
  destruct (Hm w) as [Hi Ho]. destruct (m w) as [w1 [x|e]]; [|done].
  destruct (Hk x w1) as [Hi' Ho']; simpl in *; split; congruence.
Qed.

Lemma silent_for_each {A S} (xs : list A) (body : A -> S -> Py S) :
  (forall x s, silent (body x s)) -> forall s, silent (for_each xs s body).
Proof.
  intros Hbody; induction xs as [|x xs IH]; intros s; simpl.
  - apply silent_ret.
  - apply silent_bind; [apply Hbody|intros s'; apply IH].
Qed.

Lemma silent_of_reads {A} (m : Py A) : reads m -> silent m.
Proof.
  intros Hm w; destruct (Hm w) as [t ->]; simpl; by rewrite app_nil_r.
Qed.

Lemma silent_store_state i s : silent (@store_state W i s).
Proof.
  unfold store_state; apply silent_bind.
  - apply silent_of_reads; unfold neuron_at; structural.
  - intros n w; by destruct (position _ _).
Qed.

Lemma deaf_of_silent {A} (m : Py A) : silent m -> deaf m.
Proof. intros Hm w; by destruct (Hm w). Qed.

Lemma deaf_bind {A B} (m : Py A) (k : A -> Py B) :
  deaf m -> (forall x, deaf (k x)) -> deaf (bind m k).
Proof.
  intros Hm Hk w; unfold bind.
  pose proof (Hm w) as Hi. destruct (m w) as [w1 [x|e]]; [|done].
  pose proof (Hk x w1) as Hi'; simpl in *; congruence.
Qed.

Lemma deaf_for_each {A S} (xs : list A) (body : A -> S -> Py S) :
  (forall x s, deaf (body x s)) -> forall s, deaf (for_each xs s body).
Proof.
  intros Hbody; induction xs as [|x xs IH]; intros s; simpl.
  - by intros w.
  - apply deaf_bind; [apply Hbody|intros s'; apply IH].
Qed.

Lemma deaf_print o : deaf (@print W o).
Proof. by intros w. Qed.

Lemma silent_commit M new : silent (@commit W M new).
Proof.
  unfold commit; apply silent_for_each; intros i [].
  apply silent_bind; [apply silent_of_reads, reads_getitem|].
  intros s; apply silent_store_state.
Qed.

Lemma silent_tick_of (phase : list W -> Py (list W)) :
  (forall r, reads (phase r)) -> silent (tick_of phase false).
Proof.
  intros Hphase; unfold tick_of.
  apply silent_bind; [apply silent_of_reads, reads_len_neurons|intros M].
  apply silent_bind; [apply silent_of_reads, Hphase|intros r].
  apply silent_bind; [apply silent_ret|intros _].
  apply silent_bind; [apply silent_of_reads, reads_decide_states|intros new].
  apply silent_bind; [apply silent_commit|intros _].
  apply silent_of_reads, reads_states.
Qed.

Lemma deaf_tick_of (phase : list W -> Py (list W)) debug :
  (forall r, reads (phase r)) -> deaf (tick_of phase debug).
Proof.
  intros Hphase; unfold tick_of.
  apply deaf_bind; [apply deaf_of_silent, silent_of_reads, reads_len_neurons|intros M].
  apply deaf_bind; [apply deaf_of_silent, silent_of_reads, Hphase|intros r].
  apply deaf_bind; [destruct debug; [apply deaf_print|by intros w]|intros _].
  apply deaf_bind; [apply deaf_of_silent, silent_of_reads, reads_decide_states|intros new].
  apply deaf_bind; [apply deaf_of_silent, silent_commit|intros _].
  apply deaf_of_silent, silent_of_reads, reads_states.
Qed.

Lemma silent_steps (conns : list (edge W)) : silent (steps conns false).
Proof. rewrite steps_is_tick; apply silent_tick_of, reads_send. Qed.

Lemma silent_step_fast (oe : list (list (Z * W))) : silent (step_fast oe).
Proof. rewrite step_fast_is_tick; apply silent_tick_of, reads_send_fast. Qed.

Lemma deaf_steps (conns : list (edge W)) debug : deaf (steps conns debug).
Proof. rewrite steps_is_tick; apply deaf_tick_of, reads_send. Qed.

Lemma deaf_snapshot d (tk : Z) : deaf (snapshot (W:=W) d tk).
Proof.
  intros w; unfold snapshot; destruct d as [k|]; [|done].
  destruct (k =? 0); [done|]. by destruct (tk mod k =? 0).
Qed.

Lemma silent_run (step : Py (list Z)) N :
  silent step ->
  silent (for_each (range1 N) tt (fun tk _ => step;;; snapshot None tk);;; states).
Proof.
  intros Hstep. apply silent_bind; [|intros _; apply silent_of_reads, reads_states].
  apply silent_for_each; intros tk [].
  apply silent_bind; [done|intros _; apply silent_ret].
Qed.

Lemma deaf_run (step : Py (list Z)) N d :
  deaf step ->
  deaf (for_each (range1 N) tt (fun tk _ => step;;; snapshot d tk);;; states).
Proof.
  intros Hstep.
  apply deaf_bind;
    [|intros _; apply deaf_of_silent, silent_of_reads, reads_states].
  apply deaf_for_each; intros tk [].
  apply deaf_bind; [done|intros _; apply deaf_snapshot].
Qed.

Lemma silent_simulate_N (conns : list (edge W)) N :
  silent (simulate_N conns N None).
Proof. apply silent_run, silent_steps. Qed.

Lemma silent_simulate_fast (conns : list (edge W)) N :
  silent (simulate_fast conns N None).
Proof.
  unfold simulate_fast.
  apply silent_bind; [apply silent_of_reads, reads_len_neurons|intros M].
  apply silent_bind; [apply silent_of_reads, reads_build_out_edges|intros oe].
  apply silent_run, silent_step_fast.
Qed.

Lemma deaf_simulate_N (conns : list (edge W)) N d :
  deaf (simulate_N conns N d).
Proof. apply deaf_run, deaf_steps. Qed.

Lemma deaf_simulate_fast (conns : list (edge W)) N d :
  deaf (simulate_fast conns N d).
Proof.
  unfold simulate_fast.
  apply deaf_bind; [apply deaf_of_silent, silent_of_reads, reads_len_neurons|intros M].
  apply deaf_bind; [apply deaf_of_silent, silent_of_reads, reads_build_out_edges|intros oe].
  apply deaf_run, deaf_of_silent, silent_step_fast.
Qed.

End Silence.

Section Runs.

Context {W : Type} `{Weight W}.
Implicit Types (w : world W) (ns : list (neuron W)).
Local Abbreviation heap_only := (heap_only (W:=W)).

Lemma for_each_app {A S} (xs ys : list A) (s : S) (body : A -> S -> Py S) w :
  for_each (xs ++ ys) s body w
  = (let* s' := for_each xs s body in for_each ys s' body) w.
Proof.
  revert s w; induction xs as [|x xs IH]; intros s w.
  - unfold bind; done.
  - rewrite <- app_comm_cons, for_each_cons. unfold bind.
    rewrite for_each_cons.
    destruct (body x s w) as [w1 [s1|e]]; [|done].
    rewrite IH; done.
Qed.

Lemma seq_shifted (a n : nat) :
  forall s : nat,
    map Z.of_nat (seq (s + a) n)
    = map (Z.add (Z.of_nat a)) (map Z.of_nat (seq s n)).
Proof.
  induction n as [|n IH]; intros s; [done|].
  simpl; f_equal; [lia|apply (IH (S s))].
Qed.

Lemma range1_add N1 N2 :
  0 <= N1 -> 0 <= N2 ->
  range1 (N1 + N2) = range1 N1 ++ map (Z.add N1) (range1 N2).
Proof.
  intros H1 H2; unfold range1.
  rewrite Z2Nat.inj_add, seq_app, map_app by lia. f_equal.
  rewrite seq_shifted, Z2Nat.id by lia. done.
Qed.

(** Without snapshots the loop of a driver does not look at the tick number. *)
Lemma loop_renumbered (step : Py (list Z)) (f : Z -> Z) (ts : list Z) w :
  for_each (map f ts) tt (fun tk _ => step;;; snapshot None tk) w
  = for_each ts tt (fun tk _ => step;;; snapshot None tk) w.
Proof.
  revert w; induction ts as [|tk ts IH]; intros w; [done|].
  simpl map; rewrite !for_each_cons.
  change (snapshot (W:=W) None (f tk)) with (snapshot (W:=W) None tk).
  destruct ((step;;; snapshot None tk) w) as [w1 [[]|e]]; [apply IH|done].
Qed.

Lemma simulate_N_add (conns : list (edge W)) N1 N2 w :
  0 <= N1 -> 0 <= N2 ->
  simulate_N conns (N1 + N2) None w
  = (simulate_N conns N1 None;;; simulate_N conns N2 None) w.
Proof.
  intros H1 H2; unfold simulate_N.
  rewrite range1_add by done.
  unfold bind at 1. rewrite for_each_app.
  unfold bind at 1 4 5.
  destruct (for_each (range1 N1) tt _ w) as [w1 [[]|e]]; [|done].
  rewrite loop_renumbered. done.
Qed.

Lemma heap_only_run (step : Py (list Z)) N d :
  heap_only step ->
  heap_only (for_each (range1 N) tt (fun tk _ => step;;; snapshot d tk);;; states).
Proof.
  intros Hstep. apply heap_only_bind; [|intros _; apply heap_only_states].
  apply heap_only_for_each; intros tk [].
  apply heap_only_bind; [done|intros _; apply heap_only_snapshot].
Qed.

Lemma heap_only_simulate_N (conns : list (edge W)) N d :
  heap_only (simulate_N conns N d).
Proof. apply heap_only_run, heap_only_steps. Qed.

Lemma heap_only_simulate_fast (conns : list (edge W)) N d :
  heap_only (simulate_fast conns N d).
Proof.
  unfold simulate_fast.
  apply heap_only_bind; [apply heap_only_len_neurons|intros M].
  apply heap_only_bind; [apply heap_only_build_out_edges|intros oe].
  apply heap_only_run, heap_only_step_fast.
Qed.

(** Two neuron lists with the same ids, thresholds and states are equal. *)
Lemma same_frame_states ns ns' :
  same_frame ns ns' -> map state ns' = map state ns -> ns' = ns.
Proof.
  intros [Hid Hth] Hst.
  revert ns' Hid Hth Hst; induction ns as [|n ns IH]; intros [|n' ns'] Hid Hth Hst;
    try done.
  simpl in *; simplify_eq. f_equal; [|by apply IH].
  destruct n, n'; simpl in *; congruence.
Qed.

(** A driver returns the states it leaves in the neurons. *)
Lemma run_returns_states (step : Py (list Z)) N d w w' r :
  (for_each (range1 N) tt (fun tk _ => step;;; snapshot d tk);;; states) w
  = (w', Ok r) ->
  r = map state (heap w').
Proof.
  unfold bind at 1.
  destruct (for_each _ _ _ w) as [w1 [[]|e]]; [|done].
  unfold states, neurons, bind, ret; simpl. by intros [= <- <-].
Qed.

Lemma simulate_N_period (conns : list (edge W)) p w :
  1 <= p ->
  (simulate_N conns p None w).2 = Ok (map state (heap w)) ->
  forall n : nat,
    heap (simulate_N conns (Z.of_nat n) None w).1
    = heap (simulate_N conns (Z.of_nat n mod p) None w).1
    /\ (simulate_N conns (Z.of_nat n) None w).2
       = (simulate_N conns (Z.of_nat n mod p) None w).2.
Proof.
  intros Hp Hcycle n.
  induction (lt_wf n) as [n _ IH].
  destruct (Z_lt_le_dec (Z.of_nat n) p) as [Hlt|Hge].
  - rewrite Z.mod_small by lia. done.
  - replace (Z.of_nat n) with (p + Z.of_nat (n - Z.to_nat p)) at 1 3 by lia.
    rewrite !simulate_N_add by lia.
    unfold bind.
    destruct (simulate_N conns p None w) as [w1 [r|e]] eqn:Hrun; [|done].
    simpl in Hcycle; simplify_eq.
    assert (Hheap : heap w1 = heap w).
    { apply same_frame_states.
      - pose proof (framed_simulate_N conns p None w) as Hf.
        by rewrite Hrun in Hf.
      - apply run_returns_states in Hrun. congruence. }
    destruct (heap_only_simulate_N conns (Z.of_nat (n - Z.to_nat p)) None
                w1 w Hheap) as [-> ->].
    destruct (IH (n - Z.to_nat p)%nat) as [-> ->]; [lia|].
    replace (Z.of_nat (n - Z.to_nat p) mod p) with (Z.of_nat n mod p); [done|].
    replace (Z.of_nat n) with (Z.of_nat (n - Z.to_nat p) + 1 * p) by lia.
    by rewrite Z.mod_add by lia.
Qed.

End Runs.

Section ClosedRunFacts.

Context {W : Type} `{Weight W}.
Implicit Types (w : world W) (ns : list (neuron W)).

Lemma repeated_length (M : nat) (f : list (neuron W) -> list (neuron W)) :
  (forall ns, length ns = M -> length (f ns) = M) ->
  forall n ns, length ns = M -> length (repeated f n ns) = M.
Proof.
  intros Hf; induction n as [|n IH]; intros ns Hns; [done|].
  simpl; apply IH, Hf, Hns.
Qed.

Lemma snapshot_run d (tk : Z) w :
  d <> Some 0 ->
  snapshot d tk w
  = (evolves w (heap w)
       (match d with
        | Some k => if tk mod k =? 0 then [Step tk (map state (heap w))] else []
        | None => []
        end) [], Ok tt).
Proof.
  intros Hd; unfold snapshot; destruct d as [k|].
  - destruct (k =? 0) eqn:Ek; [apply Z.eqb_eq in Ek; congruence|].
    destruct (tk mod k =? 0).
    + unfold states, neurons, bind, ret, print, evolves; simpl.
      by rewrite app_nil_r.
    + by rewrite evolves_id.
  - by rewrite evolves_id.
Qed.

Lemma step_lines_cons d (f : list (neuron W) -> list (neuron W)) j tk ts ns :
  Forall (fun t => j + 1 < t) ts -> tk = j + 1 ->
  step_lines d f j (tk :: ts) ns
  = match d with
    | Some k => if tk mod k =? 0 then [Step tk (map state (f ns))] else []
    | None => []
    end ++ step_lines d f (j + 1) ts (f ns).
Proof.
  intros Hts ->; unfold step_lines; destruct d as [k|]; [|done].
  assert (Htail :
    map (fun t => @Step W t (map state (repeated f (Z.to_nat (t - j)) ns)))
      (List.filter (fun t => t mod k =? 0) ts)
    = map (fun t => Step t (map state (repeated f (Z.to_nat (t - (j + 1))) (f ns))))
        (List.filter (fun t => t mod k =? 0) ts)).
  { apply map_ext_in; intros t Ht.
    apply filter_In in Ht as [Ht _].
    rewrite Forall_forall in Hts. apply list_elem_of_In, Hts in Ht.
    replace (Z.to_nat (t - j)) with (S (Z.to_nat (t - (j + 1)))) by lia.
    done. }
  simpl List.filter. destruct ((j + 1) mod k =? 0); simpl.
  - replace (Z.to_nat (j + 1 - j)) with 1%nat by lia. simpl. by rewrite Htail.
  - exact Htail.
Qed.

(** The loop of a driver over a stepper that applies [f] to the neurons, as
    long as they meet the invariant [P]; [Q] holds of the subscripts. *)
Lemma run_loop_closed (P : list (neuron W) -> Prop) (Q : subscript -> Prop)
  (f : list (neuron W) -> list (neuron W)) (step : Py (list Z)) d :
  (forall ns, P ns -> P (f ns)) ->
  (forall w, P (heap w) ->
     exists t, step w = (evolves w (f (heap w)) [] t, Ok (map state (f (heap w))))
               /\ Forall Q t) ->
  d <> Some 0 ->
  forall (n j : nat) w,
    P (heap w) ->
    exists t,
      for_each (map Z.of_nat (seq (S j) n)) tt (fun tk _ => step;;; snapshot d tk) w
      = (evolves w (repeated f n (heap w))
           (step_lines d f (Z.of_nat j) (map Z.of_nat (seq (S j) n)) (heap w)) t,
         Ok tt)
      /\ Forall Q t.
Proof.
  intros Hf Hstep Hd; induction n as [|n IH]; intros j w Hw.
  - exists []; split; [|done]. simpl.
    unfold step_lines; destruct d; simpl; by rewrite evolves_id.
  - change (seq (S j) (S n)) with (S j :: seq (S (S j)) n).
    simpl map. rewrite for_each_cons, then_eval.
    destruct (Hstep w Hw) as (t1 & Hrun & Ht1). rewrite Hrun.
    rewrite snapshot_run by done.
    set (w2 := evolves (evolves w _ _ _) _ _ _).
    destruct (IH (S j) w2) as (t2 & Hloop & Ht2).
    { unfold w2; simpl. by apply Hf. }
    rewrite Hloop. exists (t1 ++ [] ++ t2). split.
    + unfold w2. rewrite !evolves_evolves. simpl heap.
      rewrite (step_lines_cons d f (Z.of_nat j) (Z.of_nat (S j))).
      * replace (Z.of_nat j + 1) with (Z.of_nat (S j)) by lia.
        simpl. done.
      * apply Forall_forall; intros t Ht.
        apply list_elem_of_In, in_map_iff in Ht as (k & <- & Hk).
        apply in_seq in Hk. lia.
      * lia.
    + rewrite !Forall_app; done.
Qed.

Lemma run_closed (P : list (neuron W) -> Prop) (Q : subscript -> Prop)
  (f : list (neuron W) -> list (neuron W)) (step : Py (list Z)) d N w :
  (forall ns, P ns -> P (f ns)) ->
  (forall w, P (heap w) ->
     exists t, step w = (evolves w (f (heap w)) [] t, Ok (map state (f (heap w))))
               /\ Forall Q t) ->
  d <> Some 0 -> P (heap w) ->
  exists t,
    (for_each (range1 N) tt (fun tk _ => step;;; snapshot d tk);;; states) w
    = (evolves w (repeated f (Z.to_nat N) (heap w))
         (step_lines d f 0 (range1 N) (heap w)) t,
       Ok (map state (repeated f (Z.to_nat N) (heap w))))
    /\ Forall Q t.
Proof.
  intros Hf Hstep Hd Hw.
  destruct (run_loop_closed P Q f step d Hf Hstep Hd (Z.to_nat N) 0 w Hw)
    as (t & Hloop & Ht).
  exists t; split; [|done].
  rewrite then_eval. unfold range1. rewrite Hloop. done.
Qed.

Lemma deliver_fast_length ns (oe : list (list (Z * W))) (r : list W) :
  length (deliver_fast ns oe r) = length r.
Proof.
  unfold deliver_fast. generalize (enumerate ns); intros es.
  revert r; induction es as [|[u nu] es IH]; intros r; [done|].
  simpl. rewrite IH.
  destruct (state nu =? 1); [|done].
  destruct (oe !! Z.to_nat u); [|done]. by rewrite pour_length.
Qed.

Lemma tick_run (conns : list (edge W)) w :
  valid_edges (len (heap w)) conns ->
  exists t,
    steps conns false w
    = (evolves w (tick conns (heap w)) [] t, Ok (map state (tick conns (heap w))))
    /\ Forall (within (length (heap w))) t.
Proof.
  intros Hv; destruct (steps_valid conns w Hv) as (t & Hrun & Ht).
  exists t; split; [|done]. rewrite Hrun; unfold tick.
  by rewrite committed_states by apply threshold_rule_length.
Qed.

Lemma simulate_N_run (conns : list (edge W)) N d w :
  valid_edges (len (heap w)) conns -> d <> Some 0 ->
  exists t,
    simulate_N conns N d w
    = (evolves w (after_ticks (Z.to_nat N) (heap w) conns)
         (snapshot_lines d N (heap w) conns) t,
       Ok (map state (after_ticks (Z.to_nat N) (heap w) conns)))
    /\ Forall (within (length (heap w))) t.
Proof.
  intros Hv Hd.
  apply (run_closed (fun ns => length ns = length (heap w))
           (within (length (heap w))) (tick conns)); try done.
  - intros ns Hns; unfold tick; by rewrite tick_length.
  - intros w0 Hw0; rewrite <- Hw0; apply tick_run.
    unfold len in *; by rewrite Hw0.
Qed.

Lemma fast_tick_length oe ns : length (fast_tick oe ns) = length ns.
Proof.
  unfold fast_tick. apply committed_length, next_states_length.
  by rewrite deliver_fast_length, length_replicate.
Qed.

Lemma fast_tick_run (conns : list (edge W)) w :
  valid_edges (len (heap w)) conns ->
  exists t,
    step_fast (adjacency (len (heap w)) conns) w
    = (evolves w (fast_tick (adjacency (len (heap w)) conns) (heap w)) [] t,
       Ok (map state (fast_tick (adjacency (len (heap w)) conns) (heap w))))
    /\ Forall (within (length (heap w))) t.
Proof.
  intros Hv; destruct (step_fast_valid conns w Hv) as (t & Hrun & Ht).
  exists t; split; [|done]. rewrite Hrun; unfold fast_tick.
  rewrite committed_states; [done|].
  apply next_states_length. by rewrite deliver_fast_length, length_replicate.
Qed.

Lemma build_trail_within M (conns : list (edge W)) :
  valid_edges M conns ->
  Forall (within (Z.to_nat M))
    (map (fun '(a, _, _) => (Z.to_nat M, a - 1)) conns).
Proof.
  intros Hv. apply Forall_fmap.
  eapply Forall_impl; [exact Hv|].
  intros [[a b] x]; simpl; intros [Ha _].
  apply within_intro; lia.
Qed.

Lemma simulate_fast_run (conns : list (edge W)) N d w :
  valid_edges (len (heap w)) conns -> d <> Some 0 ->
  exists t,
    simulate_fast conns N d w
    = (evolves w
         (repeated (fast_tick (adjacency (len (heap w)) conns)) (Z.to_nat N)
            (heap w))
         (step_lines d (fast_tick (adjacency (len (heap w)) conns)) 0
            (range1 N) (heap w)) t,
       Ok (map state
             (repeated (fast_tick (adjacency (len (heap w)) conns))
                (Z.to_nat N) (heap w))))
    /\ Forall (within (length (heap w))) t.
Proof.
  intros Hv Hd.
  rewrite simulate_fast_unfold.
  rewrite build_out_edges_run by (by apply valid_edges_indexable).
  set (oe := adjacency _ _).
  set (t0 := map (fun '(a, _, _) => (Z.to_nat (len (heap w)), a - 1)) conns).
  destruct (run_closed (fun ns => length ns = length (heap w))
              (within (length (heap w))) (fast_tick oe) (step_fast oe) d N
              (evolves w (heap w) [] t0)) as (t & Hrun & Ht); try done.
  - intros ns Hns; cbv beta; by rewrite fast_tick_length.
  - intros w0 Hw0.
    assert (Hv0 : valid_edges (len (heap w0)) conns)
      by (unfold len in *; by rewrite Hw0).
    destruct (fast_tick_run conns w0 Hv0) as (t1 & Hrun & Ht1).
    exists t1. unfold oe. unfold len in *. rewrite <- Hw0. done.
  - exists (t0 ++ t). simpl heap in Hrun. rewrite Hrun.
    rewrite evolves_evolves. split; [done|].
    apply Forall_app; split; [|done].
    pose proof (build_trail_within _ _ Hv) as Hb.
    unfold t0, len in *. by rewrite Nat2Z.id in Hb |- *.
Qed.

End ClosedRunFacts.

Section Errors.

Context {W : Type} `{Weight W}.
Implicit Types (w : world W) (ns : list (neuron W)) (r : list W).

Lemma position_indexable n i :
  indexable n i = true <-> (exists k, position n i = Some k /\ (k < n)%nat).
Proof.
  unfold indexable, position; split.
  - intros Hi. apply andb_prop in Hi as [Hlo Hhi].
    destruct (0 <=? i) eqn:E0; simpl.
    + rewrite Hhi. exists (Z.to_nat i); split; [done|lia].
    + rewrite Hlo. assert ((i <? 0) = true) as -> by lia; simpl.
      exists (Z.to_nat (Z.of_nat n + i)); split; [done|lia].
  - intros (k & Hk & _).
    destruct ((0 <=? i) && (i <? Z.of_nat n)) eqn:E1; [lia|].
    destruct ((- Z.of_nat n <=? i) && (i <? 0)) eqn:E2; [lia|done].
Qed.

Lemma position_not_indexable n i :
  indexable n i = false -> position n i = None.
Proof.
  intros Hi; destruct (position n i) as [k|] eqn:Hk; [|done].
  assert (indexable n i = true); [|congruence].
  apply position_indexable; exists k; split; [done|by eapply position_lt].
Qed.

Lemma item_indexable {A} (l : list A) i :
  is_Some (item l i) <-> indexable (length l) i = true.
Proof.
  unfold item; split.
  - intros [x Hx]. destruct (position _ _) as [k|] eqn:Hk; [|done].
    apply position_indexable; exists k; split; [done|by eapply position_lt].
  - intros (k & -> & Hk)%position_indexable. by apply lookup_lt_is_Some_2.
Qed.

Lemma item_add_indexable r i x :
  is_Some (item_add r i x) <-> indexable (length r) i = true.
Proof.
  unfold item_add; split.
  - intros [x' Hx]. destruct (position _ _) as [k|] eqn:Hk; [|done].
    apply position_indexable; exists k; split; [done|by eapply position_lt].
  - intros (k & -> & Hk)%position_indexable.
    destruct (lookup_lt_is_Some_2 r k Hk) as [y ->]. done.
Qed.

Lemma item_add_length r i x r' :
  item_add r i x = Some r' -> length r' = length r.
Proof.
  unfold item_add; destruct (position _ _) as [k|]; [|done].
  destruct (r !! k); [|done]. intros [= <-]. by rewrite length_insert.
Qed.

Lemma neuron_at_eval i w :
  neuron_at i w
  = (log (length (heap w), i) w,
     match item (heap w) i with Some n => Ok n | None => Raise IndexError end).
Proof.
  unfold neuron_at, neurons, bind, getitem, item; simpl.
  destruct (position _ _) as [k|]; [|done]. by destruct (heap w !! k).
Qed.

Lemma iadd_eval r i x w :
  exists t,
    iadd r i x w
    = (evolves w (heap w) [] t,
       match item_add r i x with Some r' => Ok r' | None => Raise IndexError end).
Proof.
  unfold iadd, bind, getitem, setitem, item_add.
  destruct (position (length r) i) as [k|] eqn:Hk.
  - destruct (r !! k) as [y|].
    + exists [(length r, i); (length r, i)].
      rewrite !log_evolves, evolves_evolves. done.
    + exists [(length r, i)]. by rewrite log_evolves.
  - exists [(length r, i)]. by rewrite log_evolves.
Qed.

(** Phase 2 of [steps] on any edge list. *)
Lemma send_eval (conns : list (edge W)) :
  forall r w,
    exists t,
      send conns r w
      = (evolves w (heap w) [] t,
         match accumulate (heap w) conns r with
         | Some r' => Ok r'
         | None => Raise IndexError
         end).
Proof.
  induction conns as [|[[a b] x] conns IH]; intros r w.
  - exists []; simpl. unfold ret. by rewrite evolves_id.
  - unfold send; rewrite for_each_cons. unfold bind at 1.
    rewrite neuron_at_eval. simpl accumulate.
    destruct (item (heap w) (a - 1)) as [na|].
    + destruct (state na =? 1).
      * destruct (iadd_eval r (b - 1) x (log (length (heap w), a - 1) w))
          as [t1 ->].
        destruct (item_add r (b - 1) x) as [r'|].
        -- destruct (IH r' (evolves (log (length (heap w), a - 1) w)
                        (heap (log (length (heap w), a - 1) w)) [] t1))
             as [t2 Hrun].
           unfold send in Hrun; rewrite Hrun.
           exists ([(length (heap w), a - 1)] ++ t1 ++ t2).
           rewrite log_evolves, !evolves_evolves. done.
        -- exists ([(length (heap w), a - 1)] ++ t1).
           rewrite log_evolves, !evolves_evolves. done.
      * cbv beta iota.
        change (ret r (log (length (heap w), a - 1) w))
          with (log (length (heap w), a - 1) w, Ok r).
        cbv beta iota.
        destruct (IH r (log (length (heap w), a - 1) w)) as [t2 Hrun].
        unfold send in Hrun. rewrite Hrun.
        exists ([(length (heap w), a - 1)] ++ t2).
        rewrite log_evolves, !evolves_evolves. done.
    + exists [(length (heap w), a - 1)]. by rewrite log_evolves.
Qed.

Lemma source_state_item ns a : source_state ns a = state <$> item ns (a - 1).
Proof. unfold source_state, item. by destruct (position _ _). Qed.

Lemma accumulate_deliverable ns (conns : list (edge W)) :
  forall r,
    length r = length ns ->
    is_Some (accumulate ns conns r) <-> forallb (deliverable ns) conns = true.
Proof.
  induction conns as [|[[a b] x] conns IH]; intros r Hr.
  { split; [done|intros _; by eexists]. }
  simpl. rewrite source_state_item.
  destruct (item ns (a - 1)) as [na|]; simpl; [|split; [by intros [? ?]|done]].
  destruct (state na =? 1).
  - pose proof (item_add_indexable r (b - 1) x) as Hadd.
    rewrite Hr in Hadd.
    destruct (item_add r (b - 1) x) as [r'|] eqn:E.
    + assert (indexable (length ns) (b - 1) = true) as ->
        by (apply Hadd; by eexists).
      simpl.
      apply IH. by rewrite (item_add_length _ _ _ _ E).
    + destruct (indexable (length ns) (b - 1)); simpl.
      * destruct Hadd as [_ Hadd]. by destruct Hadd as [? ?].
      * split; [by intros [? ?]|done].
  - by apply IH.
Qed.

Lemma steps_is_ok (conns : list (edge W)) debug w :
  is_ok (steps conns debug w).2 = forallb (deliverable (heap w)) conns.
Proof.
  pose proof (steps_run conns debug w) as Hrun.
  destruct (send_eval conns (replicate (length (heap w)) w_zero) w) as [t Hsend].
  rewrite Hsend in Hrun.
  pose proof (accumulate_deliverable (heap w) conns
                (replicate (length (heap w)) w_zero)
                (length_replicate _ _)) as Hacc.
  destruct (accumulate _ _ _) as [r'|].
  - destruct Hrun as (_ & t' & -> & _). simpl.
    symmetry; apply Hacc; by eexists.
  - rewrite Hrun; simpl.
    destruct (forallb _ _); [|done].
    destruct Hacc as [_ Hacc]. by destruct Hacc as [? ?].
Qed.

Lemma steps_raise (conns : list (edge W)) debug w w' e :
  steps conns debug w = (w', Raise e) ->
  e = IndexError /\ observable w' = observable w.
Proof.
  pose proof (steps_run conns debug w) as Hrun.
  destruct (send_eval conns (replicate (length (heap w)) w_zero) w) as [t Hsend].
  rewrite Hsend in Hrun.
  destruct (accumulate _ _ _) as [r'|].
  - destruct Hrun as (_ & t' & -> & _). done.
  - rewrite Hrun. intros [= <- <-]. split; [done|].
    unfold observable; simpl. by rewrite app_nil_r.
Qed.

(** ** Aliases *)

Lemma position_alias (n : nat) a :
  position n (alias (Z.of_nat n) a - 1) = position n (a - 1).
Proof.
  unfold alias.
  destruct ((1 - Z.of_nat n <=? a) && (a <=? 0)) eqn:E; [|done].
  unfold position.
  assert ((0 <=? a + Z.of_nat n - 1) && (a + Z.of_nat n - 1 <? Z.of_nat n) = true)
    as -> by lia.
  assert ((0 <=? a - 1) && (a - 1 <? Z.of_nat n) = false) as -> by lia.
  assert ((- Z.of_nat n <=? a - 1) && (a - 1 <? 0) = true) as -> by lia.
  f_equal; lia.
Qed.

Lemma accumulate_unwrapped ns (conns : list (edge W)) :
  forall r,
    length r = length ns ->
    accumulate ns (unwrapped (len ns) conns) r = accumulate ns conns r.
Proof.
  induction conns as [|[[a b] x] conns IH]; intros r Hr; [done|].
  simpl. unfold item, item_add, len. rewrite Hr, !position_alias.
  destruct (position (length ns) (a - 1)) as [k|]; [|done].
  destruct (ns !! k) as [na|]; [|done].
  destruct (state na =? 1); [|by apply IH].
  destruct (position (length ns) (b - 1)) as [k'|]; [|done].
  destruct (r !! k') as [y|]; [|done].
  apply IH. by rewrite length_insert.
Qed.

Lemma steps_same_signals (conns1 conns2 : list (edge W)) debug w :
  accumulate (heap w) conns1 (replicate (length (heap w)) w_zero)
  = accumulate (heap w) conns2 (replicate (length (heap w)) w_zero) ->
  observable (steps conns1 debug w).1 = observable (steps conns2 debug w).1
  /\ (steps conns1 debug w).2 = (steps conns2 debug w).2.
Proof.
  intros Hsame.
  pose proof (steps_run conns1 debug w) as Hrun1.
  pose proof (steps_run conns2 debug w) as Hrun2.
  destruct (send_eval conns1 (replicate (length (heap w)) w_zero) w) as [t1 Hs1].
  destruct (send_eval conns2 (replicate (length (heap w)) w_zero) w) as [t2 Hs2].
  rewrite Hs1 in Hrun1; rewrite Hs2 in Hrun2. rewrite <- Hsame in Hrun2.
  destruct (accumulate _ conns1 _) as [r'|].
  - destruct Hrun1 as (_ & t1' & -> & _), Hrun2 as (_ & t2' & -> & _).
    unfold observable; simpl. by rewrite !app_nil_r.
  - rewrite Hrun1, Hrun2. unfold observable; simpl. by rewrite !app_nil_r.
Qed.

End Errors.

Section FastErrors.

Context {W : Type} `{Weight W}.
Implicit Types (w : world W) (ns : list (neuron W)) (r : list W).

Lemma getitem_eval {A} (l : list A) i w :
  getitem l i w
  = (evolves w (heap w) [] [(length l, i)],
     match item l i with Some x => Ok x | None => Raise IndexError end).
Proof.
  unfold getitem, item. rewrite log_evolves.
  destruct (position _ _) as [k|]; [|done]. by destruct (l !! k).
Qed.

Lemma mutated_step (oe : list (dict W)) a b x d :
  item oe (a - 1) = Some d ->
  mutated oe (a - 1) (dict_iadd d (b - 1) x) = aggregate_step oe (a, b, x).
Proof.
  unfold item, mutated, aggregate_step.
  destruct (position _ _) as [k|]; [|done]. by intros ->.
Qed.

(** The loop of [build_out_edges] on any edge list. *)
Lemma build_loop_eval (conns : list (edge W)) :
  forall (oe : list (dict W)) w,
    exists t,
      for_each conns oe (fun '(a, b, x) out_edges =>
        let u := a - 1 in
        let v := b - 1 in
        let* d := getitem out_edges u in
        ret (mutated out_edges u (dict_iadd d v x))) w
      = (evolves w (heap w) [] t,
         if forallb (fun '(a, _, _) => indexable (length oe) (a - 1)) conns
         then Ok (aggregate conns oe) else Raise IndexError).
Proof.
  induction conns as [|[[a b] x] conns IH]; intros oe w.
  - exists []; simpl. unfold ret. by rewrite evolves_id.
  - rewrite for_each_cons.
    match goal with |- context [for_each conns _ ?f] => set (body := f) in * end.
    change (body (a, b, x) oe w)
      with ((let* d := getitem oe (a - 1) in
             ret (mutated oe (a - 1) (dict_iadd d (b - 1) x))) w).
    unfold bind at 1. rewrite getitem_eval.
    pose proof (item_indexable oe (a - 1)) as Hidx.
    simpl forallb.
    destruct (item oe (a - 1)) as [d|] eqn:Hd.
    + assert (indexable (length oe) (a - 1) = true) as ->
        by (apply Hidx; by eexists).
      change (ret ?y ?w0) with (w0, Ok y). cbv beta iota.
      rewrite (mutated_step _ _ _ _ _ Hd).
      destruct (IH (aggregate_step oe (a, b, x))
                  (evolves w (heap w) [] [(length oe, a - 1)])) as [t Hrun].
      rewrite Hrun. rewrite aggregate_step_length.
      exists ([(length oe, a - 1)] ++ t). rewrite evolves_evolves. done.
    + destruct (indexable (length oe) (a - 1)).
      * destruct Hidx as [_ Hidx]. by destruct Hidx as [? ?].
      * simpl. by exists [(length oe, a - 1)].
Qed.

Lemma build_out_edges_eval M (conns : list (edge W)) w :
  exists t,
    build_out_edges M conns w
    = (evolves w (heap w) [] t,
       if forallb (fun '(a, _, _) => indexable (Z.to_nat M) (a - 1)) conns
       then Ok (adjacency M conns) else Raise IndexError).
Proof.
  unfold build_out_edges.
  destruct (build_loop_eval conns (replicate (Z.to_nat M) []) w) as [t Hloop].
  rewrite length_replicate in Hloop. exists t.
  destruct (forallb _ _).
  - rewrite (bind_ok _ _ _ _ _ Hloop).
    unfold ret, items, adjacency. by rewrite list_fmap_id.
  - by rewrite (bind_raise _ _ _ _ _ Hloop).
Qed.

Lemma pour_eval (row : list (Z * W)) :
  forall r w,
    exists t,
      for_each row r (fun '(v, x) received => iadd received v x) w
      = (evolves w (heap w) [] t,
         match pour_checked row r with
         | Some r' => Ok r'
         | None => Raise IndexError
         end).
Proof.
  induction row as [|[v x] row IH]; intros r w.
  - exists []; simpl. unfold ret. by rewrite evolves_id.
  - rewrite for_each_cons.
    destruct (iadd_eval r v x w) as [t1 ->]. simpl pour_checked.
    destruct (item_add r v x) as [r'|].
    + destruct (IH r' (evolves w (heap w) [] t1)) as [t2 ->].
      exists (t1 ++ t2). by rewrite evolves_evolves.
    + by exists t1.
Qed.

Lemma send_fast_loop_eval (oe : list (list (Z * W))) :
  forall (es : list (Z * neuron W)) r w,
    exists t,
      for_each es r (fun '(u, nu) received =>
        if state nu =? 1 then
          let* row := getitem oe u in
          for_each row received (fun '(v, x) received => iadd received v x)
        else ret received) w
      = (evolves w (heap w) [] t,
         match accumulate_fast oe es r with
         | Some r' => Ok r'
         | None => Raise IndexError
         end).
Proof.
  induction es as [|[u nu] es IH]; intros r w.
  - exists []; simpl. unfold ret. by rewrite evolves_id.
  - rewrite for_each_cons. simpl accumulate_fast.
    destruct (state nu =? 1).
    + unfold bind at 1. rewrite getitem_eval.
      destruct (item oe u) as [row|].
      * destruct (pour_eval row r (evolves w (heap w) [] [(length oe, u)]))
          as [t1 ->].
        destruct (pour_checked row r) as [r'|].
        -- destruct (IH r' (evolves (evolves w (heap w) [] [(length oe, u)])
                        (heap (evolves w (heap w) [] [(length oe, u)])) [] t1))
             as [t2 ->].
           exists ([(length oe, u)] ++ t1 ++ t2).
           by rewrite !evolves_evolves.
        -- exists ([(length oe, u)] ++ t1). by rewrite !evolves_evolves.
      * by exists [(length oe, u)].
    + change (ret r w) with (w, Ok r). cbv beta iota.
      apply IH.
Qed.

Lemma send_fast_eval (oe : list (list (Z * W))) r w :
  exists t,
    send_fast oe r w
    = (evolves w (heap w) [] t,
       match accumulate_fast oe (enumerate (heap w)) r with
       | Some r' => Ok r'
       | None => Raise IndexError
       end).
Proof.
  unfold send_fast, bind at 1, neurons. apply send_fast_loop_eval.
Qed.

Lemma pour_checked_length (row : list (Z * W)) :
  forall r r', pour_checked row r = Some r' -> length r' = length r.
Proof.
  induction row as [|[v x] row IH]; intros r r'; simpl; [by intros [= ->]|].
  destruct (item_add r v x) as [r1|] eqn:E; [|done].
  intros Hr'. rewrite (IH _ _ Hr'). by eapply item_add_length.
Qed.

Lemma pour_checked_indexable (row : list (Z * W)) :
  forall r,
    is_Some (pour_checked row r)
    <-> forallb (fun '(v, _) => indexable (length r) v) row = true.
Proof.
  induction row as [|[v x] row IH]; intros r.
  { split; [done|intros _; by eexists]. }
  simpl. pose proof (item_add_indexable r v x) as Hadd.
  destruct (item_add r v x) as [r1|] eqn:E.
  - assert (indexable (length r) v = true) as -> by (apply Hadd; by eexists).
    simpl. rewrite <- (item_add_length _ _ _ _ E). apply IH.
  - destruct (indexable (length r) v); simpl.
    + destruct Hadd as [_ Hadd]. by destruct Hadd as [? ?].
    + split; [by intros [? ?]|done].
Qed.

Lemma accumulate_fast_deliverable (oe : list (list (Z * W))) (M : nat) :
  forall (es : list (Z * neuron W)) r,
    length r = M ->
    is_Some (accumulate_fast oe es r)
    <-> forallb (row_deliverable M oe) es = true.
Proof.
  induction es as [|[u nu] es IH]; intros r Hr.
  { split; [done|intros _; by eexists]. }
  simpl. destruct (state nu =? 1); [|by apply IH].
  destruct (item oe u) as [row|]; [|split; [by intros [? ?]|done]].
  pose proof (pour_checked_indexable row r) as Hrow. rewrite Hr in Hrow.
  destruct (pour_checked row r) as [r1|] eqn:E.
  - assert (forallb (fun '(v, _) => indexable M v) row = true) as ->
      by (apply Hrow; by eexists).
    simpl. apply IH. rewrite (pour_checked_length _ _ _ E). done.
  - destruct (forallb _ row); simpl.
    + destruct Hrow as [_ Hrow]. by destruct Hrow as [? ?].
    + split; [by intros [? ?]|done].
Qed.

Lemma step_fast_is_ok (oe : list (list (Z * W))) w :
  is_ok (step_fast oe w).2
  = forallb (row_deliverable (length (heap w)) oe) (enumerate (heap w)).
Proof.
  pose proof (step_fast_run oe w) as Hrun.
  destruct (send_fast_eval oe (replicate (length (heap w)) w_zero) w)
    as [t Hsend].
  rewrite Hsend in Hrun.
  pose proof (accumulate_fast_deliverable oe (length (heap w))
                (enumerate (heap w)) (replicate (length (heap w)) w_zero)
                (length_replicate _ _)) as Hacc.
  destruct (accumulate_fast _ _ _) as [r'|].
  - destruct Hrun as (_ & t' & -> & _). simpl.
    symmetry; apply Hacc; by eexists.
  - rewrite Hrun; simpl.
    destruct (forallb _ _); [|done].
    destruct Hacc as [_ Hacc]. by destruct Hacc as [? ?].
Qed.

Lemma step_fast_raise (oe : list (list (Z * W))) w w' e :
  step_fast oe w = (w', Raise e) ->
  e = IndexError /\ observable w' = observable w.
Proof.
  pose proof (step_fast_run oe w) as Hrun.
  destruct (send_fast_eval oe (replicate (length (heap w)) w_zero) w)
    as [t Hsend].
  rewrite Hsend in Hrun.
  destruct (accumulate_fast _ _ _) as [r'|].
  - destruct Hrun as (_ & t' & -> & _). done.
  - rewrite Hrun. intros [= <- <-]. split; [done|].
    unfold observable; simpl. by rewrite app_nil_r.
Qed.

(** ** Quiescent networks *)

Lemma item_elem_of {A} (l : list A) i x : item l i = Some x -> x ∈ l.
Proof.
  unfold item; destruct (position _ _) as [k|]; [|done].
  apply list_elem_of_lookup_2.
Qed.

Lemma accumulate_inactive ns (conns : list (edge W)) r :
  Forall (fun n => state n <> 1) ns ->
  sources_indexable (len ns) conns ->
  accumulate ns conns r = Some r.
Proof.
  intros Hq; induction conns as [|[[a b] x] conns IH]; intros Hs; [done|].
  apply Forall_cons in Hs as [Ha Hs]. simpl.
  destruct (item_indexable ns (a - 1)) as [_ Hsome].
  destruct Hsome as [na Hna].
  { unfold indexable, len in *. lia. }
  rewrite Hna.
  rewrite Forall_forall in Hq. specialize (Hq na (item_elem_of _ _ _ Hna)).
  destruct (state na =? 1) eqn:E; [lia|]. by apply IH.
Qed.

Lemma accumulate_fast_inactive (oe : list (list (Z * W)))
  (es : list (Z * neuron W)) r :
  Forall (fun '(_, nu) => state nu <> 1) es ->
  accumulate_fast oe es r = Some r.
Proof.
  induction es as [|[u nu] es IH]; intros Hq; [done|].
  apply Forall_cons in Hq as [Hnu Hq]. simpl.
  destruct (state nu =? 1) eqn:E; [lia|]. by apply IH.
Qed.

Lemma quiescent_inactive ns : quiescent ns -> Forall (fun n => state n <> 1) ns.
Proof. intros Hq; eapply Forall_impl; [exact Hq|]. by intros n [? _]. Qed.

Lemma quiescent_next_states ns :
  quiescent ns ->
  next_states ns (replicate (length ns) w_zero) = replicate (length ns) 0.
Proof.
  unfold next_states. induction 1 as [|n ns [_ Hn] _ IH]; [done|].
  simpl. rewrite IH. unfold fires. by rewrite Hn.
Qed.

Lemma committed_zeros ns : committed ns (replicate (length ns) 0) = at_rest ns.
Proof.
  unfold committed, at_rest. induction ns as [|n ns IH]; [done|].
  simpl. by rewrite IH.
Qed.

Lemma at_rest_quiescent ns : quiescent ns -> quiescent (at_rest ns).
Proof.
  unfold quiescent, at_rest. intros Hq. apply Forall_fmap.
  eapply Forall_impl; [exact Hq|]. intros n [_ Hn]; simpl. done.
Qed.

Lemma at_rest_states ns : map state (at_rest ns) = replicate (length ns) 0.
Proof.
  unfold at_rest. induction ns as [|n ns IH]; [done|]. simpl. by rewrite IH.
Qed.

Lemma at_rest_length ns : length (at_rest ns) = length ns.
Proof. unfold at_rest. by rewrite length_map. Qed.

Lemma at_rest_idem ns : at_rest (at_rest ns) = at_rest ns.
Proof.
  unfold at_rest. rewrite map_map. apply map_ext. by intros [].
Qed.

Lemma repeated_at_rest (n : nat) ns :
  (1 <= n)%nat -> repeated (at_rest (W:=W)) n ns = at_rest ns.
Proof.
  intros Hn. destruct n as [|n]; [lia|]. clear Hn. simpl.
  induction n as [|n IH]; [done|]. simpl. by rewrite at_rest_idem.
Qed.

Lemma steps_quiescent (conns : list (edge W)) w :
  quiescent (heap w) ->
  sources_indexable (len (heap w)) conns ->
  exists t,
    steps conns false w
    = (evolves w (at_rest (heap w)) [] t, Ok (map state (at_rest (heap w)))).
Proof.
  intros Hq Hs.
  pose proof (steps_run conns false w) as Hrun.
  destruct (send_eval conns (replicate (length (heap w)) w_zero) w) as [t Hsend].
  rewrite Hsend in Hrun.
  rewrite accumulate_inactive in Hrun by (by try apply quiescent_inactive).
  destruct Hrun as (_ & t' & -> & _).
  rewrite quiescent_next_states, committed_zeros, at_rest_states by done.
  rewrite evolves_evolves. by eexists.
Qed.

Lemma enumerate_inactive ns :
  Forall (fun n => state n <> 1) ns ->
  Forall (fun '(_, nu) => state nu <> 1) (enumerate ns).
Proof.
  intros Hq. unfold enumerate.
  apply Forall_forall. intros [u nu] Hin.
  apply elem_of_lookup_imap in Hin as (k & x & [= -> ->] & Hx).
  rewrite Forall_forall in Hq. apply Hq. by eapply list_elem_of_lookup_2.
Qed.

Lemma step_fast_quiescent (oe : list (list (Z * W))) w :
  quiescent (heap w) ->
  exists t,
    step_fast oe w
    = (evolves w (at_rest (heap w)) [] t, Ok (map state (at_rest (heap w)))).
Proof.
  intros Hq.
  pose proof (step_fast_run oe w) as Hrun.
  destruct (send_fast_eval oe (replicate (length (heap w)) w_zero) w)
    as [t Hsend].
  rewrite Hsend in Hrun.
  rewrite accumulate_fast_inactive in Hrun
    by (by apply enumerate_inactive, quiescent_inactive).
  destruct Hrun as (_ & t' & -> & _).
  rewrite quiescent_next_states, committed_zeros, at_rest_states by done.
  rewrite evolves_evolves. by eexists.
Qed.

Lemma run_quiescent (step : Py (list Z)) N d w :
  (forall w0, quiescent (heap w0) -> length (heap w0) = length (heap w) ->
     exists t, step w0 = (evolves w0 (at_rest (heap w0)) [] t,
                          Ok (map state (at_rest (heap w0))))) ->
  quiescent (heap w) -> 1 <= N -> d <> Some 0 ->
  exists o t,
    (for_each (range1 N) tt (fun tk _ => step;;; snapshot d tk);;; states) w
    = (evolves w (at_rest (heap w)) o t, Ok (replicate (length (heap w)) 0)).
Proof.
  intros Hstep Hq HN Hd.
  destruct (run_closed
              (fun ns => quiescent ns /\ length ns = length (heap w))
              (fun _ => True) (at_rest (W:=W)) step d N w)
    as (t & Hrun & _); try done.
  - intros ns [Hns Hlen]. split; [by apply at_rest_quiescent|].
    by rewrite at_rest_length.
  - intros w0 [Hw0 Hlen]. destruct (Hstep w0 Hw0 Hlen) as [t ->].
    exists t; split; [done|]. by apply Forall_forall.
  - rewrite Hrun, repeated_at_rest, at_rest_states by lia. by eexists _, _.
Qed.

End FastErrors.

Section KeyOrder.

Context {W : Type} `{Weight W}.
Implicit Types (w : world W) (ns : list (neuron W)).

Lemma row_after_keys (es : list (edge W)) :
  forall d : list (Z * W),
    (row_after es d).*1 = first_seen (map (fun '(_, b, _) => b - 1) es) d.*1.
Proof.
  induction es as [|[[a b] x] es IH]; intros d; [done|].
  simpl. rewrite IH, dict_iadd_keys. done.
Qed.

Lemma adjacency_row M (conns : list (edge W)) (u : nat) row :
  Forall (fun '(a, _, _) => 1 <= a <= M) conns ->
  adjacency M conns !! u = Some row ->
  row = row_after (edges_from conns (Z.of_nat u)) [].
Proof.
  intros Hs Hrow. unfold adjacency in Hrow.
  assert (Hu : (u < Z.to_nat M)%nat).
  { apply lookup_lt_Some in Hrow.
    by rewrite aggregate_length, length_replicate in Hrow. }
  rewrite (aggregate_lookup conns u _ []) in Hrow.
  - by simplify_eq.
  - eapply Forall_impl; [exact Hs|]. intros [[a b] x].
    unfold len; rewrite length_replicate. lia.
  - by apply lookup_replicate_2.
Qed.

End KeyOrder.

Section Orders.

Context {W : Type} `{Weight W}.
Variable inj : Z -> W.
Variable B : Z.
Hypothesis inj_zero : inj 0 = w_zero.
Hypothesis inj_add :
  forall a b, Z.abs a <= B -> Z.abs b <= B -> Z.abs (a + b) <= B ->
    w_add (inj a) (inj b) = inj (a + b).
Implicit Types (w : world W) (ns : list (neuron W)) (zc : list (edge Z)).

Lemma deliver_permutation (nz : list (neuron Z)) (zc1 zc2 : list (edge Z)) :
  zc1 ≡ₚ zc2 -> forall r, deliver nz zc1 r = deliver nz zc2 r.
Proof.
  induction 1 as [|[[a b] x] l1 l2 _ IH|[[a1 b1] x1] [[a2 b2] x2] l|l1 l2 l3 _ IH1 _ IH2];
    intros r.
  - done.
  - simpl. apply IH.
  - simpl. f_equal.
    destruct (active nz a1), (active nz a2); try done.
    apply (bump_comm (W:=Z)); simpl; intros; lia.
  - by rewrite IH1.
Qed.

Lemma mass_permutation (zs1 zs2 : list Z) : zs1 ≡ₚ zs2 -> mass zs1 = mass zs2.
Proof.
  induction 1 as [|x l1 l2 _ IH|x y l|l1 l2 l3 _ IH1 _ IH2]; simpl; lia.
Qed.

Lemma embed_permutation zc1 zc2 : zc1 ≡ₚ zc2 -> embed inj zc1 ≡ₚ embed inj zc2.
Proof. intros Hp. unfold embed. by apply Permutation_map. Qed.

Lemma threshold_rule_embedded ns zc :
  valid_edges (len ns) (embed inj zc) -> mass (map snd zc) <= B ->
  threshold_rule ns (embed inj zc)
  = next_states ns
      (map inj (deliver (plain ns) zc (replicate (length ns) 0))).
Proof.
  intros Hv Hb.
  rewrite <- next_states_rule by (by eapply valid_edges_destinations).
  f_equal.
  replace (replicate (length ns) (w_zero (W:=W)))
    with (map inj (replicate (length ns) 0))
    by (by rewrite fmap_replicate, inj_zero).
  apply (deliver_embedded inj B inj_add).
  rewrite mass_replicate_zero. lia.
Qed.

Lemma tick_permutation ns zc1 zc2 :
  zc1 ≡ₚ zc2 ->
  valid_edges (len ns) (embed inj zc1) -> mass (map snd zc1) <= B ->
  tick (embed inj zc1) ns = tick (embed inj zc2) ns.
Proof.
  intros Hp Hv Hb. unfold tick. f_equal.
  rewrite !threshold_rule_embedded; try done.
  - by rewrite (deliver_permutation _ _ _ Hp).
  - unfold valid_edges in *. by rewrite <- (embed_permutation _ _ Hp).
  - rewrite <- (mass_permutation (map snd zc1)); [done|].
    by apply Permutation_map.
Qed.

Lemma repeated_ext_on (P : list (neuron W) -> Prop)
  (f g : list (neuron W) -> list (neuron W)) :
  (forall ns, P ns -> P (f ns)) ->
  (forall ns, P ns -> f ns = g ns) ->
  forall n ns, P ns -> repeated f n ns = repeated g n ns.
Proof.
  intros Hf Hfg; induction n as [|n IH]; intros ns Hns; [done|].
  simpl. rewrite <- (Hfg ns Hns). apply IH, Hf, Hns.
Qed.

Lemma step_lines_ext_on (P : list (neuron W) -> Prop)
  (f g : list (neuron W) -> list (neuron W)) d j ts ns :
  (forall ns, P ns -> P (f ns)) ->
  (forall ns, P ns -> f ns = g ns) ->
  P ns -> step_lines d f j ts ns = step_lines d g j ts ns.
Proof.
  intros Hf Hfg Hns. unfold step_lines. destruct d as [k|]; [|done].
  apply map_ext. intros t. by rewrite (repeated_ext_on P f g).
Qed.

Lemma simulate_N_permutation zc1 zc2 N d w :
  zc1 ≡ₚ zc2 ->
  valid_edges (len (heap w)) (embed inj zc1) -> mass (map snd zc1) <= B ->
  d <> Some 0 ->
  observable (simulate_N (embed inj zc1) N d w).1
  = observable (simulate_N (embed inj zc2) N d w).1
  /\ (simulate_N (embed inj zc1) N d w).2 = (simulate_N (embed inj zc2) N d w).2.
Proof.
  intros Hp Hv Hb Hd.
  assert (Hv2 : valid_edges (len (heap w)) (embed inj zc2)).
  { unfold valid_edges in *. by rewrite <- (embed_permutation _ _ Hp). }
  destruct (simulate_N_run (embed inj zc1) N d w Hv Hd) as (t1 & -> & _).
  destruct (simulate_N_run (embed inj zc2) N d w Hv2 Hd) as (t2 & -> & _).
  set (P := fun ns : list (neuron W) => length ns = length (heap w)).
  assert (HP : forall ns, P ns -> P (tick (embed inj zc1) ns)).
  { intros ns Hns. unfold P, tick in *. by rewrite tick_length. }
  assert (Hfg : forall ns, P ns -> tick (embed inj zc1) ns = tick (embed inj zc2) ns).
  { intros ns Hns. apply tick_permutation; try done.
    unfold P, len in *. by rewrite Hns. }
  unfold after_ticks, snapshot_lines.
  rewrite (repeated_ext_on P _ _ HP Hfg) by done.
  rewrite (step_lines_ext_on P _ _ d 0 (range1 N) (heap w) HP Hfg) by done.
  done.
Qed.

End Orders.

Section NaN.

Implicit Types (w : world float) (ns : list (neuron float)).

Lemma leb_nan_l (x : float) : PrimFloat.leb nan x = false.
Proof. rewrite FloatAxioms.leb_spec. reflexivity. Qed.

Lemma leb_nan_r (x : float) : PrimFloat.leb x nan = false.
Proof. rewrite FloatAxioms.leb_spec. by destruct (Prim2SF x). Qed.

Lemma fires_nan (x : float) (n : neuron float) :
  x = nan \/ threshold n = nan -> fires x n = 0.
Proof.
  unfold fires; simpl. intros [->| ->]; [by rewrite leb_nan_r|by rewrite leb_nan_l].
Qed.

Lemma next_states_nan ns (received : list float) (j : nat) n :
  length received = length ns ->
  ns !! j = Some n -> threshold n = nan ->
  next_states ns received !! j = Some 0.
Proof.
  intros Hlen Hn Hnan.
  destruct (lookup_lt_is_Some_2 received j) as [x Hx].
  { rewrite Hlen. by eapply lookup_lt_Some. }
  rewrite (next_states_lookup ns received j x n Hx Hn).
  by rewrite fires_nan by (by right).
Qed.

End NaN.

Section CaseFacts.

Context {W : Type} `{Weight W}.
Variable int_ : string -> option Z.
Variable float_ : string -> option W.
Implicit Types (w : world W) (ns : list (neuron W)).

Lemma consumed_consumed w rest1 t1 rest2 t2 :
  consumed (consumed w rest1 t1) rest2 t2 = consumed w rest2 (t1 ++ t2).
Proof. unfold consumed; simpl. by rewrite app_assoc. Qed.

Lemma readline_cons w l rest :
  stdin w = l :: rest -> readline w = (consumed w rest [], Ok l).
Proof.
  intros Hin; unfold readline, consumed; rewrite Hin. by rewrite app_nil_r.
Qed.

Lemma list_map_run {A} (f : string -> option A) (lift : string -> Py A) :
  (forall tok w, lift tok w
     = (w, match f tok with Some x => Ok x | None => Raise ValueError end)) ->
  forall tokens vals,
    Forall2 (fun tok v => f tok = Some v) tokens vals ->
    forall acc w,
      for_each tokens acc (fun tok acc => let* x := lift tok in ret (acc ++ [x])) w
      = (w, Ok (acc ++ vals)).
Proof.
  intros Hlift tokens vals; induction 1 as [|tok v tokens vals Hv _ IH];
    intros acc w.
  - simpl. unfold ret. by rewrite app_nil_r.
  - rewrite for_each_cons. unfold bind at 1. rewrite Hlift, Hv.
    change (ret ?y ?w0) with (w0, Ok y). cbv beta iota.
    rewrite IH. by rewrite <- app_assoc.
Qed.

Lemma list_map_int_run tokens vals w :
  Forall2 (fun tok v => int_ tok = Some v) tokens vals ->
  list_map (to_int int_) tokens w = (w, Ok vals).
Proof.
  intros Hv. unfold list_map.
  rewrite (list_map_run int_ (to_int int_)) with (vals := vals); try done.
  intros tok w0; unfold to_int. by destruct (int_ tok).
Qed.

Lemma list_map_float_run tokens vals w :
  Forall2 (fun tok v => float_ tok = Some v) tokens vals ->
  list_map (to_float float_) tokens w = (w, Ok vals).
Proof.
  intros Hv. unfold list_map.
  rewrite (list_map_run float_ (to_float float_)) with (vals := vals); try done.
  intros tok w0; unfold to_float. by destruct (float_ tok).
Qed.

Lemma read_edges_records recs conns :
  records int_ float_ recs conns ->
  forall acc tail,
    read_edges int_ float_ (recs ++ tail) acc
    = read_edges int_ float_ tail (acc ++ conns).
Proof.
  induction 1 as [|l ls es Hl _ IH|l ls ta tb tx a b x es Hl HE Hs Ha Hb Hx _ IH];
    intros acc tail.
  - by rewrite app_nil_r.
  - simpl. rewrite Hl. simpl. apply IH.
  - simpl.
    destruct (String.eqb_spec (strip l) EmptyString) as [|_]; [done|].
    destruct (String.eqb_spec (strip l) "E") as [|_]; [done|].
    rewrite Hs, Ha, Hb, Hx. rewrite IH. by rewrite <- app_assoc.
Qed.

Lemma read_edges_end recs conns tail rest :
  records int_ float_ recs conns ->
  (tail = [] /\ rest = []) \/ (exists e, tail = e :: rest /\ strip e = "E"%string) ->
  read_edges int_ float_ (recs ++ tail) [] = (rest, Ok conns).
Proof.
  intros Hrecs Htail. rewrite (read_edges_records _ _ Hrecs). simpl.
  destruct Htail as [[-> ->]|(e & -> & He)]; [done|].
  simpl. rewrite He. done.
Qed.

Lemma neurons_loop_run (s : list Z) (X : list W) :
  forall (n k : nat) acc w,
    (k + n <= length s)%nat -> (k + n <= length X)%nat ->
    exists t,
      for_each (map Z.of_nat (seq k n)) acc (fun i acc =>
        let* si := getitem s i in
        let* Xi := getitem X i in
        ret (acc ++ [{| id := i + 1; state := si; threshold := Xi |}])) w
      = (evolves w (heap w) [] t,
         Ok (acc ++ imap (fun i '(si, xi) =>
                            {| id := Z.of_nat (k + i) + 1; state := si;
                               threshold := xi |})
                      (zip (take n (drop k s)) (take n (drop k X))))).
Proof.
  induction n as [|n IH]; intros k acc w Hs HX.
  - exists []. simpl. unfold ret. by rewrite evolves_id, app_nil_r.
  - destruct (lookup_lt_is_Some_2 s k) as [sk Hsk]; [lia|].
    destruct (lookup_lt_is_Some_2 X k) as [xk Hxk]; [lia|].
    change (seq k (S n)) with (k :: seq (S k) n). simpl map.
    rewrite for_each_cons. unfold bind at 1.
    rewrite (getitem_run s (Z.of_nat k) sk) by (rewrite ?Nat2Z.id; done || lia).
    unfold bind at 1.
    rewrite (getitem_run X (Z.of_nat k) xk) by (rewrite ?Nat2Z.id; done || lia).
    change (ret ?y ?w0) with (w0, Ok y). cbv beta iota.
    match goal with |- context [for_each _ _ _ ?w0] => set (w1 := w0) end.
    destruct (IH (S k) (acc ++ [{| id := Z.of_nat k + 1; state := sk;
                                   threshold := xk |}]) w1) as [t Hloop];
      [lia|lia|].
    rewrite Hloop. unfold w1. rewrite !evolves_evolves. eexists; f_equal.
    f_equal. rewrite <- app_assoc. f_equal.
    rewrite (drop_S s sk k Hsk), (drop_S X xk k Hxk). simpl.
    rewrite Nat.add_0_r. f_equal. apply imap_ext. intros i [si xi] _.
    simpl. do 2 f_equal. lia.
Qed.

Lemma case_neurons_run (M : Z) (s : list Z) (X : list W) w :
  M <= len s -> M <= len X ->
  exists t,
    for_each (range M) [] (fun i acc =>
      let* si := getitem s i in
      let* Xi := getitem X i in
      ret (acc ++ [{| id := i + 1; state := si; threshold := Xi |}])) w
    = (evolves w (heap w) [] t, Ok (case_neurons M s X)).
Proof.
  intros Hs HX. unfold len in *.
  destruct (neurons_loop_run s X (Z.to_nat M) 0 [] w) as [t Hloop]; [lia|lia|].
  exists t. unfold range. rewrite Hloop. done.
Qed.

Lemma read_case_run w M s X N conns rest :
  spells int_ float_ (stdin w) M s X N conns rest ->
  exists t,
    _read_stdin_case int_ float_ w
    = (consumed w rest t, Ok (case_neurons M s X, conns, N)).
Proof.
  intros (lM & ls & lX & lN & recs & tail & Hin & HM & Hs & HX & HN & Hrecs
          & Htail & HMs & HMX).
  unfold _read_stdin_case.
  rewrite (bind_ok _ _ _ _ _ (readline_cons w _ _ Hin)).
  unfold to_int at 1. rewrite HM.
  erewrite bind_ok by reflexivity.
  erewrite bind_ok by (by apply readline_cons).
  erewrite bind_ok by (by apply list_map_int_run).
  erewrite bind_ok by (by apply readline_cons).
  erewrite bind_ok by (by apply list_map_float_run).
  erewrite bind_ok by (by apply readline_cons).
  unfold to_int at 1. rewrite HN.
  erewrite bind_ok by reflexivity.
  erewrite bind_ok.
  2:{ simpl stdin. rewrite (read_edges_end recs conns tail rest Hrecs Htail).
      reflexivity. }
  match goal with |- context [bind _ _ ?w0] => set (w1 := w0) end.
  destruct (case_neurons_run M s X w1 HMs HMX) as [t Hloop].
  rewrite (bind_ok _ _ _ _ _ Hloop).
  exists t. unfold ret, w1, consumed, evolves; simpl.
  by rewrite !app_nil_r.
Qed.

End CaseFacts.

Section EntryFacts.

Context {W : Type} `{Weight W}.
Variable int_ : string -> option Z.
Variable float_ : string -> option W.
Implicit Types (w : world W) (ns : list (neuron W)).
Local Abbreviation drops := (drops (W:=W)).
Local Abbreviation deaf := (deaf (W:=W)).

Lemma drops_of_deaf {A} (m : Py A) : deaf m -> drops m.
Proof. intros Hm w; exists 0%nat. by rewrite Hm. Qed.

Lemma drops_bind {A B} (m : Py A) (k : A -> Py B) :
  drops m -> (forall x, drops (k x)) -> drops (bind m k).
Proof.
  intros Hm Hk w; unfold bind.
  destruct (Hm w) as [n Hn]. destruct (m w) as [w1 [x|e]]; [|by exists n].
  destruct (Hk x w1) as [n' Hn']. exists (n + n')%nat.
  simpl in *. by rewrite Hn', Hn, drop_drop.
Qed.

Lemma drops_readline : drops readline.
Proof.
  intros w; exists 1%nat. destruct (readline_run w) as (w' & -> & Hw'). done.
Qed.

Lemma deaf_ret {A} (x : A) : deaf (ret x).
Proof. by intros w. Qed.

Lemma deaf_getitem {A} (l : list A) i : deaf (getitem l i).
Proof. by intros w. Qed.

Lemma deaf_to_int s : deaf (to_int int_ s).
Proof. intros w; unfold to_int. by destruct (int_ s). Qed.

Lemma deaf_to_float s : deaf (to_float float_ s).
Proof. intros w; unfold to_float. by destruct (float_ s). Qed.

Lemma deaf_list_map {A} (f : string -> Py A) tokens :
  (forall tok, deaf (f tok)) -> deaf (list_map f tokens).
Proof.
  intros Hf; unfold list_map. apply deaf_for_each; intros tok acc.
  apply deaf_bind; [apply Hf|intros x; apply deaf_ret].
Qed.

Lemma read_edges_drops (lines : list string) :
  forall acc, exists k : nat,
    (read_edges int_ float_ lines acc).1 = drop k lines.
Proof.
  induction lines as [|l lines IH]; intros acc; [by exists 0%nat|].
  simpl.
  destruct (String.eqb (strip l) EmptyString).
  { destruct (IH acc) as [k Hk]. by exists (S k). }
  destruct (String.eqb (strip l) "E"); [by exists 1%nat|].
  destruct (split (strip l)) as [|ta [|tb [|tx [|? ?]]]]; try by exists 1%nat.
  destruct (int_ ta) as [a|]; [|by exists 1%nat].
  destruct (int_ tb) as [b|]; [|by exists 1%nat].
  destruct (float_ tx) as [x|]; [|by exists 1%nat].
  destruct (IH (acc ++ [(a, b, x)])) as [k Hk]. by exists (S k).
Qed.

Lemma drops_read_stdin_case : drops (_read_stdin_case int_ float_).
Proof.
  unfold _read_stdin_case.
  apply drops_bind; [apply drops_readline|intros l1].
  apply drops_bind; [apply drops_of_deaf, deaf_to_int|intros M].
  apply drops_bind; [apply drops_readline|intros l2].
  apply drops_bind;
    [apply drops_of_deaf, deaf_list_map, deaf_to_int|intros s].
  apply drops_bind; [apply drops_readline|intros l3].
  apply drops_bind;
    [apply drops_of_deaf, deaf_list_map, deaf_to_float|intros X].
  apply drops_bind; [apply drops_readline|intros l4].
  apply drops_bind; [apply drops_of_deaf, deaf_to_int|intros N].
  apply drops_bind.
  { intros w. destruct (read_edges_drops (stdin w) []) as [k Hk].
    exists k. by destruct (read_edges _ _ _ _). }
  intros conns.
  apply drops_bind; [|intros ns; apply drops_of_deaf, deaf_ret].
  apply drops_of_deaf, deaf_for_each; intros i acc.
  apply deaf_bind; [apply deaf_getitem|intros si].
  apply deaf_bind; [apply deaf_getitem|intros xi]. apply deaf_ret.
Qed.

(** ** The three entry points *)

Lemma call_eval {A} ns (m : Py A) w : call ns m w = m (with_heap ns w).
Proof. done. Qed.

Lemma solve_stdin_eval w :
  solve_stdin int_ float_ w
  = match _read_stdin_case int_ float_ w with
    | (w1, Ok (ns, conns, N)) =>
        match simulate_N conns N None (with_heap ns w1) with
        | (w2, Ok r) => print (Final r) w2
        | (w2, Raise e) => (w2, Raise e)
        end
    | (w1, Raise e) => (w1, Raise e)
    end.
Proof.
  unfold solve_stdin, bind.
  destruct (_read_stdin_case _ _ w) as [w1 [[[ns conns] N]|e]]; done.
Qed.

Lemma solve_stdin_fast_eval w :
  solve_stdin_fast int_ float_ w
  = match _read_stdin_case int_ float_ w with
    | (w1, Ok (ns, conns, N)) =>
        match simulate_fast conns N None (with_heap ns w1) with
        | (w2, Ok r) => print (Final r) w2
        | (w2, Raise e) => (w2, Raise e)
        end
    | (w1, Raise e) => (w1, Raise e)
    end.
Proof.
  unfold solve_stdin_fast, bind.
  destruct (_read_stdin_case _ _ w) as [w1 [[[ns conns] N]|e]]; done.
Qed.

Lemma verify_stdin_eval w :
  verify_stdin int_ float_ w
  = match _read_stdin_case int_ float_ w with
    | (w1, Ok (ns, conns, N)) =>
        match simulate_N conns N None (with_heap ns w1) with
        | (w2, Ok base_out) =>
            match simulate_fast conns N None (with_heap ns w2) with
            | (w3, Ok fast_out) =>
                (evolves w3 (heap w3)
                   [Base base_out; Fast fast_out;
                    Match (bool_decide (base_out = fast_out)); Times] [],
                 Ok tt)
            | (w3, Raise e) => (w3, Raise e)
            end
        | (w2, Raise e) => (w2, Raise e)
        end
    | (w1, Raise e) => (w1, Raise e)
    end.
Proof.
  unfold verify_stdin, bind.
  destruct (_read_stdin_case _ _ w) as [w1 [[[ns conns] N]|e]]; [|done].
  rewrite call_eval.
  destruct (simulate_N _ _ _ _) as [w2 [base_out|e]]; [|done].
  rewrite call_eval.
  destruct (simulate_fast _ _ _ _) as [w3 [fast_out|e]]; [|done].
  unfold print, evolves; simpl. by rewrite <- !app_assoc, app_nil_r.
Qed.

Lemma verify_stdin_both w :
  is_ok (verify_stdin int_ float_ w).2
  = is_ok (solve_stdin int_ float_ w).2
    && is_ok (solve_stdin_fast int_ float_ w).2
  /\ forall ra rb,
       stdout (solve_stdin int_ float_ w).1 = stdout w ++ [Final ra] ->
       stdout (solve_stdin_fast int_ float_ w).1 = stdout w ++ [Final rb] ->
       stdout (verify_stdin int_ float_ w).1
       = stdout w ++ [Base ra; Fast rb; Match (bool_decide (ra = rb)); Times].
Proof.
  rewrite verify_stdin_eval, solve_stdin_eval, solve_stdin_fast_eval.
  destruct (hushed_read_stdin_case int_ float_ w) as [_ Hout].
  destruct (_read_stdin_case _ _ w) as [w1 [[[ns conns] N]|e]]; simpl in Hout.
  2:{ split; [done|]. intros ra rb Ha _. simpl in Ha.
      rewrite Hout in Ha. apply (f_equal length) in Ha.
      rewrite length_app in Ha; simpl in Ha; lia. }
  destruct (silent_simulate_N conns N (with_heap ns w1)) as [_ Ho2].
  destruct (silent_simulate_fast conns N (with_heap ns w1)) as [_ Ho3].
  destruct (heap_only_simulate_fast conns N None
              (with_heap ns (simulate_N conns N None (with_heap ns w1)).1)
              (with_heap ns w1) eq_refl) as [_ Hsame].
  destruct (silent_simulate_fast conns N
              (with_heap ns (simulate_N conns N None (with_heap ns w1)).1))
    as [_ Ho3'].
  destruct (simulate_N conns N None (with_heap ns w1)) as [w2 [ra'|e]];
    simpl in *.
  2:{ split; [done|]. intros ra rb Ha _.
      rewrite Ho2, Hout in Ha. apply (f_equal length) in Ha.
      rewrite length_app in Ha; simpl in Ha; lia. }
  destruct (simulate_fast conns N None (with_heap ns w2)) as [w3' [rb'|e]];
    destruct (simulate_fast conns N None (with_heap ns w1)) as [w3 [rb''|e']];
    simpl in *; try done.
  - simplify_eq. split; [done|]. intros ra rb Ha Hb.
    rewrite Ho2, Hout in Ha. rewrite Ho3, Hout in Hb.
    apply app_inv_head in Ha, Hb. simplify_eq.
    by rewrite Ho3', Ho2, Hout.
  - split; [done|]. intros ra rb _ Hb.
    rewrite Ho3, Hout in Hb. apply (f_equal length) in Hb.
    rewrite length_app in Hb; simpl in Hb; lia.
Qed.

End EntryFacts.

Section DemoFacts.

Lemma demo_valid : valid_edges (len demo_neurons) demo_connections.
Proof. check_edges. Qed.

Lemma demo_cycle :
  (simulate_N demo_connections 7 None (boot demo_neurons)).2
  = Ok (map state (heap (boot demo_neurons))).
Proof. vm_compute. reflexivity. Qed.

Lemma demo_result (N : Z) (w : world float) :
  0 <= N ->
  (simulate_N demo_connections N None (with_heap demo_neurons w)).2
  = (simulate_N demo_connections (N mod 7) None (boot demo_neurons)).2.
Proof.
  intros HN.
  destruct (heap_only_simulate_N demo_connections N None
              (with_heap demo_neurons w) (boot demo_neurons) eq_refl)
    as [_ ->].
  destruct (simulate_N_period demo_connections 7 (boot demo_neurons))
    with (n := Z.to_nat N) as [_ Hres]; [lia|exact demo_cycle|].
  by rewrite Z2Nat.id in Hres by lia.
Qed.

Lemma demo_after_2 :
  (simulate_N demo_connections 2 None (boot demo_neurons)).2
  = Ok [1; 0; 1; 1; 0; 1; 1; 1; 1].
Proof. vm_compute. reflexivity. Qed.

Lemma demo_after_100 (w : world float) :
  (simulate_N demo_connections 100 None (with_heap demo_neurons w)).2
  = Ok [1; 0; 1; 1; 0; 1; 1; 1; 1].
Proof. rewrite demo_result by lia. exact demo_after_2. Qed.

Lemma demo_eval (w : world float) :
  exists w',
    demo w = (w', [Before [1; 1; 1; 1; 0; 1; 1; 1; 0];
                   After [1; 0; 1; 1; 0; 1; 1; 1; 1]], Ok tt)
    /\ stdin w' = stdin w /\ stdout w' = stdout w.
Proof.
  unfold demo. rewrite call_eval.
  pose proof (demo_after_100 w) as Hres.
  destruct (silent_simulate_N demo_connections 100 (with_heap demo_neurons w))
    as [Hi Ho].
  destruct (simulate_N demo_connections 100 None (with_heap demo_neurons w))
    as [w' r].
  cbn [fst snd] in Hres, Hi, Ho. subst r.
  exists w'. split; [reflexivity|]. split; assumption.
Qed.

End DemoFacts.

Section TickResults.

Context {W : Type} `{Weight W}.
Implicit Types (w : world W) (ns : list (neuron W)).

(** What a tick returns is the threshold comparison of some signals. *)
Lemma steps_returns (conns : list (edge W)) debug w w' r :
  steps conns debug w = (w', Ok r) ->
  exists received,
    length received = length (heap w) /\ r = next_states (heap w) received.
Proof.
  intros Hrun. pose proof (steps_run conns debug w) as Hsteps.
  destruct (send conns _ w) as [w1 [received|e]].
  - destruct Hsteps as (Hlen & t & Heq & _). exists received.
    rewrite Heq in Hrun. by simplify_eq.
  - congruence.
Qed.

Lemma step_fast_returns (oe : list (list (Z * W))) w w' r :
  step_fast oe w = (w', Ok r) ->
  exists received,
    length received = length (heap w) /\ r = next_states (heap w) received.
Proof.
  intros Hrun. pose proof (step_fast_run oe w) as Hsteps.
  destruct (send_fast oe _ w) as [w1 [received|e]].
  - destruct Hsteps as (Hlen & t & Heq & _). exists received.
    rewrite Heq in Hrun. by simplify_eq.
  - congruence.
Qed.

End TickResults.

(** * Further properties of the program *)

Section Further.

Context {W : Type} `{Weight W}.
Implicit Types (w : world W) (ns : list (neuron W)) (t : list subscript).

(** X1. [steps] raises exactly when it meets an edge it cannot deliver: one
    whose source subscript a - 1 is outside [-M, M-1], or whose source is
    active and whose destination subscript b - 1 is outside [-M, M-1].  The
    exception is an IndexError, and the tick that raises leaves the neurons
    as they were and prints nothing. *)
Theorem steps_raises_exactly_on_a_bad_subscript
  (conns : list (edge W)) debug w :
  is_ok (steps conns debug w).2 = forallb (deliverable (heap w)) conns
  /\ forall w' e,
       steps conns debug w = (w', Raise e) ->
       e = IndexError /\ observable w' = observable w.
Proof.
  split; [apply steps_is_ok|]. intros w' e; apply steps_raise.
Qed.

(** X2. [build_out_edges] looks at the sources only: it raises an IndexError
    exactly when some source subscript a - 1 is outside [-M, M-1], whatever
    the destinations are, and otherwise returns the adjacency; it never
    touches the neurons, the input or the output. *)
Theorem build_out_edges_raises_exactly_on_a_bad_source
  M (conns : list (edge W)) w :
  exists t,
    build_out_edges M conns w
    = (evolves w (heap w) [] t,
       if forallb (fun '(a, _, _) => indexable (Z.to_nat M) (a - 1)) conns
       then Ok (adjacency M conns) else Raise IndexError).
Proof. apply build_out_edges_eval. Qed.

(** X3. [step_fast] raises exactly when some active neuron has no row in
    [out_edges] or a row that names a destination outside [-M, M-1]; the
    rows of inactive neurons are never looked at.  The exception is an
    IndexError, and the tick that raises leaves the neurons as they were. *)
Theorem step_fast_raises_exactly_on_a_bad_row
  (oe : list (list (Z * W))) w :
  is_ok (step_fast oe w).2
  = forallb (row_deliverable (length (heap w)) oe) (enumerate (heap w))
  /\ forall w' e,
       step_fast oe w = (w', Raise e) ->
       e = IndexError /\ observable w' = observable w.
Proof.
  split; [apply step_fast_is_ok|]. intros w' e; apply step_fast_raise.
Qed.

(** X4. [steps] takes an id in [1 - M, 0] for the id M larger: Python's
    negative subscripts make id 0 an alias of neuron M, id -1 of neuron
    M - 1, and so on.  The tick on the edge list with such ids replaced has
    the same result and the same effect. *)
Theorem steps_wraps_ids_below_one (conns : list (edge W)) debug w :
  observable (steps (unwrapped (len (heap w)) conns) debug w).1
  = observable (steps conns debug w).1
  /\ (steps (unwrapped (len (heap w)) conns) debug w).2
     = (steps conns debug w).2.
Proof.
  apply steps_same_signals, accumulate_unwrapped, length_replicate.
Qed.

(** X5. Ticks add up: without snapshots, a run of N1 + N2 ticks is a run of
    N1 ticks followed by a run of N2 ticks on the same neuron list, for any
    input (also one on which a tick raises). *)
Theorem simulate_N_ticks_add_up (conns : list (edge W)) N1 N2 w :
  0 <= N1 -> 0 <= N2 ->
  simulate_N conns (N1 + N2) None w
  = (simulate_N conns N1 None;;; simulate_N conns N2 None) w.
Proof. apply simulate_N_add. Qed.

(** X6. When a run of p >= 1 ticks returns the states it started from, the
    network cycles: a run of N >= 0 ticks returns what a run of N mod p
    ticks returns and leaves the same neurons. *)
Theorem simulate_N_follows_a_cycle (conns : list (edge W)) p N w :
  1 <= p -> 0 <= N ->
  (simulate_N conns p None w).2 = Ok (map state (heap w)) ->
  heap (simulate_N conns N None w).1 = heap (simulate_N conns (N mod p) None w).1
  /\ (simulate_N conns N None w).2 = (simulate_N conns (N mod p) None w).2.
Proof.
  intros Hp HN Hcycle.
  pose proof (simulate_N_period conns p w Hp Hcycle (Z.to_nat N)) as Hper.
  by rewrite Z2Nat.id in Hper by lia.
Qed.

(** X7. On edges with endpoints in [1, M] and with [debug_every] not 0,
    [simulate_N] returns: its result is the states after max(N, 0)
    applications of the threshold rule, these are the states it leaves in
    the neurons, and every subscript it evaluates is in range. *)
Theorem simulate_N_iterates_the_rule (conns : list (edge W)) N d w :
  valid_edges (len (heap w)) conns -> d <> Some 0 ->
  exists o t,
    simulate_N conns N d w
    = (evolves w (after_ticks (Z.to_nat N) (heap w) conns) o t,
       Ok (map state (after_ticks (Z.to_nat N) (heap w) conns)))
    /\ Forall (within (length (heap w))) t.
Proof.
  intros Hv Hd. destruct (simulate_N_run conns N d w Hv Hd) as (t & Hrun & Ht).
  by eexists _, t.
Qed.

(** X8. On edges with endpoints in [1, M] and with [debug_every] = k, k not
    0, [simulate_N] prints one STEP line for each tick number t in 1..N
    that k divides, in increasing order, carrying the states after t ticks;
    with [debug_every=None] it prints nothing. *)
Theorem simulate_N_prints_the_due_snapshots (conns : list (edge W)) N d w :
  valid_edges (len (heap w)) conns -> d <> Some 0 ->
  stdout (simulate_N conns N d w).1
  = stdout w ++
    match d with
    | None => []
    | Some k =>
        map (fun tk =>
               Step tk (map state (after_ticks (Z.to_nat tk) (heap w) conns)))
          (List.filter (fun tk => tk mod k =? 0) (range1 N))
    end.
Proof.
  intros Hv Hd. destruct (simulate_N_run conns N d w Hv Hd) as (t & -> & _).
  simpl. f_equal. unfold snapshot_lines, step_lines, after_ticks.
  destruct d as [k|]; [|done].
  apply map_ext; intros tk. by rewrite Z.sub_0_r.
Qed.

(** X9. On edges with endpoints in [1, M] and with [debug_every] not 0,
    [simulate_fast] returns, whatever the rounding of the sums: its result
    is the states after max(N, 0) fast ticks over the adjacency built once,
    these are the states it leaves in the neurons, and every subscript it
    evaluates, in the builder and in every tick, is in range. *)
Theorem simulate_fast_returns_on_valid_edges (conns : list (edge W)) N d w :
  valid_edges (len (heap w)) conns -> d <> Some 0 ->
  exists o t,
    simulate_fast conns N d w
    = (evolves w
         (repeated (fast_tick (adjacency (len (heap w)) conns)) (Z.to_nat N)
            (heap w)) o t,
       Ok (map state
             (repeated (fast_tick (adjacency (len (heap w)) conns))
                (Z.to_nat N) (heap w))))
    /\ Forall (within (length (heap w))) t.
Proof.
  intros Hv Hd.
  destruct (simulate_fast_run conns N d w Hv Hd) as (t & Hrun & Ht).
  by eexists _, t.
Qed.

(** X10. The simulation kernel never reads standard input, and without
    debugging it prints nothing: this holds for [steps], [step_fast],
    [build_out_edges], [simulate_N] and [simulate_fast] on every input,
    also when they raise. *)
Theorem the_kernel_is_silent
  (conns : list (edge W)) (oe : list (list (Z * W))) M N d debug w :
  (stdin (steps conns debug w).1 = stdin w
   /\ stdin (step_fast oe w).1 = stdin w
   /\ stdin (build_out_edges M conns w).1 = stdin w
   /\ stdin (simulate_N conns N d w).1 = stdin w
   /\ stdin (simulate_fast conns N d w).1 = stdin w)
  /\ (stdout (steps conns false w).1 = stdout w
      /\ stdout (step_fast oe w).1 = stdout w
      /\ stdout (build_out_edges M conns w).1 = stdout w
      /\ stdout (simulate_N conns N None w).1 = stdout w
      /\ stdout (simulate_fast conns N None w).1 = stdout w).
Proof.
  pose proof (silent_of_reads _ (reads_build_out_edges M conns) w) as [Hbi Hbo].
  repeat split.
  - apply deaf_steps.
  - apply silent_step_fast.
  - exact Hbi.
  - apply deaf_simulate_N.
  - apply deaf_simulate_fast.
  - apply silent_steps.
  - apply silent_step_fast.
  - exact Hbo.
  - apply silent_simulate_N.
  - apply silent_simulate_fast.
Qed.

(** X11. A network at rest stays at rest: when no neuron is active, no
    threshold is reached by 0.0 and every source subscript is valid, a run
    of at least one tick of either simulator returns all zeros and leaves
    all states 0, whatever the destinations and the weights of the edges. *)
Theorem a_network_at_rest_stays_at_rest (conns : list (edge W)) N d w :
  quiescent (heap w) -> sources_indexable (len (heap w)) conns ->
  1 <= N -> d <> Some 0 ->
  ((simulate_N conns N d w).2 = Ok (replicate (length (heap w)) 0)
   /\ heap (simulate_N conns N d w).1 = at_rest (heap w))
  /\ ((simulate_fast conns N d w).2 = Ok (replicate (length (heap w)) 0)
      /\ heap (simulate_fast conns N d w).1 = at_rest (heap w)).
Proof.
  intros Hq Hs HN Hd. split.
  - destruct (run_quiescent (steps conns false) N d w) as (o & t & Hrun);
      try done.
    + intros w0 Hw0 Hlen. apply steps_quiescent; [done|].
      unfold len in *. by rewrite Hlen.
    + unfold simulate_N. by rewrite Hrun.
  - rewrite simulate_fast_unfold, build_out_edges_run by done.
    set (w1 := evolves w _ _ _).
    destruct (run_quiescent (step_fast (adjacency (len (heap w)) conns)) N d w1)
      as (o & t & Hrun); try done.
    + intros w0 Hw0 _. by apply step_fast_quiescent.
    + by rewrite Hrun.
Qed.

End Further.

(** X12. A neuron whose threshold is NaN never fires: the comparison
    [received[i] >= threshold] is false for every received signal, so after
    any tick of [steps] or [step_fast] that returns, its state is 0. *)
Theorem a_nan_threshold_never_fires
  (conns : list (edge float)) (oe : list (list (Z * float))) debug
  (w : world float) (j : nat) (n : neuron float) :
  heap w !! j = Some n -> threshold n = nan ->
  (forall w' r, steps conns debug w = (w', Ok r) -> r !! j = Some 0)
  /\ (forall w' r, step_fast oe w = (w', Ok r) -> r !! j = Some 0).
Proof.
  intros Hn Hnan; split; intros w' r Hrun.
  - apply steps_returns in Hrun as (received & Hlen & ->).
    by eapply next_states_nan.
  - apply step_fast_returns in Hrun as (received & Hlen & ->).
    by eapply next_states_nan.
Qed.

Section FurtherExact.

Context {W : Type} `{Weight W}.
Implicit Types (w : world W) (ns : list (neuron W)).

(** X13. The order of the edges does not matter when the sums are exact.
    Let the weights be the images inj z of integers, with inj 0 = 0.0 and
    inj a + inj b = inj (a + b) whenever |a|, |b| and |a + b| are at most B,
    and let the absolute values of the integers sum to at most B.  On such
    edges with endpoints in [1, M], [simulate_N] on any reordering of the
    edge list returns the same result, leaves the same neurons and prints
    the same lines. *)
Theorem the_edge_order_is_irrelevant_for_exact_sums
  (inj : Z -> W) (B : Z) (zc1 zc2 : list (edge Z)) N d w :
  inj 0 = w_zero ->
  (forall a b, Z.abs a <= B -> Z.abs b <= B -> Z.abs (a + b) <= B ->
     w_add (inj a) (inj b) = inj (a + b)) ->
  zc1 ≡ₚ zc2 ->
  valid_edges (len (heap w)) (embed inj zc1) -> mass (map snd zc1) <= B ->
  d <> Some 0 ->
  observable (simulate_N (embed inj zc1) N d w).1
  = observable (simulate_N (embed inj zc2) N d w).1
  /\ (simulate_N (embed inj zc1) N d w).2 = (simulate_N (embed inj zc2) N d w).2.
Proof.
  intros Hzero Hadd. by apply (simulate_N_permutation inj B).
Qed.

(** X14. The rows of the adjacency keep the order of the input: when every
    source is in [1, M], row u of what [build_out_edges] returns lists the
    distinct destinations of the edges that leave neuron u + 1, each once,
    in the order in which they first occur in the edge list. *)
Theorem build_out_edges_keeps_the_order_of_first_occurrence
  M (conns : list (edge W)) w :
  Forall (fun '(a, _, _) => 1 <= a <= M) conns ->
  exists t oe,
    build_out_edges M conns w = (evolves w (heap w) [] t, Ok oe)
    /\ length oe = Z.to_nat M
    /\ forall (u : nat) row,
         oe !! u = Some row ->
         row.*1
         = first_seen
             (map (fun '(_, b, _) => b - 1) (edges_from conns (Z.of_nat u))) [].
Proof.
  intros Hs. eexists _, _. split; [|split].
  - apply build_out_edges_run.
    eapply Forall_impl; [exact Hs|]. intros [[a b] x]; lia.
  - apply adjacency_length.
  - intros u row Hrow. apply adjacency_row in Hrow as ->; [|done].
    by rewrite row_after_keys.
Qed.

Section FurtherReader.

Variable int_ : string -> option Z.
Variable float_ : string -> option W.

(** X15. [_read_stdin_case] returns the case the input spells: given a line
    that converts to M, a line whose tokens convert to the states s, a line
    whose tokens convert to the thresholds X (each at least M of them), a
    line that converts to N, and edge records, possibly with blank lines
    between them, followed by the terminator or by the end of the input, it
    returns the neurons with ids 1..M and the first M states and thresholds,
    the edges in input order, and N; the lines after the terminator are
    left unread, and nothing is printed. *)
Theorem the_reader_returns_the_case_spelt
  w M (s : list Z) (X : list W) N (conns : list (edge W)) rest :
  spells int_ float_ (stdin w) M s X N conns rest ->
  exists t,
    _read_stdin_case int_ float_ w
    = (consumed w rest t, Ok (case_neurons M s X, conns, N)).
Proof. apply read_case_run. Qed.

(** X16. On every input, also one it rejects, [_read_stdin_case] prints
    nothing, leaves the neurons alone and consumes a prefix of standard
    input: what it leaves unread is the input without its first k lines. *)
Theorem the_reader_only_consumes_input w :
  heap (_read_stdin_case int_ float_ w).1 = heap w
  /\ stdout (_read_stdin_case int_ float_ w).1 = stdout w
  /\ exists k : nat, stdin (_read_stdin_case int_ float_ w).1 = drop k (stdin w).
Proof.
  destruct (hushed_read_stdin_case int_ float_ w) as [Hh Ho].
  split; [done|]. split; [done|]. apply drops_read_stdin_case.
Qed.

(** X17. [solve_stdin] prints the answer to the case the input spells: when
    the edges of the case have their endpoints in [1, M'], M' the number of
    neurons read, it prints one line with the states after max(N, 0)
    applications of the threshold rule to the neurons of the case, returns
    normally, and leaves the lines after the terminator unread. *)
Theorem solve_stdin_prints_the_answer
  w M (s : list Z) (X : list W) N (conns : list (edge W)) rest :
  spells int_ float_ (stdin w) M s X N conns rest ->
  valid_edges (len (case_neurons M s X)) conns ->
  exists w',
    solve_stdin int_ float_ w = (w', Ok tt)
    /\ stdout w'
       = stdout w ++
         [Final (map state
                   (after_ticks (Z.to_nat N) (case_neurons M s X) conns))]
    /\ stdin w' = rest.
Proof.
  intros Hsp Hv. rewrite solve_stdin_eval.
  destruct (read_case_run int_ float_ w M s X N conns rest Hsp) as [t ->].
  destruct (simulate_N_run conns N None
              (with_heap (case_neurons M s X) (consumed w rest t)))
    as (t' & -> & _); [done|done|].
  eexists; split; [reflexivity|]. simpl. by rewrite app_nil_r.
Qed.

(** X18. [solve_stdin_fast] prints the answer of the fast simulator to the
    case the input spells: when the edges of the case have their endpoints
    in [1, M'], it prints one line with the states after max(N, 0) fast
    ticks over the adjacency of the case, returns normally, and leaves the
    lines after the terminator unread. *)
Theorem solve_stdin_fast_prints_the_fast_answer
  w M (s : list Z) (X : list W) N (conns : list (edge W)) rest :
  spells int_ float_ (stdin w) M s X N conns rest ->
  valid_edges (len (case_neurons M s X)) conns ->
  exists w',
    solve_stdin_fast int_ float_ w = (w', Ok tt)
    /\ stdout w'
       = stdout w ++
         [Final (map state
                   (repeated
                      (fast_tick (adjacency (len (case_neurons M s X)) conns))
                      (Z.to_nat N) (case_neurons M s X)))]
    /\ stdin w' = rest.
Proof.
  intros Hsp Hv. rewrite solve_stdin_fast_eval.
  destruct (read_case_run int_ float_ w M s X N conns rest Hsp) as [t ->].
  destruct (simulate_fast_run conns N None
              (with_heap (case_neurons M s X) (consumed w rest t)))
    as (t' & -> & _); [done|done|].
  eexists; split; [reflexivity|]. simpl. by rewrite app_nil_r.
Qed.

(** X19. [verify_stdin] reports what the two judges print: it returns
    normally exactly when both [solve_stdin] and [solve_stdin_fast] do on
    the same input, and then its BASE line carries the states [solve_stdin]
    prints, its FAST line those [solve_stdin_fast] prints, and its MATCH
    line says whether they are equal.  The run of the baseline does not
    leak into the run of the fast simulator. *)
Theorem verify_stdin_reports_both_judges w :
  is_ok (verify_stdin int_ float_ w).2
  = is_ok (solve_stdin int_ float_ w).2
    && is_ok (solve_stdin_fast int_ float_ w).2
  /\ forall ra rb,
       stdout (solve_stdin int_ float_ w).1 = stdout w ++ [Final ra] ->
       stdout (solve_stdin_fast int_ float_ w).1 = stdout w ++ [Final rb] ->
       stdout (verify_stdin int_ float_ w).1
       = stdout w ++ [Base ra; Fast rb; Match (bool_decide (ra = rb)); Times].
Proof. apply verify_stdin_both. Qed.

(** X20. [verify_stdin] reports MATCH: True on every case whose sums are
    exact: when the input spells a case whose edges have endpoints in
    [1, M'] and weights inj z for integers z whose absolute values sum to at
    most B, where inj 0 = 0.0 and inj a + inj b = inj (a + b) for |a|, |b|,
    |a + b| at most B, it prints the same states on its BASE and FAST lines
    and returns normally. *)
Theorem verify_stdin_reports_a_match_for_exact_sums
  (inj : Z -> W) (B : Z) w M (s : list Z) (X : list W) N
  (zc : list (edge Z)) rest :
  inj 0 = w_zero ->
  (forall a b, Z.abs a <= B -> Z.abs b <= B -> Z.abs (a + b) <= B ->
     w_add (inj a) (inj b) = inj (a + b)) ->
  spells int_ float_ (stdin w) M s X N (embed inj zc) rest ->
  valid_edges (len (case_neurons M s X)) (embed inj zc) ->
  mass (map snd zc) <= B ->
  exists r,
    (verify_stdin int_ float_ w).2 = Ok tt
    /\ stdout (verify_stdin int_ float_ w).1
       = stdout w ++ [Base r; Fast r; Match true; Times].
Proof.
  intros Hzero Hadd Hsp Hv Hb. rewrite verify_stdin_eval.
  destruct (read_case_run int_ float_ w M s X N _ rest Hsp) as [t ->].
  set (ns := case_neurons M s X) in *.
  set (w1 := with_heap ns (consumed w rest t)).
  destruct (simulators_agree_when (embed inj zc) N None w1) as (_ & Hres & Hok);
    [done|by apply (represented_phases_agree inj B)|].
  destruct (silent_simulate_N (embed inj zc) N w1) as [_ Ho2].
  destruct (simulate_N (embed inj zc) N None w1) as [w2 [r|e]] eqn:Hbase;
    [|by specialize (Hok ltac:(done))].
  destruct (heap_only_simulate_fast (embed inj zc) N None
              (with_heap ns w2) w1 eq_refl) as [_ Hsame].
  destruct (silent_simulate_fast (embed inj zc) N (with_heap ns w2)) as [_ Ho3].
  simpl in Hres. rewrite <- Hres in Hsame.
  destruct (simulate_fast (embed inj zc) N None (with_heap ns w2))
    as [w3 [r'|e]]; simpl in *; simplify_eq.
  exists r. split; [done|].
  rewrite Ho3, Ho2. by rewrite bool_decide_eq_true_2.
Qed.

End FurtherReader.

End FurtherExact.

Section FurtherMain.

Variable int_ : string -> option Z.
Variable float_ : string -> option float.
Variable bench_demo : Py (W:=float) unit.

(** X21. [main] looks at [sys.argv[1]] only.  Without it, it runs the demo,
    which prints the initial states and the states after 100 ticks, returns
    normally and leaves standard input unread; the states after 100 ticks
    are those after 2 ticks, the demo network having period 7.  With an
    option it does not know it prints two lines and does nothing else.
    Whatever follows a known option is ignored. *)
Theorem main_dispatches_on_the_first_argument
  (prog option : string) (more : list string) (w : world float) :
  (forall argv, (length argv <= 1)%nat ->
     exists w',
       main int_ float_ bench_demo argv w
       = (w', [Before [1; 1; 1; 1; 0; 1; 1; 1; 0];
               After [1; 0; 1; 1; 0; 1; 1; 1; 1]], Ok tt)
       /\ stdin w' = stdin w /\ stdout w' = stdout w)
  /\ (option ∉ ["--stdin"; "--stdin-fast"; "--verify-stdin"; "--bench-demo"]%string ->
      main int_ float_ bench_demo (prog :: option :: more) w
      = (w, [UnknownOption option; Usage], Ok tt))
  /\ main int_ float_ bench_demo (prog :: option :: more) w
     = main int_ float_ bench_demo [prog; option] w.
Proof.
  split; [|split].
  - intros argv Hargv.
    assert (Hdemo : main int_ float_ bench_demo argv w = demo w).
    { destruct argv as [|? [|? ?]]; [reflexivity|reflexivity|].
      simpl in Hargv; lia. }
    rewrite Hdemo. apply demo_eval.
  - intros Hopt. unfold main.
    destruct (String.eqb_spec option "--stdin") as [->|_];
      [exfalso; apply Hopt; repeat first [apply list_elem_of_here|apply list_elem_of_further]|].
    destruct (String.eqb_spec option "--stdin-fast") as [->|_];
      [exfalso; apply Hopt; repeat first [apply list_elem_of_here|apply list_elem_of_further]|].
    destruct (String.eqb_spec option "--verify-stdin") as [->|_];
      [exfalso; apply Hopt; repeat first [apply list_elem_of_here|apply list_elem_of_further]|].
    destruct (String.eqb_spec option "--bench-demo") as [->|_];
      [exfalso; apply Hopt; repeat first [apply list_elem_of_here|apply list_elem_of_further]|].
    reflexivity.
  - reflexivity.
Qed.

End FurtherMain.

(** ** The further properties on concrete cases *)

Lemma small_weights_spelt :
  spells int_plain float_plain (stdin (input case_of_small_weights))
    3 [1; 1; 0] [0.5%float; 0.5%float; 0.5%float] 3
    (embed float_of_int exact_edges) ["4"%string].
Proof.
  exists "3"%string, "1 1 0"%string, "0.5 0.5 0.5"%string, "3"%string,
    ["1 3 1"; EmptyString; "2 3 5"; "1 3 -5"]%string, ["E"; "4"]%string.
  split; [reflexivity|]. split; [reflexivity|].
  split.
  { replace (split "1 1 0") with ["1"; "1"; "0"]%string
      by (vm_compute; reflexivity).
    repeat (constructor; [vm_compute; reflexivity|]). constructor. }
  split.
  { replace (split "0.5 0.5 0.5") with ["0.5"; "0.5"; "0.5"]%string
      by (vm_compute; reflexivity).
    repeat (constructor; [vm_compute; reflexivity|]). constructor. }
  split; [reflexivity|]. split.
  - eapply records_edge;
      [by vm_compute|by vm_compute|vm_compute; reflexivity
      |vm_compute; reflexivity|vm_compute; reflexivity|vm_compute; reflexivity|].
    apply records_blank; [reflexivity|].
    eapply records_edge;
      [by vm_compute|by vm_compute|vm_compute; reflexivity
      |vm_compute; reflexivity|vm_compute; reflexivity|vm_compute; reflexivity|].
    eapply records_edge;
      [by vm_compute|by vm_compute|vm_compute; reflexivity
      |vm_compute; reflexivity|vm_compute; reflexivity|vm_compute; reflexivity|].
    apply records_nil.
  - split; [right; by exists "E"%string|]. split; vm_compute; discriminate.
Qed.

(** X5, witness. *)
Lemma ticks_add_up_on_scenario_2 :
  0 <= 1 /\ 0 <= 2
  /\ simulate_N pair_edges (1 + 2) None (boot pair_neurons)
     = (simulate_N pair_edges 1 None;;; simulate_N pair_edges 2 None)
         (boot pair_neurons).
Proof.
  split; [lia|]. split; [lia|].
  apply (simulate_N_ticks_add_up pair_edges 1 2 (boot pair_neurons)); lia.
Defined.

(** X6, witness: the demo network returns to its initial states after 7
    ticks, so its 100 ticks come to 100 mod 7 = 2. *)
Lemma the_demo_network_has_period_7 :
  1 <= 7 /\ 0 <= 100
  /\ (simulate_N demo_connections 7 None (boot demo_neurons)).2
     = Ok (map state (heap (boot demo_neurons)))
  /\ (heap (simulate_N demo_connections 100 None (boot demo_neurons)).1
      = heap (simulate_N demo_connections (100 mod 7) None (boot demo_neurons)).1
      /\ (simulate_N demo_connections 100 None (boot demo_neurons)).2
         = (simulate_N demo_connections (100 mod 7) None (boot demo_neurons)).2).
Proof.
  assert (H1 : 1 <= 7) by lia. assert (H2 : 0 <= 100) by lia.
  split; [exact H1|]. split; [exact H2|]. split; [exact demo_cycle|].
  exact (simulate_N_follows_a_cycle demo_connections 7 100 (boot demo_neurons)
           H1 H2 demo_cycle).
Defined.

(** X7, witness: scenario 2, three ticks. *)
Lemma the_rule_iterated_on_scenario_2 :
  valid_edges (len (heap (boot pair_neurons))) pair_edges
  /\ Some 2 <> Some 0
  /\ exists o t,
       simulate_N pair_edges 3 (Some 2) (boot pair_neurons)
       = (evolves (boot pair_neurons)
            (after_ticks (Z.to_nat 3) (heap (boot pair_neurons)) pair_edges) o t,
          Ok (map state
                (after_ticks (Z.to_nat 3) (heap (boot pair_neurons)) pair_edges)))
       /\ Forall (within (length (heap (boot pair_neurons)))) t.
Proof.
  assert (Hv : valid_edges (len (heap (boot pair_neurons))) pair_edges)
    by (check_edges).
  assert (Hd : Some 2 <> Some 0) by discriminate.
  split; [exact Hv|]. split; [exact Hd|].
  exact (simulate_N_iterates_the_rule pair_edges 3 (Some 2) (boot pair_neurons)
           Hv Hd).
Defined.

(** X8, witness: with [debug_every = 2], three ticks print one line. *)
Lemma the_snapshots_of_scenario_2 :
  valid_edges (len (heap (boot pair_neurons))) pair_edges
  /\ Some 2 <> Some 0
  /\ stdout (simulate_N pair_edges 3 (Some 2) (boot pair_neurons)).1
     = stdout (boot pair_neurons) ++
       map (fun tk =>
              Step tk (map state (after_ticks (Z.to_nat tk)
                                    (heap (boot pair_neurons)) pair_edges)))
         (List.filter (fun tk => tk mod 2 =? 0) (range1 3)).
Proof.
  assert (Hv : valid_edges (len (heap (boot pair_neurons))) pair_edges)
    by (check_edges).
  assert (Hd : Some 2 <> Some 0) by discriminate.
  split; [exact Hv|]. split; [exact Hd|].
  exact (simulate_N_prints_the_due_snapshots pair_edges 3 (Some 2)
           (boot pair_neurons) Hv Hd).
Defined.

(** What the line says. *)
Example the_snapshot_line_of_scenario_2 :
  stdout (simulate_N pair_edges 3 (Some 2) (boot pair_neurons)).1
  = [Step 2 [0; 0]].
Proof. vm_compute. reflexivity. Qed.

(** X9, witness: the network whose sums are rounded. *)
Lemma the_fast_run_on_rounded_sums :
  valid_edges (len (heap (boot rounding_neurons))) rounding_edges
  /\ None <> Some 0
  /\ exists o t,
       simulate_fast rounding_edges 3 None (boot rounding_neurons)
       = (evolves (boot rounding_neurons)
            (repeated
               (fast_tick (adjacency (len (heap (boot rounding_neurons)))
                             rounding_edges))
               (Z.to_nat 3) (heap (boot rounding_neurons))) o t,
          Ok (map state
                (repeated
                   (fast_tick (adjacency (len (heap (boot rounding_neurons)))
                                 rounding_edges))
                   (Z.to_nat 3) (heap (boot rounding_neurons)))))
       /\ Forall (within (length (heap (boot rounding_neurons)))) t.
Proof.
  assert (Hv : valid_edges (len (heap (boot rounding_neurons))) rounding_edges)
    by (check_edges).
  assert (Hd : @None Z <> Some 0) by discriminate.
  split; [exact Hv|]. split; [exact Hd|].
  exact (simulate_fast_returns_on_valid_edges rounding_edges 3 None
           (boot rounding_neurons) Hv Hd).
Defined.

(** X11, witness: two inactive neurons and an edge to a neuron that does
    not exist. *)
Lemma the_idle_network_stays_at_rest :
  quiescent (heap (boot idle_neurons))
  /\ sources_indexable (len (heap (boot idle_neurons))) idle_edges
  /\ 1 <= 3 /\ None <> Some 0
  /\ ((simulate_N idle_edges 3 None (boot idle_neurons)).2
      = Ok (replicate (length (heap (boot idle_neurons))) 0)
      /\ heap (simulate_N idle_edges 3 None (boot idle_neurons)).1
         = at_rest (heap (boot idle_neurons)))
     /\ ((simulate_fast idle_edges 3 None (boot idle_neurons)).2
         = Ok (replicate (length (heap (boot idle_neurons))) 0)
         /\ heap (simulate_fast idle_edges 3 None (boot idle_neurons)).1
            = at_rest (heap (boot idle_neurons))).
Proof.
  assert (Hq : quiescent (heap (boot idle_neurons))).
  { repeat constructor; simpl; first [discriminate|reflexivity]. }
  assert (Hs : sources_indexable (len (heap (boot idle_neurons))) idle_edges).
  { repeat constructor; vm_compute; discriminate. }
  assert (HN : 1 <= 3) by lia.
  assert (Hd : @None Z <> Some 0) by discriminate.
  split; [exact Hq|]. split; [exact Hs|]. split; [exact HN|]. split; [exact Hd|].
  exact (a_network_at_rest_stays_at_rest idle_edges 3 None (boot idle_neurons)
           Hq Hs HN Hd).
Defined.

(** X12, witness: an active source sends 1.0 to a neuron whose threshold is
    NaN. *)
Lemma the_nan_neuron_stays_off :
  heap (boot nan_neurons) !! 1%nat = Some (Neuron 2 0 nan)
  /\ threshold (Neuron 2 0 nan) = nan
  /\ (forall w' r,
        steps nan_edges false (boot nan_neurons) = (w', Ok r) ->
        r !! 1%nat = Some 0)
  /\ (forall w' r,
        step_fast (adjacency 2 nan_edges) (boot nan_neurons) = (w', Ok r) ->
        r !! 1%nat = Some 0).
Proof.
  split; [reflexivity|]. split; [reflexivity|].
  exact (a_nan_threshold_never_fires nan_edges (adjacency 2 nan_edges) false
           (boot nan_neurons) 1 (Neuron 2 0 nan) eq_refl eq_refl).
Defined.

(** The tick on that network does return. *)
Example the_nan_neuron_tick :
  (steps nan_edges false (boot nan_neurons)).2 = Ok [0; 0]
  /\ (step_fast (adjacency 2 nan_edges) (boot nan_neurons)).2 = Ok [0; 0].
Proof. split; vm_compute; reflexivity. Qed.

(** X13, witness: the edges with binary64 weights 1, 5, -5 and their
    reversal. *)
Lemma the_order_of_small_float_weights :
  float_of_int 0 = w_zero
  /\ exact_edges ≡ₚ rev exact_edges
  /\ valid_edges (len (heap (boot rounding_neurons)))
       (embed float_of_int exact_edges)
  /\ mass (map snd exact_edges) <= 16
  /\ Some 1 <> Some 0
  /\ (observable
        (simulate_N (embed float_of_int exact_edges) 3 (Some 1)
           (boot rounding_neurons)).1
      = observable
          (simulate_N (embed float_of_int (rev exact_edges)) 3 (Some 1)
             (boot rounding_neurons)).1
      /\ (simulate_N (embed float_of_int exact_edges) 3 (Some 1)
            (boot rounding_neurons)).2
         = (simulate_N (embed float_of_int (rev exact_edges)) 3 (Some 1)
              (boot rounding_neurons)).2).
Proof.
  assert (Hp : exact_edges ≡ₚ rev exact_edges) by apply Permutation_rev.
  assert (Hv : valid_edges (len (heap (boot rounding_neurons)))
                 (embed float_of_int exact_edges)) by (check_edges).
  assert (Hb : mass (map snd exact_edges) <= 16) by (vm_compute; discriminate).
  assert (Hd : Some 1 <> Some 0) by discriminate.
  split; [reflexivity|]. split; [exact Hp|]. split; [exact Hv|].
  split; [exact Hb|]. split; [exact Hd|].
  exact (the_edge_order_is_irrelevant_for_exact_sums float_of_int 16
           exact_edges (rev exact_edges) 3 (Some 1) (boot rounding_neurons)
           eq_refl float_add_exact_16 Hp Hv Hb Hd).
Defined.

(** X14, witness: the first source has edges to 3, 2, 3 and 1. *)
Lemma the_rows_of_a_fan :
  Forall (fun '(a, _, _) => 1 <= a <= 3) fan_edges
  /\ exists t oe,
       build_out_edges 3 fan_edges (boot rounding_neurons)
       = (evolves (boot rounding_neurons) (heap (boot rounding_neurons)) [] t,
          Ok oe)
       /\ length oe = Z.to_nat 3
       /\ forall (u : nat) row,
            oe !! u = Some row ->
            row.*1
            = first_seen
                (map (fun '(_, b, _) => b - 1)
                   (edges_from fan_edges (Z.of_nat u))) [].
Proof.
  assert (Hs : Forall (fun '(a, _, _) => 1 <= a <= 3) fan_edges).
  { repeat constructor; vm_compute; discriminate. }
  split; [exact Hs|].
  exact (build_out_edges_keeps_the_order_of_first_occurrence 3 fan_edges
           (boot rounding_neurons) Hs).
Defined.

(** The rows of the fan. *)
Example the_fan_adjacency :
  (build_out_edges 3 fan_edges (boot rounding_neurons)).2
  = Ok [[(2, 5%float); (1, 2%float); (0, 1%float)]; [(0, 1%float)]; []].
Proof. vm_compute. reflexivity. Qed.

(** X15, witness: a case with a blank line among its records and a line
    after its terminator. *)
Lemma the_reader_on_small_weights :
  spells int_plain float_plain (stdin (input case_of_small_weights))
    3 [1; 1; 0] [0.5%float; 0.5%float; 0.5%float] 3
    (embed float_of_int exact_edges) ["4"%string]
  /\ exists t,
       _read_stdin_case int_plain float_plain (input case_of_small_weights)
       = (consumed (input case_of_small_weights) ["4"%string] t,
          Ok (case_neurons 3 [1; 1; 0] [0.5%float; 0.5%float; 0.5%float],
              embed float_of_int exact_edges, 3)).
Proof.
  split; [exact small_weights_spelt|].
  exact (the_reader_returns_the_case_spelt int_plain float_plain
           (input case_of_small_weights) 3 [1; 1; 0]
           [0.5%float; 0.5%float; 0.5%float] 3
           (embed float_of_int exact_edges) ["4"%string] small_weights_spelt).
Defined.

(** X17, witness. *)
Lemma the_answer_on_small_weights :
  spells int_plain float_plain (stdin (input case_of_small_weights))
    3 [1; 1; 0] [0.5%float; 0.5%float; 0.5%float] 3
    (embed float_of_int exact_edges) ["4"%string]
  /\ valid_edges
       (len (case_neurons 3 [1; 1; 0] [0.5%float; 0.5%float; 0.5%float]))
       (embed float_of_int exact_edges)
  /\ exists w',
       solve_stdin int_plain float_plain (input case_of_small_weights)
       = (w', Ok tt)
       /\ stdout w'
          = stdout (input case_of_small_weights) ++
            [Final (map state
                      (after_ticks (Z.to_nat 3)
                         (case_neurons 3 [1; 1; 0]
                            [0.5%float; 0.5%float; 0.5%float])
                         (embed float_of_int exact_edges)))]
       /\ stdin w' = ["4"%string].
Proof.
  assert (Hv : valid_edges
                 (len (case_neurons 3 [1; 1; 0]
                         [0.5%float; 0.5%float; 0.5%float]))
                 (embed float_of_int exact_edges)) by (check_edges).
  split; [exact small_weights_spelt|]. split; [exact Hv|].
  exact (solve_stdin_prints_the_answer int_plain float_plain
           (input case_of_small_weights) 3 [1; 1; 0]
           [0.5%float; 0.5%float; 0.5%float] 3
           (embed float_of_int exact_edges) ["4"%string]
           small_weights_spelt Hv).
Defined.

(** X18, witness. *)
Lemma the_fast_answer_on_small_weights :
  spells int_plain float_plain (stdin (input case_of_small_weights))
    3 [1; 1; 0] [0.5%float; 0.5%float; 0.5%float] 3
    (embed float_of_int exact_edges) ["4"%string]
  /\ valid_edges
       (len (case_neurons 3 [1; 1; 0] [0.5%float; 0.5%float; 0.5%float]))
       (embed float_of_int exact_edges)
  /\ exists w',
       solve_stdin_fast int_plain float_plain (input case_of_small_weights)
       = (w', Ok tt)
       /\ stdout w'
          = stdout (input case_of_small_weights) ++
            [Final (map state
                      (repeated
                         (fast_tick
                            (adjacency
                               (len (case_neurons 3 [1; 1; 0]
                                       [0.5%float; 0.5%float; 0.5%float]))
                               (embed float_of_int exact_edges)))
                         (Z.to_nat 3)
                         (case_neurons 3 [1; 1; 0]
                            [0.5%float; 0.5%float; 0.5%float])))]
       /\ stdin w' = ["4"%string].
Proof.
  assert (Hv : valid_edges
                 (len (case_neurons 3 [1; 1; 0]
                         [0.5%float; 0.5%float; 0.5%float]))
                 (embed float_of_int exact_edges)) by (check_edges).
  split; [exact small_weights_spelt|]. split; [exact Hv|].
  exact (solve_stdin_fast_prints_the_fast_answer int_plain float_plain
           (input case_of_small_weights) 3 [1; 1; 0]
           [0.5%float; 0.5%float; 0.5%float] 3
           (embed float_of_int exact_edges) ["4"%string]
           small_weights_spelt Hv).
Defined.

(** What the three entry points print on that input. *)
Example the_output_on_small_weights :
  stdout (solve_stdin int_plain float_plain (input case_of_small_weights)).1
  = [Final [0; 0; 0]]
  /\ stdout (solve_stdin_fast int_plain float_plain
               (input case_of_small_weights)).1
     = [Final [0; 0; 0]]
  /\ stdout (verify_stdin int_plain float_plain
               (input case_of_small_weights)).1
     = [Base [0; 0; 0]; Fast [0; 0; 0]; Match true; Times].
Proof. repeat split; vm_compute; reflexivity. Qed.

(** X20, witness. *)
Lemma the_match_on_small_weights :
  float_of_int 0 = w_zero
  /\ spells int_plain float_plain (stdin (input case_of_small_weights))
       3 [1; 1; 0] [0.5%float; 0.5%float; 0.5%float] 3
       (embed float_of_int exact_edges) ["4"%string]
  /\ valid_edges
       (len (case_neurons 3 [1; 1; 0] [0.5%float; 0.5%float; 0.5%float]))
       (embed float_of_int exact_edges)
  /\ mass (map snd exact_edges) <= 16
  /\ exists r,
       (verify_stdin int_plain float_plain (input case_of_small_weights)).2
       = Ok tt
       /\ stdout (verify_stdin int_plain float_plain
                    (input case_of_small_weights)).1
          = stdout (input case_of_small_weights)
            ++ [Base r; Fast r; Match true; Times].
Proof.
  assert (Hv : valid_edges
                 (len (case_neurons 3 [1; 1; 0]
                         [0.5%float; 0.5%float; 0.5%float]))
                 (embed float_of_int exact_edges)) by (check_edges).
  assert (Hb : mass (map snd exact_edges) <= 16) by (vm_compute; discriminate).
  split; [reflexivity|]. split; [exact small_weights_spelt|].
  split; [exact Hv|]. split; [exact Hb|].
  exact (verify_stdin_reports_a_match_for_exact_sums int_plain float_plain
           float_of_int 16 (input case_of_small_weights) 3 [1; 1; 0]
           [0.5%float; 0.5%float; 0.5%float] 3 exact_edges ["4"%string]
           eq_refl float_add_exact_16 small_weights_spelt Hv Hb).
Defined.

(** The error behaviour on concrete cases: an edge to a neuron that does not
    exist is harmless while its source is inactive; ids 0 and -1 stand for
    the last two neurons. *)
Example the_errors_of_a_tick :
  (steps idle_edges false (boot idle_neurons)).2 = Ok [0; 0]
  /\ (steps idle_edges false (boot [Neuron 1 1 0.5%float; Neuron 2 0 0.5%float])).2
     = Raise IndexError
  /\ (steps [(-1, 0, 1%float)] false
        (boot [Neuron 1 1 0.5%float; Neuron 2 0 0.5%float])).2 = Ok [0; 1]
  /\ (build_out_edges 2 idle_edges (boot idle_neurons)).2
     = Ok [[(8, 1%float)]; []]
  /\ (build_out_edges 2 [(3, 1, 1%float)] (boot idle_neurons)).2
     = Raise IndexError.
Proof. repeat split; vm_compute; reflexivity. Qed.
